(** * DuplicateFileFinder: a shallow embedding of [DuplicateFileFinder.py]

    The development follows the Python source function by function:
    [compute_file_hash], [print_progress_bar], [run_scan] (directory
    validation, enumeration, size partition, hash confirmation, report) and
    [main].  Python exceptions are values of [exn] carried by the [result]
    monad; [sys.exit] is the exception [SystemExit], as in Python.  The
    dictionaries of the source are [defaultdict(list)] objects whose
    iteration order is insertion order, so they are association lists.

    The file system, the outcome of every [stat] and [read] and the names
    that the standard output can encode are given by an [os_world].  The
    standard streams are taken to accept what is written to them, and the
    interpreter to have the memory it needs. *)

From Stdlib Require Import ZArith List Bool String Ascii Lia Arith Sorted DecimalString.
Import ListNotations.
Local Open Scope Z_scope.

Set Implicit Arguments.

(* ====================================================================== *)
(** ** Exceptions and the result monad *)

Inductive exn : Type :=
| SystemExit (code : Z)
| ZeroDivisionError
| OverflowError
| ValueError
| OSError
| UnicodeEncodeError
| IndexError.

Inductive result (A : Type) : Type :=
| Return (a : A)
| Raise (e : exn).

Arguments Return {A} a.
Arguments Raise {A} e.

Definition bind {A B : Type} (m : result A) (k : A -> result B) : result B :=
  match m with
  | Return a => k a
  | Raise e => Raise e
  end.

Notation "x <- m ;; k" := (bind m (fun x => k))
  (at level 61, m at next level, right associativity).

(** [for x in xs: st = body(st, x)] where the body may raise. *)
Fixpoint for_each {A S : Type} (body : S -> A -> result S) (xs : list A) (st : S)
  : result S :=
  match xs with
  | [] => Return st
  | x :: xs' => st' <- body st x ;; for_each body xs' st'
  end.

(** [try: m except Exception: handler].  [SystemExit] derives from
    [BaseException], not from [Exception], and is not caught. *)
Definition try_except_Exception {A : Type} (m : result A) (handler : exn -> result A)
  : result A :=
  match m with
  | Return a => Return a
  | Raise (SystemExit c) => Raise (SystemExit c)
  | Raise e => handler e
  end.

(** [sys.exit(code)] *)
Definition sys_exit {A : Type} (code : Z) : result A := Raise (SystemExit code).

(** An exception other than [SystemExit]: uncaught, it ends the program
    with a traceback and status 1. *)
Definition is_error (e : exn) : bool :=
  match e with
  | SystemExit _ => false
  | _ => true
  end.

(* ====================================================================== *)
(** ** Python floats (IEEE-754 binary64) as far as [print_progress_bar] uses them

    A finite float [Finite m e] denotes [m * 2^e].  Integer true division and
    the conversion of an integer to a float are correctly rounded (round half
    to even) and raise [OverflowError] when the rounded value is not finite;
    float multiplication returns an infinity instead. *)

Module PyFloat.

Inductive t : Type :=
| Finite (m e : Z)
| Infinity (negative : bool)
| NaN.

Definition emin : Z := -1074.

(** The rational [n / d] divided by [2^e], as a fraction of integers. *)
Definition scale (n d e : Z) : Z * Z :=
  (n * 2 ^ Z.max 0 (- e), d * 2 ^ Z.max 0 e).

(** Nearest integer to [a / b] for [0 < b], ties to even. *)
Definition rne (a b : Z) : Z :=
  let q := a / b in
  let r := a mod b in
  if 2 * r <? b then q
  else if b <? 2 * r then q + 1
  else if Z.even q then q else q + 1.

(** [floor (log2 (n / d))] for [0 < n] and [0 < d]. *)
Definition floor_log2 (n d : Z) : Z :=
  let l := Z.log2 n - Z.log2 d in
  let '(a, b) := scale n d l in
  if b <=? a then l else l - 1.

(** Exponent of the unit in the last place of the double nearest to [n / d]. *)
Definition exponent (n d : Z) : Z := Z.max emin (floor_log2 n d - 52).

Definition overflows (m e : Z) : bool :=
  (0 <=? e) && (2 ^ 1024 <=? Z.abs m * 2 ^ e).

(** The double nearest to [n / d], for [0 < d]. *)
Definition round_double (n d : Z) : t :=
  if n =? 0 then Finite 0 0
  else
    let e := exponent (Z.abs n) d in
    let '(a, b) := scale n d e in
    let m := rne a b in
    if overflows m e then Infinity (n <? 0) else Finite m e.

Definition finite_or_overflow (f : t) : result t :=
  match f with
  | Finite m e => Return (Finite m e)
  | _ => Raise OverflowError
  end.

(** [a / b] on Python integers. *)
Definition true_divide (a b : Z) : result t :=
  if b =? 0 then Raise ZeroDivisionError
  else if b <? 0 then finite_or_overflow (round_double (- a) (- b))
  else finite_or_overflow (round_double a b).

(** [float(n)], the implicit conversion in [float * int]. *)
Definition of_int (n : Z) : result t := finite_or_overflow (round_double n 1).

Definition is_zero (f : t) : bool :=
  match f with Finite m _ => m =? 0 | _ => false end.

Definition is_negative (f : t) : bool :=
  match f with Finite m _ => m <? 0 | Infinity s => s | NaN => false end.

(** [x * y] on floats. *)
Definition mul (x y : t) : t :=
  match x, y with
  | Finite m1 e1, Finite m2 e2 =>
      let '(n, d) := scale (m1 * m2) 1 (- (e1 + e2)) in round_double n d
  | NaN, _ | _, NaN => NaN
  | _, _ =>
      if is_zero x || is_zero y then NaN
      else Infinity (xorb (is_negative x) (is_negative y))
  end.

(** [int(x)]: truncation towards zero. *)
Definition to_int (x : t) : result Z :=
  match x with
  | Finite m e => Return (Z.quot (m * 2 ^ Z.max 0 e) (2 ^ Z.max 0 (- e)))
  | Infinity _ => Raise OverflowError
  | NaN => Raise ValueError
  end.

(** The literal [1.0]. *)
Definition one : t := Finite 1 0.

(** [n / d < 2^k] and [2^k <= n / d], on the fraction produced by [scale]. *)
Definition below (n d k : Z) : Prop := fst (scale n d k) < snd (scale n d k).
Definition at_least (n d k : Z) : Prop := snd (scale n d k) <= fst (scale n d k).

End PyFloat.

(* ====================================================================== *)
(** ** [print_progress_bar] *)

Inductive cell : Type := Filled | Unfilled.

(** What [print_progress_bar] writes to standard output:
    [[bar] current/total (percentage%)]. *)
Record progress_line : Type := mk_line {
  bar : list cell;
  shown_current : Z;
  shown_total : Z;
  percentage : Z
}.

(** [s * n] for a one-character string: empty when [n <= 0]. *)
Definition str_repeat (c : cell) (n : Z) : list cell := repeat c (Z.to_nat n).

Definition default_bar_length : Z := 30.

(** [sys.get_int_max_str_digits()], unless changed: CPython refuses to
    convert an integer of more digits to decimal text. *)
Definition int_max_str_digits : Z := 4300.

(** Lines 71-80.  The line is kept as its parts: the cells of the bar and
    the three numbers.  Building the text is not part of the model: the
    f-string cannot show an integer of more than [int_max_str_digits]
    digits, and a bar of very many cells needs memory.  [run_scan] calls the
    function with lengths of lists and the default bar; the statements about
    other values are made for numbers below that limit. *)
Definition print_progress_bar (current total bar_length : Z) : result progress_line :=
  fraction <- (if 0 <? total then PyFloat.true_divide current total
               else Return PyFloat.one) ;;
  hundred <- PyFloat.of_int 100 ;;
  percentage <- PyFloat.to_int (PyFloat.mul fraction hundred) ;;
  len <- PyFloat.of_int bar_length ;;
  filled_length <- PyFloat.to_int (PyFloat.mul len fraction) ;;
  Return (mk_line (str_repeat Filled filled_length
                     ++ str_repeat Unfilled (bar_length - filled_length))
                  current total percentage).

(* ====================================================================== *)
(** ** [collections.defaultdict(list)]

    Keys are kept in insertion order, which is the order in which
    [.items()] and [.values()] iterate. *)

Module DefaultDict.
Section Dict.
Variables K V : Type.
Variable eqb : K -> K -> bool.

Definition t : Type := list (K * list V).

(** [d[k].append(v)] *)
Fixpoint append (k : K) (v : V) (d : t) : t :=
  match d with
  | [] => [(k, [v])]
  | (k', vs) :: d' =>
      if eqb k k' then (k', vs ++ [v]) :: d' else (k', vs) :: append k v d'
  end.

(** The list stored under [k], empty when the key is absent. *)
Fixpoint get (k : K) (d : t) : list V :=
  match d with
  | [] => []
  | (k', vs) :: d' => if eqb k k' then vs else get k d'
  end.

Definition keys (d : t) : list K := map fst d.
Definition values (d : t) : list (list V) := map snd d.

(** Number of stored values, over all keys. *)
Definition size (d : t) : nat := list_sum (map (@List.length V) (values d)).

(** [for x in xs: d[key(x)].append(x)], skipping the [x] without a key. *)
Definition group_step (key : V -> option K) (d : t) (x : V) : t :=
  match key x with
  | Some k => append k x d
  | None => d
  end.

Definition has_key (key : V -> option K) (k : K) (x : V) : bool :=
  match key x with
  | Some k' => eqb k k'
  | None => false
  end.

Definition keyed (key : V -> option K) (x : V) : bool :=
  match key x with Some _ => true | None => false end.
End Dict.
End DefaultDict.

(* ====================================================================== *)
(** ** The operating system and [hashlib] *)

(** A [pathlib.Path] below the scanned directory, as its components. *)
Definition path : Type := list string.

(** A directory entry as [os.walk] and [Path.is_symlink] see it. *)
#[warnings="-register-all"]
Inductive entry : Type :=
| RegularFile
| SpecialFile                         (* FIFO, socket, device node *)
| Symlink (to_directory : bool)       (* the target, when it exists, is a directory *)
| Unreadable                          (* [Path.is_symlink] raises on it: a permission
                                         error of [lstat] that pathlib lets through *)
| LockedDirectory                     (* a directory that [scandir] cannot list *)
| Directory (children : list (string * entry)).

(** Induction on entries that reaches the children of a directory. *)
Section EntryInduction.
Variable P : entry -> Prop.
Hypothesis P_regular : P RegularFile.
Hypothesis P_special : P SpecialFile.
Hypothesis P_symlink : forall to_directory, P (Symlink to_directory).
Hypothesis P_unreadable : P Unreadable.
Hypothesis P_locked : P LockedDirectory.
Hypothesis P_directory :
  forall children, Forall (fun c => P (snd c)) children -> P (Directory children).

Fixpoint entry_nested_ind (e : entry) : P e :=
  match e with
  | RegularFile => P_regular
  | SpecialFile => P_special
  | Symlink to_directory => P_symlink to_directory
  | Unreadable => P_unreadable
  | LockedDirectory => P_locked
  | Directory children =>
      P_directory
        ((fix each (l : list (string * entry)) : Forall (fun c => P (snd c)) l :=
            match l with
            | [] => Forall_nil _
            | c :: l' => @Forall_cons _ _ c l' (entry_nested_ind (snd c)) (each l')
            end) children)
  end.
End EntryInduction.

(** What the tests [exists()] and [is_dir()] of line 89 find at a path. *)
Inductive lookup : Type :=
| Found (e : entry)
| Missing                             (* nothing is there *)
| Inaccessible.                       (* the test raises: an error of [stat] other
                                         than a missing path, which pathlib lets
                                         through (a directory on the way that may
                                         not be searched, for one) *)

Record os_world : Type := {
  (** What [Path(directory_path).resolve()] designates. *)
  resolve : string -> lookup;
  (** [str(target_dir)]: the absolute path that [resolve()] made. *)
  target_text : string -> string;
  (** Whether a name can be written to the standard output, which is UTF-8
      with strict error handling unless the environment says otherwise: a
      file name holding bytes that are not UTF-8 cannot. *)
  encodable : string -> bool;
  (** [Path.stat().st_size]; [None] stands for [OSError]. *)
  st_size : path -> option Z;
  (** The chunks returned by the successive [f.read(buffer_size)] calls up to
      the first empty one; [None] when [open] or a [read] raises [OSError]. *)
  read_chunks : path -> Z -> option (list (list Byte.byte))
}.

Record hashlib : Type := {
  sha256_state : Type;
  sha256_new : sha256_state;
  sha256_update : sha256_state -> list Byte.byte -> sha256_state;
  sha256_hexdigest : sha256_state -> string
}.

(* ====================================================================== *)
(** ** The scan *)

Record group : Type := mk_group {
  file_size : Z;
  files : list path
}.

(** The mutable locals of [run_scan] during the scan, together with what the
    scan did: the paths handed to [compute_file_hash] and the progress lines
    written to standard output. *)
Record scan_state : Type := mk_state {
  processed_count : Z;
  duplicates : list group;
  hasher_calls : list path;
  stdout : list progress_line
}.

Record totals : Type := mk_totals {
  total_files : Z;
  total_wasted_bytes : Z
}.

Record scan_report : Type := mk_report {
  reported_groups : list group;
  reported_totals : totals
}.

(** Python's [len]. *)
Definition len {A : Type} (l : list A) : Z := Z.of_nat (List.length l).

(** Truth value of a string: [if h:]. *)
Definition truthy (h : string) : bool := negb (String.eqb h "")%string.

Section Scan.
Variable os : os_world.
Variable sha : hashlib.

Definition buffer_size : Z := 8192.

(** Lines 54-69.  The warning goes to standard error. *)
Definition compute_file_hash (p : path) : string :=
  match read_chunks os p buffer_size with
  | Some chunks =>
      sha256_hexdigest sha (fold_left (sha256_update sha) chunks (sha256_new sha))
  | None => ""%string
  end.

(** Lines 124-129: one iteration of the size partition. *)
Definition size_step (files_by_size : DefaultDict.t Z path) (filepath : path)
  : DefaultDict.t Z path :=
  match st_size os filepath with
  | Some size => DefaultDict.append Z.eqb size filepath files_by_size
  | None => files_by_size
  end.

Definition group_by_size (all_files : list path) : DefaultDict.t Z path :=
  fold_left size_step all_files [].

(** Line 148. *)
Definition unique_sized_files_count (files_by_size : DefaultDict.t Z path) : Z :=
  len (filter (fun paths : list path => len paths <? 2)
              (DefaultDict.values files_by_size)).

(** Lines 171-177: one iteration of the hashing loop. *)
Definition hash_step (total_count : Z)
    (acc : DefaultDict.t string path * scan_state) (p : path)
  : result (DefaultDict.t string path * scan_state) :=
  let '(files_by_hash, st) := acc in
  let h := compute_file_hash p in
  let processed := processed_count st + 1 in
  line <- print_progress_bar processed total_count default_bar_length ;;
  let st' := mk_state processed (duplicates st)
                      (hasher_calls st ++ [p]) (stdout st ++ [line]) in
  Return (if truthy h then DefaultDict.append String.eqb h p files_by_hash
          else files_by_hash,
          st').

(** Lines 179-184. *)
Definition emit_step (size : Z) (dups : list group) (item : string * list path)
  : list group :=
  let '(_, final_paths) := item in
  if 1 <? len final_paths then dups ++ [mk_group size final_paths] else dups.

Definition emit_groups (size : Z) (files_by_hash : DefaultDict.t string path)
    (dups : list group) : list group :=
  fold_left (emit_step size) files_by_hash dups.

(** Lines 170-184: hashing of one size group. *)
Definition hash_pass (total_count size : Z) (paths : list path) (st : scan_state)
  : result scan_state :=
  acc <- for_each (hash_step total_count) paths ([], st) ;;
  let '(files_by_hash, st') := acc in
  Return (mk_state (processed_count st')
                   (emit_groups size files_by_hash (duplicates st'))
                   (hasher_calls st') (stdout st')).

(** Lines 156-184: the body of the loop over [files_by_size.items()]. *)
Definition scan_size_group (total_count : Z) (st : scan_state)
    (item : Z * list path) : result scan_state :=
  let '(size, paths) := item in
  if len paths <? 2 then Return st
  else if size =? 0 then
    let dups := duplicates st ++ [mk_group 0 paths] in
    let processed := processed_count st + len paths in
    line <- print_progress_bar processed total_count default_bar_length ;;
    Return (mk_state processed dups (hasher_calls st) (stdout st ++ [line]))
  else hash_pass total_count size paths st.

(** Lines 107-184: from the enumerated files to the duplicate groups.  With
    no file at all [run_scan] returns before it counts anything. *)
Definition detect (all_files : list path) : result scan_state :=
  let total_count := len all_files in
  if total_count =? 0 then Return (mk_state 0 [] [] [])
  else
    let files_by_size := group_by_size all_files in
    let processed := unique_sized_files_count files_by_size in
    line <- print_progress_bar processed total_count default_bar_length ;;
    for_each (scan_size_group total_count) files_by_size
             (mk_state processed [] [] [line]).

(** Lines 199-227: the totals of the report. *)
Definition report_step (t : totals) (g : group) : totals :=
  let count := len (files g) in
  if count =? 0 then t
  else mk_totals (total_files t + count)
                 (total_wasted_bytes t + (count - 1) * file_size g).

Definition report (dups : list group) : scan_report :=
  mk_report dups (fold_left report_step dups (mk_totals 0 0)).

(** *** What the loop computes, group by group

    These functions are not in the source: they name the groups that one
    size group contributes to [duplicates], and the files of it that are
    handed to [compute_file_hash]. *)

(** The key under which the hashing loop files a path. *)
Definition hash_key (p : path) : option string :=
  let h := compute_file_hash p in
  if truthy h then Some h else None.

Definition group_by_hash (paths : list path) : DefaultDict.t string path :=
  fold_left (DefaultDict.group_step String.eqb hash_key) paths [].

Definition confirmed (size : Z) (paths : list path) : list group :=
  emit_groups size (group_by_hash paths) [].

Definition emitted (item : Z * list path) : list group :=
  let '(size, paths) := item in
  if len paths <? 2 then []
  else if size =? 0 then [mk_group 0 paths]
  else confirmed size paths.

Definition hashed_of (item : Z * list path) : list path :=
  let '(size, paths) := item in
  if len paths <? 2 then []
  else if size =? 0 then []
  else paths.

(** Progress units one size group adds inside the loop. *)
Definition cost (item : Z * list path) : Z :=
  if len (snd item) <? 2 then 0 else len (snd item).

Definition loop_cost (items : list (Z * list path)) : Z :=
  fold_right (fun item acc => cost item + acc) 0 items.

(** Files whose size could be read, and files of size zero. *)
Definition has_size (p : path) : bool :=
  match st_size os p with Some _ => true | None => false end.

Definition zero_byte (p : path) : bool :=
  match st_size os p with Some s => s =? 0 | None => false end.

(** Equal size and equal digest, both obtained: the size was read, and
    either it is zero (empty files are identical without hashing) or the
    hash computation succeeded on both files with the same result. *)
Definition same_size_and_digest (f1 f2 : path) : Prop :=
  exists size,
    st_size os f1 = Some size /\ st_size os f2 = Some size
    /\ (size = 0
        \/ (compute_file_hash f1 <> ""%string
            /\ compute_file_hash f1 = compute_file_hash f2)).

(** *** Enumeration (lines 95-105) *)

(** [entry.is_dir()] inside [os.walk]: symbolic links are followed, and an
    entry that cannot be examined counts as a non-directory. *)
Definition walk_is_dir (e : entry) : bool :=
  match e with
  | Directory _ | LockedDirectory => true
  | Symlink to_directory => to_directory
  | _ => false
  end.

(** [Path.is_symlink()] *)
Definition is_symlink (e : entry) : result bool :=
  match e with
  | Symlink _ => Return true
  | Unreadable => Raise OSError
  | _ => Return false
  end.

(** The third component of what [os.walk] yields for one directory. *)
Definition walk_files (children : list (string * entry)) : list (string * entry) :=
  filter (fun c => negb (walk_is_dir (snd c))) children.

(** [os.walk(top)], top-down, not following links; errors of [scandir] are
    ignored, which is the default: a directory that cannot be listed yields
    nothing.  On the CPython versions where [os.walk] recurses, a tree
    nested deeper than the interpreter's recursion limit makes it raise
    [RecursionError]; the walk is modelled within that limit (see
    [within_recursion_limit]). *)
Fixpoint os_walk (top : path) (e : entry) : list (path * list (string * entry)) :=
  match e with
  | Directory children =>
      (top, walk_files children)
        :: flat_map (fun c => os_walk (top ++ [fst c]) (snd c)) children
  | _ => []
  end.

(** Lines 98-102. *)
Definition collect_step (root : path) (all_files : list path) (f : string * entry)
  : result (list path) :=
  let filepath := root ++ [fst f] in
  link <- is_symlink (snd f) ;;
  Return (if negb link then all_files ++ [filepath] else all_files).

Definition collect_dir (all_files : list path) (y : path * list (string * entry))
  : result (list path) :=
  for_each (collect_step (fst y)) (snd y) all_files.

(** Lines 97-102: the body of the [try]. *)
Definition traversal (target_dir : entry) : result (list path) :=
  for_each collect_dir (os_walk [] target_dir) [].

(** Lines 95-105. *)
Definition enumerate (target_dir : entry) : result (list path) :=
  try_except_Exception (traversal target_dir) (fun _ => sys_exit 1).

End Scan.

(** Wasted space as the specification words it: the sum over the groups of
    [(memberCount - 1) * size]. *)
Definition wasted_sum (dups : list group) : Z :=
  fold_right (fun g acc => (len (files g) - 1) * file_size g + acc) 0 dups.

(** Two files reported in one group. *)
Definition together (dups : list group) (f1 f2 : path) : Prop :=
  exists g, In g dups /\ In f1 (files g) /\ In f2 (files g).

(** A group whose representative size is zero. *)
Definition is_zero_group (g : group) : bool := file_size g =? 0.

(** Two groups with no file in common. *)
Definition disjoint_groups (g1 g2 : group) : Prop :=
  forall p, In p (files g1) -> In p (files g2) -> False.

(** [entry_at root p e]: following the names of [p] from the directory
    [root] leads to the entry [e]. *)
Inductive entry_at : entry -> path -> entry -> Prop :=
| at_child (children : list (string * entry)) (name : string) (e : entry) :
    In (name, e) children -> entry_at (Directory children) [name] e
| at_below (children : list (string * entry)) (name : string) (d : entry)
           (rest : path) (e : entry) :
    In (name, d) children -> entry_at d rest e ->
    entry_at (Directory children) (name :: rest) e.

(** ** A small file system, for concrete runs

    [demo/] holds two copies of a one-byte file and a third one-byte file
    with other content, two empty files, a file that cannot be opened, a
    file that disappears before its size is read, a symbolic link and a
    subdirectory with a third copy.  Beside it are a directory with an entry
    that cannot be examined, a directory that cannot be listed, a path that
    cannot be examined at all, and two files with the same two bytes that
    are read in one piece and in two. *)

Module Demo.

Definition sha : hashlib := {|
  sha256_state := list Byte.byte;
  sha256_new := [];
  sha256_update := fun st chunk => st ++ chunk;
  sha256_hexdigest := fun st => String "#" (string_of_list_byte st)
|}.

Definition a : path := ["a.txt"%string].
Definition b : path := ["b.txt"%string].
Definition c : path := ["c.txt"%string].
Definition empty1 : path := ["empty1"%string].
Definition empty2 : path := ["empty2"%string].
Definition locked : path := ["locked"%string].
Definition gone : path := ["gone"%string].
Definition copy : path := ["sub"%string; "copy.txt"%string].
Definition whole : path := ["whole"%string].
Definition pieces : path := ["pieces"%string].

Definition path_eqb (p q : path) : bool :=
  if list_eq_dec string_dec p q then true else false.

Definition tree : entry :=
  Directory [("a.txt"%string, RegularFile); ("b.txt"%string, RegularFile);
             ("c.txt"%string, RegularFile); ("empty1"%string, RegularFile);
             ("empty2"%string, RegularFile); ("locked"%string, RegularFile);
             ("gone"%string, RegularFile); ("link"%string, Symlink false);
             ("sub"%string, Directory [("copy.txt"%string, RegularFile)])].

Definition os : os_world := {|
  resolve := fun d =>
    if String.eqb d "demo" then Found tree
    else if String.eqb d "demo/a.txt" then Found RegularFile
    else if String.eqb d "closed" then Found (Directory [("x"%string, Unreadable)])
    else if String.eqb d "sealed" then Found LockedDirectory
    else if String.eqb d "private/demo" then Inaccessible
    else Missing;
  target_text := fun d => String.append "/srv/" d;
  encodable := fun _ => true;
  st_size := fun p =>
    if path_eqb p gone then None
    else if path_eqb p empty1 || path_eqb p empty2 then Some 0
    else Some 1;
  read_chunks := fun p _ =>
    if path_eqb p locked then None
    else if path_eqb p c then Some [[Byte.x59]]
    else if path_eqb p whole then Some [[Byte.x58; Byte.x59]]
    else if path_eqb p pieces then Some [[Byte.x58]; [Byte.x59]]
    else Some [[Byte.x58]]
|}.

Definition all_files : list path := [a; b; c; empty1; empty2; locked; gone; copy].

End Demo.

(** The exit status of the interpreter: the code of [SystemExit], 1 for any
    other uncaught exception. *)
Definition exit_status (r : result unit) : Z :=
  match r with
  | Raise (SystemExit code) => code
  | Raise _ => 1
  | Return _ => 0
  end.

(* ====================================================================== *)
(** ** Declarative views of the scan

    These definitions are not in the source: they say, with filters over the
    enumerated files, what the dictionaries of [run_scan] hold. *)

(** The distinct elements of a list, in order of first appearance. *)
Fixpoint first_seen {K : Type} (eqb : K -> K -> bool) (ks : list K) : list K :=
  match ks with
  | [] => []
  | k :: ks' => k :: filter (fun k' => negb (eqb k' k)) (first_seen eqb ks')
  end.

(** The keys of the elements that have one, in order. *)
Definition key_list {K V : Type} (key : V -> option K) (xs : list V) : list K :=
  flat_map (fun x => match key x with Some k => [k] | None => [] end) xs.

(** Files whose size was read as [size]. *)
Definition size_is (os : os_world) (size : Z) (p : path) : bool :=
  match st_size os p with Some s => s =? size | None => false end.

(** Files whose hash was computed as [h]. *)
Definition digest_is (os : os_world) (sha : hashlib) (h : string) (p : path) : bool :=
  String.eqb (compute_file_hash os sha p) h.

(** The groups of one size group, by digest in order of first appearance. *)
Definition expected_confirmed (os : os_world) (sha : hashlib) (size : Z)
    (paths : list path) : list group :=
  flat_map
    (fun h =>
       let members := filter (digest_is os sha h) paths in
       if 1 <? len members then [mk_group size members] else [])
    (first_seen String.eqb (key_list (hash_key os sha) paths)).

(** The duplicate groups, by size in order of first appearance. *)
Definition expected_groups (os : os_world) (sha : hashlib) (all_files : list path)
  : list group :=
  flat_map
    (fun size =>
       let paths := filter (size_is os size) all_files in
       if len paths <? 2 then []
       else if size =? 0 then [mk_group 0 paths]
       else expected_confirmed os sha size paths)
    (first_seen Z.eqb (key_list (st_size os) all_files)).

(** A progress line as [print_progress_bar] writes it for a given total. *)
Definition rendered (total : Z) (line : progress_line) : Prop :=
  print_progress_bar (shown_current line) total default_bar_length = Return line.

(** The progress lines written so far: strictly increasing counts, none
    negative, each one rendered for [total], the last one showing the
    current processed count. *)
Definition progress_trace_ok (total : Z) (st : scan_state) : Prop :=
  StronglySorted Z.lt (map shown_current (stdout st))
  /\ Forall (fun line => 0 <= shown_current line /\ rendered total line) (stdout st)
  /\ exists pre line,
       stdout st = pre ++ [line] /\ shown_current line = processed_count st.

(** A tree in which the entries of every directory have distinct names, as
    on a real file system. *)
Inductive unique_names : entry -> Prop :=
| unique_regular : unique_names RegularFile
| unique_special : unique_names SpecialFile
| unique_symlink (to_directory : bool) : unique_names (Symlink to_directory)
| unique_unreadable : unique_names Unreadable
| unique_locked : unique_names LockedDirectory
| unique_directory (children : list (string * entry)) :
    NoDup (map fst children) ->
    (forall name c, In (name, c) children -> unique_names c) ->
    unique_names (Directory children).

(** The paths collected in one directory visited by [os.walk], when no
    [is_symlink] raises. *)
Definition collected (y : path * list (string * entry)) : list path :=
  map (fun f => fst y ++ [fst f])
      (filter (fun f => match is_symlink (snd f) with
                        | Return false => true
                        | _ => false
                        end) (snd y)).

(** [hashlib]'s contract for [update]: feeding the data piece by piece is
    feeding the concatenation. *)
Definition streaming (sha : hashlib) : Prop :=
  (forall st, sha256_update sha st [] = st)
  /\ (forall st a b,
        sha256_update sha (sha256_update sha st a) b = sha256_update sha st (a ++ b)).

(** Number of files over all groups. *)
Definition members_sum (dups : list group) : Z :=
  fold_right (fun g acc => len (files g) + acc) 0 dups.

(* ====================================================================== *)
(** ** [format_size] *)

Module PyFormat.
Import PyFloat.

(** [x >= n] for a float [x] and an integer [n]: Python compares the exact
    values. *)
Definition ge_int (x : t) (n : Z) : bool :=
  match x with
  | Finite m e => n * 2 ^ Z.max 0 (- e) <=? m * 2 ^ Z.max 0 e
  | Infinity negative => negb negative
  | NaN => false
  end.

(** [x / y] on floats: a zero divisor raises, an overflow gives an
    infinity. *)
Definition div (x y : t) : result t :=
  if is_zero y then Raise ZeroDivisionError
  else
    match x, y with
    | Finite m1 e1, Finite m2 e2 =>
        let '(n, d) := scale m1 m2 (- (e1 - e2)) in
        Return (if d <? 0 then round_double (- n) (- d) else round_double n d)
    | NaN, _ | _, NaN => Return NaN
    | Infinity s, Finite m _ => Return (Infinity (xorb s (m <? 0)))
    | Finite _ _, Infinity _ => Return (Finite 0 0)
    | Infinity _, Infinity _ => Return NaN
    end.

(** [str(n)] for an integer. *)
Definition str (n : Z) : string := NilZero.string_of_int (Z.to_int n).

(** The digits of [h / 100] with two decimals. *)
Definition two_decimals (h : Z) : string :=
  let whole := str (h / 100) in
  let pad := if h mod 100 <? 10 then "0"%string else ""%string in
  let cents := str (h mod 100) in
  (whole ++ "." ++ pad ++ cents)%string.

(** [f"{x:.2f}"]: the exact value of [x] rounded to two decimals, ties to
    even. *)
Definition format_2f (x : t) : string :=
  match x with
  | Finite m e =>
      let sign := if m <? 0 then "-"%string else ""%string in
      let hundredths := rne (Z.abs m * 100 * 2 ^ Z.max 0 e) (2 ^ Z.max 0 (- e)) in
      (sign ++ two_decimals hundredths)%string
  | Infinity negative => if negative then "-inf"%string else "inf"%string
  | NaN => "nan"%string
  end.

(** The double that holds the integer [n], [n < 2^53], divided [j] times by
    1024: the mantissa is [n] shifted to 53 bits. *)
Definition shifted (n j : Z) : t :=
  Finite (n * 2 ^ (52 - Z.log2 n)) (- (52 - Z.log2 n + 10 * j)).

End PyFormat.

Definition units : list string := ["B"; "KB"; "MB"; "GB"; "TB"]%string.

(** Lines 44-46: [while s >= 1024 and i < 4: s /= 1024; i += 1].  The loop
    body runs at most four times, since [i] starts at 0; [fuel] counts the
    iterations still allowed. *)
Fixpoint size_loop (fuel : nat) (s : PyFloat.t) (i : Z) : result (PyFloat.t * Z) :=
  match fuel with
  | O => Return (s, i)
  | S fuel' =>
      if PyFormat.ge_int s 1024 && (i <? 4) then
        k <- PyFloat.of_int 1024 ;;
        s' <- PyFormat.div s k ;;
        size_loop fuel' s' (i + 1)
      else Return (s, i)
  end.

(** Lines 39-52. *)
Definition format_size (size_bytes : Z) : result string :=
  s0 <- PyFloat.of_int size_bytes ;;
  si <- size_loop 4 s0 0 ;;
  let '(s, i) := si in
  let unit := nth (Z.to_nat i) units ""%string in
  if i =? 0 then
    n <- PyFloat.to_int s ;;
    Return (String.append (PyFormat.str n) (String.append " " unit))
  else Return (String.append (PyFormat.format_2f s) (String.append " " unit)).

(** The unit a size is shown in: the number of powers of 1024 that it
    reaches, at most four. *)
Definition unit_index (n : Z) : Z :=
  if n <? 1024 then 0
  else if n <? 1024 ^ 2 then 1
  else if n <? 1024 ^ 3 then 2
  else if n <? 1024 ^ 4 then 3
  else 4.

(* ====================================================================== *)
(** ** The listing of the report (lines 202-224) *)

Inductive color : Type := GREEN | RED.

(** One printed file line: the prefix closes the group on the last line. *)
Record listed_file : Type := mk_listed {
  closing : bool;
  file_color : color;
  listed_path : path
}.

(** What is printed for one group: the header with the representative name
    and the count, the file lines, and the tip naming the file to keep. *)
Record block : Type := mk_block {
  rep_name : string;
  shown_count : Z;
  listed : list listed_file;
  tip_name : string
}.

(** [Path.name]: the final component. *)
Definition path_name (p : path) : string := last p ""%string.

(** [enumerate(l)], counting from [start]. *)
Fixpoint enumerate_from {A : Type} (start : Z) (l : list A) : list (Z * A) :=
  match l with
  | [] => []
  | x :: l' => (start, x) :: enumerate_from (start + 1) l'
  end.

(** Lines 214-220. *)
Definition list_files (fs : list path) : list listed_file :=
  let count := len fs in
  map (fun ix : Z * path =>
         let '(i, fpath) := ix in
         let is_last := i =? count - 1 in
         mk_listed is_last (if i =? 0 then GREEN else RED) fpath)
      (enumerate_from 0 fs).

(** Lines 203-224 for one group; a group without files is skipped. *)
Definition print_group (g : group) : list block :=
  let count := len (files g) in
  if count =? 0 then []
  else
    match files g with
    | first :: _ =>
        [mk_block (path_name first) count (list_files (files g)) (path_name first)]
    | [] => []
    end.

Definition listing (dups : list group) : list block := flat_map print_group dups.

(** The paths printed in red in a block. *)
Definition red_paths (b : block) : list path :=
  map listed_path
      (filter (fun l => match file_color l with RED => true | GREEN => false end)
              (listed b)).

(** The size of a file, 0 when it cannot be read. *)
Definition size_of (os : os_world) (p : path) : Z :=
  match st_size os p with Some s => s | None => 0 end.

Definition sum_sizes (os : os_world) (ps : list path) : Z :=
  fold_right (fun p acc => size_of os p + acc) 0 ps.

(** Progress lines written, less one per hasher call and one per group of
    empty files emitted. *)
Definition line_balance (st : scan_state) : Z :=
  len (stdout st) - len (hasher_calls st) - len (filter is_zero_group (duplicates st)).

(* ====================================================================== *)
(** ** [run_scan] and [main] *)

(** [Path.is_dir()] on the resolved target; [resolve()] has followed the
    symbolic links, so that the target is not one. *)
Definition is_dir (e : entry) : bool :=
  match e with
  | Directory _ | LockedDirectory => true
  | _ => false
  end.

(** Levels of directories in a tree. *)
Fixpoint depth (e : entry) : nat :=
  match e with
  | Directory children => S (list_max (map (fun c => depth (snd c)) children))
  | _ => O
  end.

(** A tree that [os.walk] descends without coming near the recursion limit
    of the interpreter (1000 frames unless changed). *)
Definition within_recursion_limit (e : entry) : Prop := (depth e <= 500)%nat.

(** The names that the lines of a block show. *)
Definition block_names (b : block) : list string :=
  rep_name b :: tip_name b :: flat_map listed_path (listed b).

Section Program.
Variable os : os_world.
Variable sha : hashlib.

(** [print(...)] of a line that shows [names].  The fixed parts of the
    program's messages can always be encoded; a name that cannot makes
    [print] raise.  Messages for the standard error never fail in this way,
    since its error handler escapes what it cannot encode. *)
Definition print_stdout (names : list string) : result unit :=
  if forallb (encodable os) names then Return tt else Raise UnicodeEncodeError.

(** Lines 212-224 for one block: the header, one line for each file, the
    tip.  The printed path of a file starts with the text of the scanned
    directory. *)
Definition print_block (target : string) (b : block) : result unit :=
  _ <- print_stdout [rep_name b] ;;
  _ <- for_each (fun _ l => print_stdout (target :: listed_path l)) (listed b) tt ;;
  print_stdout [tip_name b].

(** Lines 229-232: the totals are shown when there is a group. *)
Definition print_totals (dups : list group) (t : totals) : result unit :=
  match dups with
  | [] => Return tt
  | _ :: _ =>
      _ <- format_size (total_wasted_bytes t) ;;
      Return tt
  end.

(** Lines 192-237: the listing, then the totals, then the fixed footer. *)
Definition print_report (target : string) (dups : list group) : result scan_report :=
  _ <- for_each (fun _ b => print_block target b) (listing dups) tt ;;
  let r := report dups in
  _ <- print_totals dups (reported_totals r) ;;
  Return r.

(** Lines 86-237.  The value returned is the report that was printed.  With
    no file at all, lines 107-113 print fixed text and return, which is what
    the report of no group does. *)
Definition run_scan (directory_path : string) : result scan_report :=
  match resolve os directory_path with
  | Found target_dir =>
      if is_dir target_dir then
        let target := target_text os directory_path in
        _ <- print_stdout [target] ;;
        all_files <- enumerate target_dir ;;
        st <- detect os sha all_files ;;
        print_report target (duplicates st)
      else sys_exit 1
  | Missing => sys_exit 1
  | Inaccessible => Raise OSError
  end.

(** Lines 243-254: the program name is shown twice among fixed text. *)
Definition print_help (prog_name : string) : result unit :=
  print_stdout [prog_name; prog_name].

(** Lines 259-281; [argv] is [sys.argv]. *)
Definition main (argv : list string) : result unit :=
  match argv with
  | [] => Raise IndexError
  | [prog] =>
      _ <- print_help prog ;;
      sys_exit 1
  | prog :: arg1 :: rest =>
      if String.eqb arg1 "--help"%string || String.eqb arg1 "-h"%string then
        _ <- print_help prog ;;
        sys_exit 0
      else if String.eqb arg1 "scan"%string then
        match rest with
        | [] =>
            _ <- print_stdout [prog] ;;
            sys_exit 1
        | directory_path :: _ =>
            _ <- run_scan directory_path ;;
            sys_exit 0
        end
      else
        _ <- print_help prog ;;
        sys_exit 1
  end.

End Program.

(** The scan of [directory_path] goes through: the path can be examined and
    designates a directory, its text can be written, every entry below it
    that is not a directory can be examined, every name in the listing of
    the duplicate groups can be written, and the wasted space, when there is
    a group, fits a float. *)
Definition scan_succeeds (os : os_world) (sha : hashlib) (directory_path : string)
  : Prop :=
  exists target_dir,
    resolve os directory_path = Found target_dir
    /\ is_dir target_dir = true
    /\ encodable os (target_text os directory_path) = true
    /\ (forall p, ~ entry_at target_dir p Unreadable)
    /\ let dups := expected_groups os sha (flat_map collected (os_walk [] target_dir)) in
       (forall b name,
           In b (listing dups) -> In name (block_names b) -> encodable os name = true)
       /\ (dups <> [] -> exists text, format_size (wasted_sum dups) = Return text).

(* ====================================================================== *)
(** * Properties *)

Unset Implicit Arguments.

(** ** Rounding to a double *)

Module PyFloatFacts.
Import PyFloat.

Lemma pow2_pos (k : Z) : 0 < 2 ^ Z.max 0 k.
Proof. apply Z.pow_pos_nonneg; lia. Qed.

(** [2^k] is [2^max(0,k) / 2^max(0,-k)]. *)
Lemma pow2_shift (k c : Z) :
  0 <= c -> 0 <= c + k ->
  2 ^ Z.max 0 k * 2 ^ c = 2 ^ Z.max 0 (- k) * 2 ^ (c + k).
Proof.
  intros Hc Hck.
  destruct (Z.le_gt_cases 0 k) as [Hk | Hk].
  - rewrite (Z.max_r 0 k), (Z.max_l 0 (- k)) by lia.
    rewrite Z.pow_0_r, Z.mul_1_l, <- Z.pow_add_r by lia. f_equal; lia.
  - rewrite (Z.max_l 0 k), (Z.max_r 0 (- k)) by lia.
    rewrite Z.pow_0_r, Z.mul_1_l, <- Z.pow_add_r by lia. f_equal; lia.
Qed.

Lemma below_iff (n d k c : Z) :
  0 <= c -> 0 <= c + k -> (below n d k <-> n * 2 ^ c < d * 2 ^ (c + k)).
Proof.
  intros Hc Hck. unfold below, scale; simpl.
  pose proof (pow2_shift k c Hc Hck) as E.
  pose proof (pow2_pos k) as Hp. pose proof (pow2_pos (- k)) as Hn.
  assert (0 < 2 ^ c) by (apply Z.pow_pos_nonneg; lia).
  assert (0 < 2 ^ (c + k)) by (apply Z.pow_pos_nonneg; lia).
  split; intros H1.
  - apply (Z.mul_lt_mono_pos_l (2 ^ Z.max 0 (- k))); [lia|].
    replace (2 ^ Z.max 0 (- k) * (d * 2 ^ (c + k)))
      with (d * 2 ^ Z.max 0 k * 2 ^ c) by (rewrite <- Z.mul_assoc, E; ring).
    replace (2 ^ Z.max 0 (- k) * (n * 2 ^ c))
      with (n * 2 ^ Z.max 0 (- k) * 2 ^ c) by ring.
    apply Z.mul_lt_mono_pos_r; lia.
  - apply (Z.mul_lt_mono_pos_r (2 ^ c)); [lia|].
    replace (d * 2 ^ Z.max 0 k * 2 ^ c)
      with (2 ^ Z.max 0 (- k) * (d * 2 ^ (c + k))) by (rewrite <- Z.mul_assoc, E; ring).
    replace (n * 2 ^ Z.max 0 (- k) * 2 ^ c)
      with (2 ^ Z.max 0 (- k) * (n * 2 ^ c)) by ring.
    apply Z.mul_lt_mono_pos_l; lia.
Qed.

Lemma at_least_iff_not_below (n d k : Z) : at_least n d k <-> ~ below n d k.
Proof. unfold at_least, below. lia. Qed.

Lemma below_mono (n d k k' : Z) :
  0 < d -> k <= k' -> below n d k -> below n d k'.
Proof.
  intros Hd Hk H.
  set (c := Z.abs k + Z.abs k').
  apply (below_iff n d k (c)) in H; try lia.
  apply (below_iff n d k' (c)); try lia.
  eapply Z.lt_le_trans; [exact H|].
  apply Z.mul_le_mono_nonneg_l; [lia|].
  apply Z.pow_le_mono_r; lia.
Qed.

Lemma log2_below (n d : Z) :
  0 < n -> 0 < d -> below n d (Z.log2 n - Z.log2 d + 1).
Proof.
  intros Hn Hd.
  pose proof (Z.log2_spec n Hn) as [_ Hn2].
  pose proof (Z.log2_spec d Hd) as [Hd1 _].
  pose proof (Z.log2_nonneg n). pose proof (Z.log2_nonneg d).
  apply (below_iff n d _ (Z.log2 d)); try lia.
  replace (Z.log2 d + (Z.log2 n - Z.log2 d + 1)) with (Z.succ (Z.log2 n)) by lia.
  assert (0 < 2 ^ Z.log2 d) by (apply Z.pow_pos_nonneg; lia).
  assert (0 < 2 ^ Z.succ (Z.log2 n)) by (apply Z.pow_pos_nonneg; lia).
  nia.
Qed.

Lemma log2_at_least (n d : Z) :
  0 < n -> 0 < d -> at_least n d (Z.log2 n - Z.log2 d - 1).
Proof.
  intros Hn Hd. apply at_least_iff_not_below. intros H.
  pose proof (Z.log2_spec n Hn) as [Hn1 _].
  pose proof (Z.log2_spec d Hd) as [_ Hd2].
  pose proof (Z.log2_nonneg n). pose proof (Z.log2_nonneg d).
  apply (below_iff n d _ (Z.succ (Z.log2 d))) in H; try lia.
  replace (Z.succ (Z.log2 d) + (Z.log2 n - Z.log2 d - 1)) with (Z.log2 n) in H by lia.
  assert (0 < 2 ^ Z.log2 n) by (apply Z.pow_pos_nonneg; lia).
  nia.
Qed.

Lemma floor_log2_below (n d : Z) :
  0 < n -> 0 < d -> below n d (floor_log2 n d + 1).
Proof.
  intros Hn Hd. unfold floor_log2.
  destruct (scale n d (Z.log2 n - Z.log2 d)) as [a b] eqn:E.
  destruct (b <=? a) eqn:T.
  - now apply log2_below.
  - replace (Z.log2 n - Z.log2 d - 1 + 1) with (Z.log2 n - Z.log2 d) by lia.
    unfold below. rewrite E. simpl. apply Z.leb_gt in T. exact T.
Qed.

Lemma floor_log2_at_least (n d : Z) :
  0 < n -> 0 < d -> at_least n d (floor_log2 n d).
Proof.
  intros Hn Hd. unfold floor_log2.
  destruct (scale n d (Z.log2 n - Z.log2 d)) as [a b] eqn:E.
  destruct (b <=? a) eqn:T.
  - unfold at_least. rewrite E. simpl. now apply Z.leb_le.
  - now apply log2_at_least.
Qed.

Lemma floor_log2_lt (n d k : Z) :
  0 < n -> 0 < d -> below n d k -> floor_log2 n d < k.
Proof.
  intros Hn Hd H.
  destruct (Z.lt_ge_cases (floor_log2 n d) k) as [|Hge]; [assumption|exfalso].
  pose proof (floor_log2_at_least n d Hn Hd) as Ha.
  apply at_least_iff_not_below in Ha. apply Ha.
  now apply (below_mono n d k (floor_log2 n d)).
Qed.

Lemma rne_bounds (a b : Z) : 0 < b -> a / b <= rne a b <= a / b + 1.
Proof.
  intros Hb. unfold rne.
  destruct (2 * (a mod b) <? b); [lia|].
  destruct (b <? 2 * (a mod b)); [lia|].
  destruct (Z.even (a / b)); lia.
Qed.

(** A positive fraction below [2^k], [k <= 1023], rounds to a finite double
    whose mantissa has at most 53 bits and whose exponent is at most
    [k - 53]. *)
Lemma round_double_finite (n d k : Z) :
  0 < n -> 0 < d -> below n d k -> k <= 1023 ->
  exists m e, round_double n d = Finite m e
              /\ 0 <= m <= 2 ^ 53 /\ e <= Z.max emin (k - 53).
Proof.
  intros Hn Hd Hk Hk'.
  unfold round_double. rewrite (proj2 (Z.eqb_neq n 0)) by lia.
  rewrite (Z.abs_eq n) by lia.
  pose proof (floor_log2_lt n d k Hn Hd Hk) as Hfl.
  pose proof (floor_log2_below n d Hn Hd) as Hb.
  set (e := exponent n d).
  assert (He : e <= Z.max emin (k - 53)) by (unfold e, exponent, emin in *; lia).
  assert (He' : floor_log2 n d + 1 <= e + 53) by (unfold e, exponent; lia).
  apply (below_mono n d _ (e + 53) Hd He') in Hb.
  destruct (scale n d e) as [a b] eqn:E.
  assert (Hsc : 0 < b /\ 0 <= a /\ a < 2 ^ 53 * b).
  { unfold scale in E. inversion E; subst a b; clear E.
    pose proof (pow2_pos e). pose proof (pow2_pos (- e)).
    split; [nia|]. split; [nia|].
    set (c := Z.abs e + 53).
    apply (below_iff n d _ (c)) in Hb; try lia.
    pose proof (pow2_shift e c ltac:(lia) ltac:(lia)) as S.
    replace (c + (e + 53)) with ((c + e) + 53) in Hb by lia.
    rewrite Z.pow_add_r in Hb by lia.
    assert (0 < 2 ^ c) by (apply Z.pow_pos_nonneg; lia).
    assert (0 < 2 ^ (c + e)) by (apply Z.pow_pos_nonneg; lia).
    apply (Z.mul_lt_mono_pos_r (2 ^ c)); [lia|].
    replace (2 ^ 53 * (d * 2 ^ Z.max 0 e) * 2 ^ c)
      with (2 ^ 53 * d * (2 ^ Z.max 0 e * 2 ^ c)) by ring.
    rewrite S.
    replace (n * 2 ^ Z.max 0 (- e) * 2 ^ c) with (2 ^ Z.max 0 (- e) * (n * 2 ^ c)) by ring.
    replace (2 ^ 53 * d * (2 ^ Z.max 0 (- e) * 2 ^ (c + e)))
      with (2 ^ Z.max 0 (- e) * (d * (2 ^ (c + e) * 2 ^ 53))) by ring.
    apply Z.mul_lt_mono_pos_l; lia. }
  destruct Hsc as (Hb0 & Ha0 & Hab).
  pose proof (rne_bounds a b Hb0) as [R1 R2].
  assert (0 <= a / b) by (apply Z.div_pos; lia).
  assert (a / b < 2 ^ 53) by (apply Z.div_lt_upper_bound; lia).
  assert (Hm : 0 <= rne a b <= 2 ^ 53) by lia.
  exists (rne a b), e.
  assert (Hov : overflows (rne a b) e = false).
  { unfold overflows. destruct (0 <=? e) eqn:Z0; [|reflexivity]. simpl.
    apply Z.leb_le in Z0. apply Z.leb_gt.
    rewrite Z.abs_eq by lia.
    assert (e <= 970) by (unfold emin in He; lia).
    assert (2 ^ e <= 2 ^ 970) by (apply Z.pow_le_mono_r; lia).
    assert (0 < 2 ^ e) by (apply Z.pow_pos_nonneg; lia).
    apply Z.le_lt_trans with (2 ^ 53 * 2 ^ 970); [|reflexivity].
    apply Z.mul_le_mono_nonneg; lia. }
  rewrite Hov. auto.
Qed.


Lemma true_divide_le (current total : Z) :
  0 < current <= total ->
  exists m e, true_divide current total = Return (Finite m e)
              /\ 0 <= m <= 2 ^ 53 /\ e <= -52.
Proof.
  intros H. unfold true_divide.
  rewrite (proj2 (Z.eqb_neq total 0)), (proj2 (Z.ltb_ge total 0)) by lia.
  destruct (round_double_finite current total 1) as (m & e & E & Hm & He); try lia.
  - unfold below, scale; simpl. lia.
  - exists m, e. rewrite E. simpl. unfold emin in He. repeat split; lia.
Qed.

(** The product of two non-negative doubles of moderate exponent is finite. *)
Lemma mul_finite (m1 e1 m2 e2 : Z) :
  0 <= m1 <= 2 ^ 53 -> 0 <= m2 <= 2 ^ 53 -> e1 + e2 <= 900 ->
  exists m e, mul (Finite m1 e1) (Finite m2 e2) = Finite m e.
Proof.
  intros H1 H2 He. unfold mul, scale.
  rewrite Z.opp_involutive, Z.mul_1_l.
  set (s := e1 + e2) in *.
  pose proof (pow2_pos s) as Hp. pose proof (pow2_pos (- s)) as Hn.
  destruct (Z.eq_dec (m1 * m2) 0) as [Z0 | NZ].
  - rewrite Z0, Z.mul_0_l. unfold round_double. rewrite Z.eqb_refl. eauto.
  - assert (0 < m1 * m2) by nia.
    destruct (round_double_finite (m1 * m2 * 2 ^ Z.max 0 s) (2 ^ Z.max 0 (- s)) (s + 107))
      as (m & e & R & _); try nia; try lia; eauto.
    set (c := Z.abs s).
    apply (below_iff _ _ _ (c)); try lia.
    pose proof (pow2_shift s c ltac:(lia) ltac:(lia)) as S.
    replace (m1 * m2 * 2 ^ Z.max 0 s * 2 ^ c) with (m1 * m2 * (2 ^ Z.max 0 s * 2 ^ c)) by ring.
    rewrite S.
    replace (c + (s + 107)) with ((c + s) + 107) by lia.
    rewrite (Z.pow_add_r 2 (c + s) 107) by lia.
    assert (0 < 2 ^ (c + s)) by (apply Z.pow_pos_nonneg; lia).
    assert (m1 * m2 <= 2 ^ 53 * 2 ^ 53) by (apply Z.mul_le_mono_nonneg; lia).
    assert (m1 * m2 < 2 ^ 107) by (eapply Z.le_lt_trans; [eassumption | reflexivity]).
    replace (m1 * m2 * (2 ^ Z.max 0 (- s) * 2 ^ (c + s)))
      with ((2 ^ Z.max 0 (- s) * 2 ^ (c + s)) * (m1 * m2)) by ring.
    replace (2 ^ Z.max 0 (- s) * (2 ^ (c + s) * 2 ^ 107))
      with ((2 ^ Z.max 0 (- s) * 2 ^ (c + s)) * 2 ^ 107) by ring.
    apply Z.mul_lt_mono_pos_l; [nia | assumption].
Qed.

End PyFloatFacts.

Lemma of_int_100 : PyFloat.of_int 100 = Return (PyFloat.Finite 7036874417766400 (-46)).
Proof. vm_compute. reflexivity. Qed.

Lemma of_int_default_bar_length :
  PyFloat.of_int default_bar_length = Return (PyFloat.Finite 8444249301319680 (-48)).
Proof. vm_compute. reflexivity. Qed.

(** With a fraction in the unit range the bar is always rendered. *)
Lemma render_finite (m e current total : Z) :
  0 <= m <= 2 ^ 53 -> e <= 0 ->
  exists b pct,
    (hundred <- PyFloat.of_int 100 ;;
     percentage <- PyFloat.to_int (PyFloat.mul (PyFloat.Finite m e) hundred) ;;
     len <- PyFloat.of_int default_bar_length ;;
     filled_length <- PyFloat.to_int (PyFloat.mul len (PyFloat.Finite m e)) ;;
     Return (mk_line (str_repeat Filled filled_length
                        ++ str_repeat Unfilled (default_bar_length - filled_length))
                     current total percentage))
    = Return (mk_line b current total pct).
Proof.
  intros Hm He.
  rewrite of_int_100, of_int_default_bar_length. cbn [bind].
  destruct (PyFloatFacts.mul_finite m e 7036874417766400 (-46)) as (m1 & e1 & E1);
    [lia | split; [lia | apply Z.lt_le_incl; reflexivity] | lia |].
  destruct (PyFloatFacts.mul_finite 8444249301319680 (-48) m e) as (m2 & e2 & E2);
    [split; [lia | apply Z.lt_le_incl; reflexivity] | lia | lia |].
  rewrite E1, E2. cbn [PyFloat.to_int bind]. eauto.
Qed.

Lemma print_progress_bar_ok (current total : Z) :
  0 <= current <= total ->
  exists b pct,
    print_progress_bar current total default_bar_length
    = Return (mk_line b current total pct).
Proof.
  intros H. unfold print_progress_bar.
  destruct (0 <? total) eqn:T.
  - apply Z.ltb_lt in T.
    destruct (Z.eq_dec current 0) as [-> | NZ].
    + unfold PyFloat.true_divide.
      rewrite (proj2 (Z.eqb_neq total 0)), (proj2 (Z.ltb_ge total 0)) by lia.
      cbn [PyFloat.round_double Z.eqb PyFloat.finite_or_overflow bind].
      apply render_finite; [split; [lia | apply Z.lt_le_incl; reflexivity] | lia].
    + destruct (PyFloatFacts.true_divide_le current total) as (m & e & E & Hm & He); [lia|].
      rewrite E. cbn [bind]. apply render_finite; lia.
  - cbn [bind]. unfold PyFloat.one.
    apply render_finite; [split; [lia | apply Z.lt_le_incl; reflexivity] | lia].
Qed.

(** ** Dictionaries of lists *)

Module DefaultDictFacts.
Import DefaultDict.
Section Facts.
Variables K V : Type.
Variable eqb : K -> K -> bool.
Hypothesis eqb_eq : forall a b, eqb a b = true <-> a = b.

Let eqb_refl (a : K) : eqb a a = true.
Proof. now apply eqb_eq. Qed.

Lemma get_append (q k : K) (v : V) (d : t K V) :
  get eqb q (append eqb k v d)
  = if eqb q k then get eqb q d ++ [v] else get eqb q d.
Proof.
  induction d as [|[k' vs] d IH]; simpl.
  - destruct (eqb q k); reflexivity.
  - destruct (eqb k k') eqn:E1; simpl.
    + apply eqb_eq in E1; subst k'. destruct (eqb q k); reflexivity.
    + destruct (eqb q k') eqn:E2; [|exact IH].
      apply eqb_eq in E2; subst k'.
      destruct (eqb q k) eqn:E3; [|reflexivity].
      apply eqb_eq in E3; subst k. rewrite eqb_refl in E1. discriminate.
Qed.

Lemma in_keys_append (q k : K) (v : V) (d : t K V) :
  In q (keys (append eqb k v d)) <-> q = k \/ In q (keys d).
Proof.
  unfold keys. induction d as [|[k' vs] d IH]; simpl.
  - intuition.
  - destruct (eqb k k') eqn:E; simpl.
    + apply eqb_eq in E; subst k'. intuition.
    + rewrite IH. intuition.
Qed.

Lemma NoDup_keys_append (k : K) (v : V) (d : t K V) :
  NoDup (keys d) -> NoDup (keys (append eqb k v d)).
Proof.
  unfold keys. induction d as [|[k' vs] d IH]; simpl; intros H.
  - constructor; [intros [] | constructor].
  - inversion H as [|? ? Hn Hd]; subst.
    destruct (eqb k k') eqn:E; simpl.
    + constructor; assumption.
    + constructor; [|now apply IH].
      intros Hin. apply (in_keys_append k' k v d) in Hin.
      destruct Hin as [-> | Hin]; [|now apply Hn].
      rewrite eqb_refl in E. discriminate.
Qed.

Lemma get_of_entry (k : K) (l : list V) (d : t K V) :
  NoDup (keys d) -> In (k, l) d -> get eqb k d = l.
Proof.
  unfold keys. induction d as [|[k' vs] d IH]; simpl; intros Hnd Hin; [easy|].
  inversion Hnd as [|? ? Hn Hd]; subst.
  destruct Hin as [E | Hin].
  - inversion E; subst. now rewrite eqb_refl.
  - destruct (eqb k k') eqn:E; [|now apply IH].
    apply eqb_eq in E; subst k'. exfalso. apply Hn.
    change k with (fst (k, l)). now apply in_map.
Qed.

Lemma entry_of_get (k : K) (d : t K V) :
  get eqb k d <> [] -> In (k, get eqb k d) d.
Proof.
  induction d as [|[k' vs] d IH]; simpl; intros H; [easy|].
  destruct (eqb k k') eqn:E.
  - apply eqb_eq in E; subst k'. now left.
  - right. now apply IH.
Qed.

Lemma nonempty_append (k : K) (v : V) (d : t K V) :
  Forall (fun l => l <> []) (values d) ->
  Forall (fun l => l <> []) (values (append eqb k v d)).
Proof.
  unfold values. induction d as [|[k' vs] d IH]; simpl; intros H.
  - constructor; [discriminate | constructor].
  - inversion H; subst. destruct (eqb k k'); simpl; constructor; auto.
    now destruct vs.
Qed.

Lemma size_append (k : K) (v : V) (d : t K V) :
  size (append eqb k v d) = S (size d).
Proof.
  unfold size, values. induction d as [|[k' vs] d IH]; simpl; [reflexivity|].
  destruct (eqb k k'); simpl.
  - rewrite length_app. simpl. lia.
  - rewrite IH. lia.
Qed.

(** *** Grouping a list under a partial key *)

Variable key : V -> option K.

Lemma get_group (q : K) (xs : list V) (d : t K V) :
  get eqb q (fold_left (group_step eqb key) xs d)
  = get eqb q d ++ filter (has_key eqb key q) xs.
Proof.
  revert d. induction xs as [|x xs IH]; intros d; simpl.
  - now rewrite app_nil_r.
  - rewrite IH. unfold group_step, has_key at 2.
    destruct (key x) as [k|]; [|reflexivity].
    rewrite get_append. destruct (eqb q k); [|reflexivity].
    now rewrite <- app_assoc.
Qed.

Lemma NoDup_keys_group (xs : list V) (d : t K V) :
  NoDup (keys d) -> NoDup (keys (fold_left (group_step eqb key) xs d)).
Proof.
  revert d. induction xs as [|x xs IH]; intros d H; simpl; [assumption|].
  apply IH. unfold group_step. destruct (key x); [|assumption].
  now apply NoDup_keys_append.
Qed.

Lemma nonempty_group (xs : list V) (d : t K V) :
  Forall (fun l => l <> []) (values d) ->
  Forall (fun l => l <> []) (values (fold_left (group_step eqb key) xs d)).
Proof.
  revert d. induction xs as [|x xs IH]; intros d H; simpl; [assumption|].
  apply IH. unfold group_step. destruct (key x); [|assumption].
  now apply nonempty_append.
Qed.

Lemma size_group (xs : list V) (d : t K V) :
  size (fold_left (group_step eqb key) xs d)
  = (size d + List.length (filter (keyed key) xs))%nat.
Proof.
  revert d. induction xs as [|x xs IH]; intros d; simpl; [lia|].
  rewrite IH. unfold group_step, keyed at 2.
  destruct (key x); simpl; [rewrite size_append|]; lia.
Qed.

(** The entries of the dictionary built from [xs]: one per key in use,
    holding the elements of [xs] with that key, in order. *)
Lemma entry_group (k : K) (l : list V) (xs : list V) :
  In (k, l) (fold_left (group_step eqb key) xs [])
  <-> l = filter (has_key eqb key k) xs /\ l <> [].
Proof.
  split.
  - intros Hin. split.
    + assert (N : NoDup (keys (fold_left (group_step eqb key) xs [])))
        by (apply NoDup_keys_group; constructor).
      rewrite <- (get_of_entry k l _ N Hin). now rewrite get_group.
    + assert (F : Forall (fun l => l <> [])
                    (values (fold_left (group_step eqb key) xs [])))
        by (apply nonempty_group; constructor).
      rewrite Forall_forall in F. apply F.
      unfold values. change l with (snd (k, l)). now apply in_map.
  - intros [-> Hne].
    pose proof (get_group k xs []) as G. simpl in G.
    rewrite <- G in *. now apply entry_of_get.
Qed.

Lemma has_key_true (k : K) (x : V) : has_key eqb key k x = true <-> key x = Some k.
Proof.
  unfold has_key. destruct (key x) as [k'|]; [|easy].
  rewrite eqb_eq. split; [now intros -> | now inversion 1].
Qed.

End Facts.
End DefaultDictFacts.

(** ** The scanning loop *)

Lemma len_nil {A : Type} : len (@nil A) = 0.
Proof. reflexivity. Qed.

Lemma len_cons {A : Type} (x : A) (xs : list A) : len (x :: xs) = len xs + 1.
Proof. unfold len. simpl List.length. lia. Qed.

Lemma len_app {A : Type} (xs ys : list A) : len (xs ++ ys) = len xs + len ys.
Proof. unfold len. rewrite length_app. lia. Qed.

Lemma len_nonneg {A : Type} (xs : list A) : 0 <= len xs.
Proof. unfold len. lia. Qed.

Section ScanFacts.
Variable os : os_world.
Variable sha : hashlib.

Local Abbreviation digest_key := (hash_key os sha).

Lemma hash_loop_returns (total_count : Z) (paths : list path) :
  forall (files_by_hash : DefaultDict.t string path) (st : scan_state),
    0 <= processed_count st ->
    processed_count st + len paths <= total_count ->
    exists lines,
      for_each (hash_step os sha total_count) paths (files_by_hash, st)
      = Return (fold_left (DefaultDict.group_step String.eqb digest_key) paths files_by_hash,
                mk_state (processed_count st + len paths) (duplicates st)
                         (hasher_calls st ++ paths) (stdout st ++ lines)).
Proof.
  induction paths as [|p paths IH]; intros fbh st H0 H1.
  - exists []. destruct st; simpl. now rewrite len_nil, Z.add_0_r, !app_nil_r.
  - rewrite len_cons in H1. pose proof (len_nonneg paths) as Hl.
    destruct (print_progress_bar_ok (processed_count st + 1) total_count)
      as (b & pct & E); [lia|].
    cbn [for_each]. unfold hash_step at 1. rewrite E. cbn [bind].
    match goal with
    | |- context [for_each _ paths (?d, ?s)] =>
        destruct (IH d s) as (lines & R); cbn [processed_count]; try lia
    end.
    rewrite R. cbn [processed_count duplicates hasher_calls stdout].
    exists (mk_line b (processed_count st + 1) total_count pct :: lines).
    f_equal. f_equal.
    + cbn [fold_left]. f_equal. unfold DefaultDict.group_step, hash_key.
      now destruct (truthy (compute_file_hash os sha p)).
    + rewrite len_cons, <- !app_assoc. simpl. f_equal. lia.
Qed.

Lemma emit_groups_values (size : Z) (files_by_hash : DefaultDict.t string path) :
  forall dups,
    emit_groups size files_by_hash dups
    = dups ++ map (mk_group size)
                  (filter (fun l => 1 <? len l) (DefaultDict.values files_by_hash)).
Proof.
  unfold emit_groups, DefaultDict.values.
  induction files_by_hash as [|[h l] d IH]; intros dups; simpl.
  - now rewrite app_nil_r.
  - rewrite IH. destruct (1 <? len l); simpl; [|reflexivity].
    now rewrite <- app_assoc.
Qed.

Lemma hash_pass_returns (total_count size : Z) (paths : list path) (st : scan_state) :
  0 <= processed_count st ->
  processed_count st + len paths <= total_count ->
  exists lines,
    hash_pass os sha total_count size paths st
    = Return (mk_state (processed_count st + len paths)
                       (duplicates st ++ confirmed os sha size paths)
                       (hasher_calls st ++ paths) (stdout st ++ lines)).
Proof.
  intros H0 H1. unfold hash_pass.
  destruct (hash_loop_returns total_count paths [] st H0 H1) as (lines & R).
  match type of R with
  | _ = ?r => match goal with
              | |- context [bind ?m _] => replace m with r by (symmetry; exact R)
              end
  end.
  cbn [bind processed_count duplicates hasher_calls stdout].
  exists lines. f_equal. f_equal.
  unfold confirmed, group_by_hash. rewrite (emit_groups_values size _ (duplicates st)).
  now rewrite (emit_groups_values size _ []).
Qed.

Lemma scan_size_group_returns (total_count : Z) (st : scan_state) (item : Z * list path) :
  0 <= processed_count st ->
  processed_count st + cost item <= total_count ->
  exists lines,
    scan_size_group os sha total_count st item
    = Return (mk_state (processed_count st + cost item)
                       (duplicates st ++ emitted os sha item)
                       (hasher_calls st ++ hashed_of item) (stdout st ++ lines)).
Proof.
  destruct item as [size paths]. unfold cost, scan_size_group, emitted, hashed_of.
  cbn [snd]. intros H0 H1.
  destruct (len paths <? 2) eqn:E2.
  - exists []. destruct st; simpl. now rewrite Z.add_0_r, !app_nil_r.
  - destruct (size =? 0) eqn:E0.
    + pose proof (len_nonneg paths).
      destruct (print_progress_bar_ok (processed_count st + len paths) total_count)
        as (b & pct & E); [lia|].
      rewrite E. cbn [bind]. rewrite app_nil_r. eauto.
    + now apply hash_pass_returns.
Qed.

Lemma cost_nonneg (item : Z * list path) : 0 <= cost item.
Proof. unfold cost. pose proof (len_nonneg (snd item)). destruct (_ <? _); lia. Qed.

Lemma loop_cost_nonneg (items : list (Z * list path)) : 0 <= loop_cost items.
Proof.
  induction items as [|it items IH]; simpl; [lia|].
  pose proof (cost_nonneg it). lia.
Qed.

Lemma scan_loop_returns (total_count : Z) (items : list (Z * list path)) :
  forall st : scan_state,
    0 <= processed_count st ->
    processed_count st + loop_cost items <= total_count ->
    exists lines,
      for_each (scan_size_group os sha total_count) items st
      = Return (mk_state (processed_count st + loop_cost items)
                         (duplicates st ++ flat_map (emitted os sha) items)
                         (hasher_calls st ++ flat_map hashed_of items)
                         (stdout st ++ lines)).
Proof.
  induction items as [|it items IH]; intros st H0 H1.
  - exists []. destruct st; simpl. now rewrite Z.add_0_r, !app_nil_r.
  - cbn [loop_cost fold_right] in H1. fold (loop_cost items) in H1.
    pose proof (cost_nonneg it). pose proof (loop_cost_nonneg items).
    destruct (scan_size_group_returns total_count st it) as (l1 & R1); try lia.
    cbn [for_each]. rewrite R1. cbn [bind].
    match goal with
    | |- context [for_each _ items ?s] =>
        destruct (IH s) as (l2 & R2); cbn [processed_count]; try lia
    end.
    rewrite R2. cbn [processed_count duplicates hasher_calls stdout].
    exists (l1 ++ l2). cbn [loop_cost fold_right flat_map]. fold (loop_cost items).
    rewrite <- !app_assoc. f_equal. f_equal. lia.
Qed.

(** The unique-size shortcut and the loop together count every file that
    is in a size group. *)
Lemma accounting (d : DefaultDict.t Z path) :
  Forall (fun l => l <> []) (DefaultDict.values d) ->
  unique_sized_files_count d + loop_cost d = Z.of_nat (DefaultDict.size d).
Proof.
  unfold unique_sized_files_count, DefaultDict.size, DefaultDict.values.
  induction d as [|[s l] d IH]; intros F; [reflexivity|].
  inversion F as [|? ? Hl Hd]; subst.
  specialize (IH Hd). unfold list_sum in *. cbn [map filter snd loop_cost fold_right] in *.
  fold (loop_cost d). unfold cost at 1. cbn [snd].
  destruct l as [|x l]; [easy|].
  rewrite Nat2Z.inj_add. change (Z.of_nat (List.length (x :: l))) with (len (x :: l)).
  destruct (len (x :: l) <? 2) eqn:E.
  - rewrite !len_cons in *. apply Z.ltb_lt in E. pose proof (len_nonneg l). lia.
  - lia.
Qed.

Lemma group_by_size_eq (all_files : list path) :
  group_by_size os all_files
  = fold_left (DefaultDict.group_step Z.eqb (st_size os)) all_files [].
Proof. reflexivity. Qed.

Lemma size_of_groups (all_files : list path) :
  DefaultDict.size (group_by_size os all_files)
  = List.length (filter (has_size os) all_files).
Proof.
  rewrite group_by_size_eq, DefaultDictFacts.size_group. simpl.
  f_equal.
Qed.

Lemma filter_length_le {A : Type} (f : A -> bool) (l : list A) :
  (List.length (filter f l) <= List.length l)%nat.
Proof. induction l as [|x l IH]; simpl; [lia|]. destruct (f x); simpl; lia. Qed.

(** [detect] always returns; its result is determined by the size groups. *)
Lemma detect_returns (all_files : list path) :
  exists lines,
    detect os sha all_files
    = Return (mk_state (len (filter (has_size os) all_files))
                       (flat_map (emitted os sha) (group_by_size os all_files))
                       (flat_map hashed_of (group_by_size os all_files))
                       lines).
Proof.
  unfold detect.
  destruct (len all_files =? 0) eqn:E.
  - apply Z.eqb_eq in E. destruct all_files as [|x l].
    + exists []. reflexivity.
    + rewrite len_cons in E. pose proof (len_nonneg l). lia.
  - assert (F : Forall (fun l => l <> [])
                  (DefaultDict.values (group_by_size os all_files))).
    { rewrite group_by_size_eq. apply DefaultDictFacts.nonempty_group. constructor. }
    pose proof (accounting _ F) as A. rewrite size_of_groups in A.
    fold (len (filter (has_size os) all_files)) in A.
    pose proof (loop_cost_nonneg (group_by_size os all_files)) as C.
    assert (U : 0 <= unique_sized_files_count (group_by_size os all_files))
      by (unfold unique_sized_files_count; apply len_nonneg).
    assert (L : len (filter (has_size os) all_files) <= len all_files)
      by (unfold len; apply inj_le, filter_length_le).
    destruct (print_progress_bar_ok
                (unique_sized_files_count (group_by_size os all_files))
                (len all_files)) as (b & pct & P); [lia|].
    rewrite P. cbn [bind].
    match goal with
    | |- context [for_each _ _ ?s] =>
        destruct (scan_loop_returns (len all_files) (group_by_size os all_files) s)
          as (lines & R); cbn [processed_count]; try lia
    end.
    rewrite R. cbn [processed_count duplicates hasher_calls stdout app].
    eexists. f_equal. f_equal. lia.
Qed.

End ScanFacts.

(** ** Membership in the emitted groups *)

Lemma two_members {A : Type} (a b : A) (l : list A) :
  In a l -> In b l -> a <> b -> 1 < len l.
Proof.
  intros Ha Hb Hab.
  destruct l as [|x [|y l]]; simpl in *.
  - easy.
  - destruct Ha as [<-|[]], Hb as [<-|[]]. congruence.
  - rewrite !len_cons. pose proof (len_nonneg l). lia.
Qed.

Lemma truthy_true (h : string) : truthy h = true <-> h <> ""%string.
Proof.
  unfold truthy. rewrite negb_true_iff. split.
  - intros E ->. discriminate.
  - intros H. apply String.eqb_neq. exact H.
Qed.

Section GroupFacts.
Variable os : os_world.
Variable sha : hashlib.

Local Abbreviation digest_key := (hash_key os sha).
Local Abbreviation hash_of := (compute_file_hash os sha).

Lemma hash_key_some (p : path) (h : string) :
  digest_key p = Some h <-> hash_of p = h /\ h <> ""%string.
Proof.
  unfold hash_key.
  destruct (truthy (hash_of p)) eqn:T.
  - apply truthy_true in T. split.
    + inversion 1; subst. auto.
    + intros [-> _]. reflexivity.
  - split; [discriminate|]. intros [<- H]. apply truthy_true in H. congruence.
Qed.

(** The size groups: one entry per size in use, with the files of that
    size in enumeration order. *)
Lemma in_group_by_size (size : Z) (paths all_files : list path) :
  In (size, paths) (group_by_size os all_files)
  <-> paths = filter (DefaultDict.has_key Z.eqb (st_size os) size) all_files
      /\ paths <> [].
Proof. rewrite group_by_size_eq. apply DefaultDictFacts.entry_group, Z.eqb_eq. Qed.

Lemma in_size_group (size : Z) (all_files : list path) (p : path) :
  In p (filter (DefaultDict.has_key Z.eqb (st_size os) size) all_files)
  <-> In p all_files /\ st_size os p = Some size.
Proof.
  rewrite filter_In, DefaultDictFacts.has_key_true; [reflexivity | apply Z.eqb_eq].
Qed.

Lemma in_hash_group (h : string) (paths : list path) (p : path) :
  In p (filter (DefaultDict.has_key String.eqb digest_key h) paths)
  <-> In p paths /\ hash_of p = h /\ h <> ""%string.
Proof.
  rewrite filter_In, DefaultDictFacts.has_key_true, hash_key_some;
    [reflexivity | apply String.eqb_eq].
Qed.

(** The groups confirmed by hashing: one per digest shared by at least two
    readable files. *)
Lemma in_confirmed (size : Z) (paths : list path) (g : group) :
  In g (confirmed os sha size paths)
  <-> exists h,
        g = mk_group size (filter (DefaultDict.has_key String.eqb digest_key h) paths)
        /\ 1 < len (files g).
Proof.
  unfold confirmed. rewrite emit_groups_values. cbn [app].
  rewrite in_map_iff. split.
  - intros (l & <- & Hin). apply filter_In in Hin. destruct Hin as [Hin Hl].
    apply Z.ltb_lt in Hl. unfold DefaultDict.values in Hin.
    apply in_map_iff in Hin. destruct Hin as ([h l'] & E & Hin). simpl in E. subst l'.
    apply (DefaultDictFacts.entry_group _ _ String.eqb String.eqb_eq) in Hin.
    destruct Hin as [-> _]. exists h. split; [reflexivity | exact Hl].
  - intros (h & -> & Hl). cbn [files] in Hl.
    eexists. split; [reflexivity|]. apply filter_In. split.
    + unfold DefaultDict.values. apply in_map_iff.
      exists (h, filter (DefaultDict.has_key String.eqb digest_key h) paths).
      split; [reflexivity|].
      apply (DefaultDictFacts.entry_group _ _ String.eqb String.eqb_eq).
      split; [reflexivity|]. intros E. rewrite E in Hl. cbn in Hl. lia.
    + now apply Z.ltb_lt.
Qed.

Lemma in_emitted (size : Z) (paths : list path) (g : group) :
  In g (emitted os sha (size, paths))
  <-> 1 < len paths
      /\ ((size = 0 /\ g = mk_group 0 paths)
          \/ (size <> 0 /\ In g (confirmed os sha size paths))).
Proof.
  unfold emitted.
  destruct (len paths <? 2) eqn:E2.
  - apply Z.ltb_lt in E2. simpl. split; [easy | lia].
  - apply Z.ltb_ge in E2. destruct (size =? 0) eqn:E0.
    + apply Z.eqb_eq in E0. simpl. split.
      * intros [<- | []]. split; [lia | auto].
      * intros [_ [[_ ->] | [N _]]]; [auto | congruence].
    + apply Z.eqb_neq in E0. split.
      * intros H. split; [lia | auto].
      * intros [_ [[Z0 _] | [_ H]]]; [congruence | exact H].
Qed.

Lemma emitted_size (item : Z * list path) (g : group) :
  In g (emitted os sha item) -> file_size g = fst item.
Proof.
  destruct item as [size paths]. rewrite in_emitted.
  intros [_ [[-> ->] | [_ H]]]; [reflexivity|].
  apply in_confirmed in H. destruct H as (h & -> & _). reflexivity.
Qed.

Lemma emitted_files (item : Z * list path) (g : group) (p : path) :
  In g (emitted os sha item) -> In p (files g) -> In p (snd item).
Proof.
  destruct item as [size paths]. rewrite in_emitted.
  intros [_ [[_ ->] | [_ H]]] Hp; [exact Hp|].
  apply in_confirmed in H. destruct H as (h & -> & _).
  cbn [files] in Hp. apply in_hash_group in Hp. now destruct Hp.
Qed.

Lemma emitted_members (item : Z * list path) (g : group) :
  In g (emitted os sha item) -> 2 <= len (files g).
Proof.
  destruct item as [size paths]. rewrite in_emitted.
  intros [Hl [[_ ->] | [_ H]]]; [cbn [files]; lia|].
  apply in_confirmed in H. destruct H as (h & _ & Hg). lia.
Qed.

End GroupFacts.


(** ** Pairwise relations on lists *)

Lemma FOP_impl_In {A : Type} (R R' : A -> A -> Prop) (l : list A) :
  (forall a b, In a l -> In b l -> R a b -> R' a b) ->
  ForallOrdPairs R l -> ForallOrdPairs R' l.
Proof.
  intros H F. induction F as [|a l Ha F IH]; constructor.
  - rewrite Forall_forall in *. intros b Hb. apply H; simpl; auto.
  - apply IH. intros x y Hx Hy. apply H; simpl; auto.
Qed.

Lemma FOP_app {A : Type} (R : A -> A -> Prop) (l1 l2 : list A) :
  ForallOrdPairs R l1 -> ForallOrdPairs R l2 ->
  (forall a b, In a l1 -> In b l2 -> R a b) ->
  ForallOrdPairs R (l1 ++ l2).
Proof.
  intros F1 F2 H. induction F1 as [|a l Ha F1 IH]; simpl; [assumption|].
  constructor.
  - apply Forall_app. split; [assumption|].
    apply Forall_forall. intros b Hb. apply H; simpl; auto.
  - apply IH. intros x y Hx Hy. apply H; simpl; auto.
Qed.

Lemma FOP_flat_map {A B : Type} (R : B -> B -> Prop) (f : A -> list B) (l : list A) :
  (forall x, In x l -> ForallOrdPairs R (f x)) ->
  ForallOrdPairs (fun x y => forall a b, In a (f x) -> In b (f y) -> R a b) l ->
  ForallOrdPairs R (flat_map f l).
Proof.
  intros H F. induction F as [|x l Hx F IH]; simpl; [constructor|].
  apply FOP_app.
  - apply H. simpl; auto.
  - apply IH. intros y Hy. apply H. simpl; auto.
  - intros a b Ha Hb. apply in_flat_map in Hb. destruct Hb as (y & Hy & Hb).
    rewrite Forall_forall in Hx. exact (Hx y Hy a b Ha Hb).
Qed.

Lemma FOP_map {A B : Type} (R : B -> B -> Prop) (f : A -> B) (l : list A) :
  ForallOrdPairs (fun a b => R (f a) (f b)) l -> ForallOrdPairs R (map f l).
Proof.
  intros F. induction F as [|a l Ha F IH]; simpl; constructor; [|assumption].
  apply Forall_map. exact Ha.
Qed.

Lemma FOP_filter {A : Type} (R : A -> A -> Prop) (p : A -> bool) (l : list A) :
  ForallOrdPairs R l -> ForallOrdPairs R (filter p l).
Proof.
  intros F. induction F as [|a l Ha F IH]; simpl; [constructor|].
  destruct (p a); [|assumption]. constructor; [|assumption].
  rewrite Forall_forall in *. intros b Hb. apply filter_In in Hb. apply Ha, Hb.
Qed.

Lemma FOP_NoDup_fst {A B : Type} (l : list (A * B)) :
  NoDup (map fst l) -> ForallOrdPairs (fun a b => fst a <> fst b) l.
Proof.
  induction l as [|a l IH]; simpl; intros H; [constructor|].
  inversion H as [|? ? Hn Hd]; subst. constructor; [|now apply IH].
  apply Forall_forall. intros b Hb E. apply Hn. rewrite E. now apply in_map.
Qed.

Lemma FOP_nth {A : Type} (R : A -> A -> Prop) (l : list A) :
  (forall a b, R a b -> R b a) ->
  ForallOrdPairs R l ->
  forall i j a b,
    i <> j -> nth_error l i = Some a -> nth_error l j = Some b -> R a b.
Proof.
  intros Hsym F. induction F as [|x l Hx F IH]; intros i j a b Hij Ha Hb.
  - destruct i; discriminate.
  - rewrite Forall_forall in Hx.
    destruct i as [|i], j as [|j]; simpl in Ha, Hb.
    + congruence.
    + inversion Ha; subst. apply Hx. eapply nth_error_In; eassumption.
    + inversion Hb; subst. apply Hsym, Hx. eapply nth_error_In; eassumption.
    + apply (IH i j); auto.
Qed.

(** The lists of a dictionary built by grouping share no element. *)
Lemma grouped_disjoint {K V : Type} (eqb : K -> K -> bool) (key : V -> option K)
    (xs : list V) :
  (forall a b, eqb a b = true <-> a = b) ->
  ForallOrdPairs (fun a b => forall x, In x (snd a) -> In x (snd b) -> False)
                 (fold_left (DefaultDict.group_step eqb key) xs []).
Proof.
  intros eqb_eq.
  apply FOP_impl_In with (R := fun a b => fst a <> fst b).
  - intros [k1 l1] [k2 l2] H1 H2 Hne x X1 X2. simpl in *.
    apply (DefaultDictFacts.entry_group _ _ eqb eqb_eq) in H1, H2.
    destruct H1 as [-> _], H2 as [-> _].
    apply filter_In in X1, X2. destruct X1 as [_ X1], X2 as [_ X2].
    apply (DefaultDictFacts.has_key_true _ _ eqb eqb_eq) in X1, X2. congruence.
  - apply FOP_NoDup_fst.
    apply (DefaultDictFacts.NoDup_keys_group _ _ eqb eqb_eq). constructor.
Qed.

Lemma disjoint_groups_sym (g1 g2 : group) : disjoint_groups g1 g2 -> disjoint_groups g2 g1.
Proof. unfold disjoint_groups. intros H p H2 H1. exact (H p H1 H2). Qed.

Lemma confirmed_disjoint (os : os_world) (sha : hashlib) (size : Z) (paths : list path) :
  ForallOrdPairs disjoint_groups (confirmed os sha size paths).
Proof.
  unfold confirmed. rewrite emit_groups_values. cbn [app].
  apply FOP_map. unfold disjoint_groups. cbn [files].
  apply FOP_filter. unfold DefaultDict.values. apply FOP_map.
  apply grouped_disjoint, String.eqb_eq.
Qed.

Lemma duplicates_disjoint (os : os_world) (sha : hashlib) (all_files : list path) :
  ForallOrdPairs disjoint_groups
                 (flat_map (emitted os sha) (group_by_size os all_files)).
Proof.
  apply FOP_flat_map.
  - intros [size paths] _. unfold emitted.
    destruct (len paths <? 2); [constructor|].
    destruct (size =? 0).
    + repeat constructor.
    + apply confirmed_disjoint.
  - apply FOP_impl_In
      with (R := fun a b => forall x, In x (snd a) -> In x (snd b) -> False).
    + intros a b _ _ H g1 g2 G1 G2 p P1 P2.
      apply (H p).
      * exact (emitted_files os sha a g1 p G1 P1).
      * exact (emitted_files os sha b g2 p G2 P2).
    + rewrite group_by_size_eq. apply grouped_disjoint, Z.eqb_eq.
Qed.


(** ** The zero-byte group *)

Lemma filter_none {A : Type} (p : A -> bool) (l : list A) :
  (forall x, In x l -> p x = false) -> filter p l = [].
Proof.
  induction l as [|x l IH]; intros H; simpl; [reflexivity|].
  rewrite (H x) by (simpl; auto). apply IH. intros y Hy. apply H. simpl; auto.
Qed.

Section ZeroFacts.
Variable os : os_world.
Variable sha : hashlib.

Lemma zero_byte_has_key (all_files : list path) :
  filter (zero_byte os) all_files
  = filter (DefaultDict.has_key Z.eqb (st_size os) 0) all_files.
Proof.
  apply filter_ext. intros p. unfold zero_byte, DefaultDict.has_key.
  destruct (st_size os p); [apply Z.eqb_sym | reflexivity].
Qed.

Lemma zero_groups_of_other_size (item : Z * list path) :
  fst item <> 0 -> filter is_zero_group (emitted os sha item) = [].
Proof.
  intros H. apply filter_none. intros g Hg. unfold is_zero_group.
  rewrite (emitted_size os sha item g Hg). now apply Z.eqb_neq.
Qed.

Lemma zero_groups_absent (items : list (Z * list path)) :
  ~ In 0 (DefaultDict.keys items) ->
  filter is_zero_group (flat_map (emitted os sha) items) = [].
Proof.
  unfold DefaultDict.keys.
  induction items as [|it items IH]; simpl; intros H; [reflexivity|].
  rewrite filter_app, zero_groups_of_other_size, IH; auto.
Qed.

Lemma zero_groups_present (items : list (Z * list path)) (zs : list path) :
  NoDup (DefaultDict.keys items) -> In (0, zs) items -> 1 < len zs ->
  filter is_zero_group (flat_map (emitted os sha) items) = [mk_group 0 zs].
Proof.
  unfold DefaultDict.keys.
  induction items as [|it items IH]; simpl; intros Hnd Hin Hl; [easy|].
  inversion Hnd as [|? ? Hn Hd]; subst. rewrite filter_app.
  destruct Hin as [-> | Hin].
  - rewrite (zero_groups_absent items Hn), app_nil_r.
    unfold emitted. rewrite (proj2 (Z.ltb_ge (len zs) 2)) by lia. reflexivity.
  - assert (fst it <> 0).
    { intros E. apply Hn. rewrite E. change 0 with (fst (0, zs)). now apply in_map. }
    rewrite zero_groups_of_other_size, IH; auto.
Qed.

Lemma hashed_of_size (item : Z * list path) (p : path) :
  In p (hashed_of item) -> fst item <> 0 /\ In p (snd item).
Proof.
  destruct item as [size paths]. unfold hashed_of. simpl.
  destruct (len paths <? 2); [easy|].
  destruct (size =? 0) eqn:E; [easy|]. apply Z.eqb_neq in E. auto.
Qed.

(** Only files of a non-zero size that was read are handed to the hasher. *)
Lemma hashed_has_size (all_files : list path) (p : path) :
  In p (flat_map hashed_of (group_by_size os all_files)) ->
  exists size, st_size os p = Some size /\ size <> 0.
Proof.
  intros H. apply in_flat_map in H. destruct H as ([size paths] & Hit & Hp).
  apply hashed_of_size in Hp. simpl in Hp. destruct Hp as [NZ Hp].
  apply in_group_by_size in Hit. destruct Hit as [-> _].
  apply in_size_group in Hp. exists size. tauto.
Qed.

(** *** Skipped files *)

Lemma group_by_hash_skip (l1 l2 : list path) (u : path) :
  compute_file_hash os sha u = ""%string ->
  group_by_hash os sha (l1 ++ u :: l2) = group_by_hash os sha (l1 ++ l2).
Proof.
  intros H.
  assert (S : forall d, DefaultDict.group_step String.eqb (hash_key os sha) d u = d).
  { intros d. unfold DefaultDict.group_step, hash_key. now rewrite H. }
  unfold group_by_hash. rewrite !fold_left_app. cbn [fold_left]. now rewrite S.
Qed.

Lemma unreadable_not_confirmed (size : Z) (paths : list path) (u : path) (g : group) :
  compute_file_hash os sha u = ""%string ->
  In g (confirmed os sha size paths) -> ~ In u (files g).
Proof.
  intros H Hg Hu. apply in_confirmed in Hg. destruct Hg as (h & -> & _).
  cbn [files] in Hu. apply in_hash_group in Hu.
  destruct Hu as (_ & E & N). congruence.
Qed.

(** *** The report *)

Lemma report_totals (dups : list group) :
  Forall (fun g => 2 <= len (files g)) dups ->
  forall t,
    total_wasted_bytes (fold_left report_step dups t)
    = total_wasted_bytes t + wasted_sum dups.
Proof.
  induction 1 as [|g dups Hg F IH]; intros t; simpl; [lia|].
  rewrite IH. unfold report_step.
  rewrite (proj2 (Z.eqb_neq (len (files g)) 0)) by lia. simpl. lia.
Qed.

End ZeroFacts.

(** ** Enumeration and exit codes *)

Lemma for_each_raise {A S : Type} (P : exn -> Prop) (body : S -> A -> result S) :
  (forall st x e, body st x = Raise e -> P e) ->
  forall xs st e, for_each body xs st = Raise e -> P e.
Proof.
  intros H. induction xs as [|x xs IH]; intros st e; simpl; [discriminate|].
  destruct (body st x) as [st'|e'] eqn:B; simpl.
  - apply IH.
  - inversion 1; subst. exact (H st x e B).
Qed.

Lemma traversal_raises_OSError (target_dir : entry) (e : exn) :
  traversal target_dir = Raise e -> e = OSError.
Proof.
  unfold traversal. revert e. generalize (os_walk [] target_dir), (@nil path).
  apply (for_each_raise (fun e => e = OSError)).
  intros st [root fs] e. unfold collect_dir. cbn [fst snd].
  revert e. generalize fs, st.
  apply (for_each_raise (fun e => e = OSError)).
  intros st' [name c] e. unfold collect_step. cbn [fst snd].
  destruct c; simpl; try discriminate. now inversion 1.
Qed.

Lemma enumerate_exits (target_dir : entry) (e : exn) :
  traversal target_dir = Raise e -> enumerate target_dir = Raise (SystemExit 1).
Proof.
  intros H. unfold enumerate. rewrite H.
  rewrite (traversal_raises_OSError target_dir e H). reflexivity.
Qed.

(** ** The progress bar never divides by zero *)

Lemma finite_or_overflow_not_zero_division (f : PyFloat.t) :
  PyFloat.finite_or_overflow f <> Raise ZeroDivisionError.
Proof. destruct f; discriminate. Qed.

Lemma to_int_not_zero_division (f : PyFloat.t) :
  PyFloat.to_int f <> Raise ZeroDivisionError.
Proof. destruct f; discriminate. Qed.

Lemma true_divide_not_zero_division (a b : Z) :
  b <> 0 -> PyFloat.true_divide a b <> Raise ZeroDivisionError.
Proof.
  intros H. unfold PyFloat.true_divide.
  rewrite (proj2 (Z.eqb_neq b 0) H).
  destruct (b <? 0); apply finite_or_overflow_not_zero_division.
Qed.

Lemma bind_raise {A B : Type} (m : result A) (k : A -> result B) (e : exn) :
  bind m k = Raise e -> m = Raise e \/ exists a, m = Return a /\ k a = Raise e.
Proof.
  destruct m; simpl; intros H; [right; eauto | left].
  inversion H; reflexivity.
Qed.

Lemma print_progress_bar_no_zero_division (current total bar_length : Z) :
  print_progress_bar current total bar_length <> Raise ZeroDivisionError.
Proof.
  unfold print_progress_bar. intros H.
  apply bind_raise in H. destruct H as [H | (fraction & _ & H)].
  - destruct (0 <? total) eqn:T; [|discriminate].
    apply Z.ltb_lt in T. revert H. apply true_divide_not_zero_division. lia.
  - apply bind_raise in H. destruct H as [H | (hundred & _ & H)].
    + revert H. apply finite_or_overflow_not_zero_division.
    + apply bind_raise in H. destruct H as [H | (pct & _ & H)].
      * revert H. apply to_int_not_zero_division.
      * apply bind_raise in H. destruct H as [H | (len & _ & H)].
        -- revert H. apply finite_or_overflow_not_zero_division.
        -- apply bind_raise in H. destruct H as [H | (filled & _ & H)].
           ++ revert H. apply to_int_not_zero_division.
           ++ discriminate.
Qed.

Lemma print_progress_bar_total_zero (current : Z) :
  print_progress_bar current 0 default_bar_length
  = Return (mk_line (str_repeat Filled 30) current 0 100).
Proof. reflexivity. Qed.

(** ** Sizes of the emitted groups *)

Lemma emitted_groups_members (os : os_world) (sha : hashlib) (all_files : list path) :
  Forall (fun g => 2 <= len (files g))
         (flat_map (emitted os sha) (group_by_size os all_files)).
Proof.
  apply Forall_forall. intros g Hg.
  apply in_flat_map in Hg. destruct Hg as (item & _ & Hg).
  exact (emitted_members os sha item g Hg).
Qed.

(** ** What the enumeration lists *)

Lemma entry_at_app (root d e : entry) (p q : path) :
  entry_at root p d -> entry_at d q e -> entry_at root (p ++ q) e.
Proof.
  intros H. induction H as [children name c Hin | children name c rest x Hin H IH];
    intros Hq; simpl.
  - now apply at_below with (d := c).
  - apply at_below with (d := c); auto.
Qed.

(** Every directory that [os.walk] visits is the root or a directory below
    it, and the file names it yields there are those of its non-directory
    entries. *)
Lemma os_walk_visits (e : entry) :
  forall top root fs,
    In (root, fs) (os_walk top e) ->
    exists rel children,
      root = top ++ rel
      /\ (rel = [] /\ e = Directory children \/ entry_at e rel (Directory children))
      /\ fs = walk_files children.
Proof.
  induction e as [| | | | |children IH] using entry_nested_ind;
    intros top root fs H; simpl in H; try contradiction.
  destruct H as [E | H].
  - inversion E; subst. exists [], children. rewrite app_nil_r. auto.
  - apply in_flat_map in H. destruct H as ([name c] & Hc & H). simpl in H.
    rewrite Forall_forall in IH.
    destruct (IH (name, c) Hc _ _ _ H) as (rel & ch & -> & Hat & ->).
    exists (name :: rel), ch. rewrite <- app_assoc. simpl.
    split; [reflexivity|]. split; [right | reflexivity].
    destruct Hat as [[-> E] | Hat]; simpl in *.
    + subst c. now apply at_child.
    + now apply at_below with (d := c).
Qed.

Lemma collect_step_returns (root : path) (fs : list (string * entry)) :
  forall acc all_files,
    for_each (collect_step root) fs acc = Return all_files ->
    forall p,
      In p all_files ->
      In p acc
      \/ exists name c,
           In (name, c) fs /\ p = root ++ [name] /\ is_symlink c = Return false.
Proof.
  induction fs as [|[name c] fs IH]; intros acc all_files H p Hp; simpl in H.
  - inversion H; subst. auto.
  - unfold collect_step at 1 in H. cbn [fst snd] in H.
    destruct (is_symlink c) as [link|] eqn:L; simpl in H; [|discriminate].
    destruct (IH _ _ H p Hp) as [Hacc | (n & c' & Hin & E & K)].
    + destruct link; simpl in Hacc; [auto|].
      apply in_app_or in Hacc. destruct Hacc as [Hacc | [<- | []]]; [auto|].
      right. exists name, c. simpl. auto.
    + right. exists n, c'. simpl. auto.
Qed.

Lemma collect_dir_returns (walk : list (path * list (string * entry))) :
  forall acc all_files,
    for_each collect_dir walk acc = Return all_files ->
    forall p,
      In p all_files ->
      In p acc
      \/ exists root fs name c,
           In (root, fs) walk /\ In (name, c) fs /\ p = root ++ [name]
           /\ is_symlink c = Return false.
Proof.
  induction walk as [|[root fs] walk IH]; intros acc all_files H p Hp; simpl in H.
  - inversion H; subst. auto.
  - unfold collect_dir at 1 in H. cbn [fst snd] in H.
    destruct (for_each (collect_step root) fs acc) as [acc'|] eqn:E; simpl in H;
      [|discriminate].
    destruct (IH _ _ H p Hp) as [Hacc | (r & f & n & c & Hw & Hf & Ep & K)].
    + destruct (collect_step_returns root fs _ _ E p Hacc)
        as [Hacc' | (n & c & Hf & Ep & K)]; [auto|].
      right. exists root, fs, n, c. simpl. auto.
    + right. exists r, f, n, c. simpl. auto.
Qed.

(** Whatever is enumerated is a regular or a special file below the scanned
    directory: never a symbolic link, never a directory. *)
Lemma enumerated_entries (target_dir : entry) (all_files : list path) (p : path) :
  enumerate target_dir = Return all_files ->
  In p all_files ->
  exists c, entry_at target_dir p c /\ (c = RegularFile \/ c = SpecialFile).
Proof.
  unfold enumerate. intros H Hp.
  destruct (traversal target_dir) as [fs|e] eqn:T.
  - simpl in H. inversion H; subst fs. unfold traversal in T.
    destruct (collect_dir_returns _ _ _ T p Hp) as [[] | (r & f & n & c & Hw & Hf & -> & K)].
    destruct (os_walk_visits target_dir _ _ _ Hw) as (rel & ch & -> & Hat & ->).
    unfold walk_files in Hf. apply filter_In in Hf. destruct Hf as [Hf D].
    exists c. split; [|destruct c; simpl in *; auto; discriminate]. simpl.
    destruct Hat as [[-> ->] | Hat].
    + now apply at_child.
    + apply entry_at_app with (d := Directory ch); [exact Hat | now apply at_child].
  - rewrite (traversal_raises_OSError target_dir e T) in H. discriminate.
Qed.

(** ** Claims *)

(** C3 (no false singletons): whatever the enumerated files, their sizes and
    the outcome of hashing, the scan returns and every group it emits has at
    least two members. *)
Theorem no_false_singletons (os : os_world) (sha : hashlib) (all_files : list path) :
  exists st,
    detect os sha all_files = Return st
    /\ Forall (fun g => 2 <= len (files g)) (duplicates st).
Proof.
  destruct (detect_returns os sha all_files) as (lines & R).
  eexists. split; [exact R|]. cbn [duplicates].
  apply emitted_groups_members.
Qed.

(** C1 (grouping correctness): two distinct files of the input are reported
    in the same duplicate group exactly when their sizes were read and are
    equal and their digests were computed and are equal, files of size zero
    counting as digest-equal. *)
Theorem grouping_correctness (os : os_world) (sha : hashlib)
    (all_files : list path) (f1 f2 : path) :
  In f1 all_files -> In f2 all_files -> f1 <> f2 ->
  exists st,
    detect os sha all_files = Return st
    /\ (together (duplicates st) f1 f2 <-> same_size_and_digest os sha f1 f2).
Proof.
  intros H1 H2 Hne.
  destruct (detect_returns os sha all_files) as (lines & R).
  eexists. split; [exact R|]. cbn [duplicates]. split.
  - intros (g & Hg & G1 & G2).
    apply in_flat_map in Hg. destruct Hg as ([size paths] & Hit & Hg).
    apply in_group_by_size in Hit. destruct Hit as [-> _].
    apply in_emitted in Hg. destruct Hg as [_ [[Z0 ->] | [NZ Hg]]].
    + cbn [files] in G1, G2. apply in_size_group in G1, G2.
      exists size. intuition.
    + apply in_confirmed in Hg. destruct Hg as (h & -> & _).
      cbn [files] in G1, G2. apply in_hash_group in G1, G2.
      destruct G1 as (P1 & E1 & Hh), G2 as (P2 & E2 & _).
      apply in_size_group in P1, P2.
      exists size. repeat split; try tauto.
      right. split; congruence.
  - intros (size & S1 & S2 & D).
    set (paths := filter (DefaultDict.has_key Z.eqb (st_size os) size) all_files).
    assert (P1 : In f1 paths) by (apply in_size_group; auto).
    assert (P2 : In f2 paths) by (apply in_size_group; auto).
    assert (Hit : In (size, paths) (group_by_size os all_files)).
    { apply in_group_by_size. split; [reflexivity|]. intros E. now rewrite E in P1. }
    pose proof (two_members f1 f2 paths P1 P2 Hne) as Hl.
    destruct (Z.eq_dec size 0) as [Z0 | NZ].
    + exists (mk_group 0 paths). split; [|auto].
      apply in_flat_map. exists (size, paths). split; [exact Hit|].
      apply in_emitted. auto.
    + destruct D as [Z0 | [Hh He]]; [contradiction|].
      set (h := compute_file_hash os sha f1) in *.
      set (l := filter (DefaultDict.has_key String.eqb (hash_key os sha) h) paths).
      assert (L1 : In f1 l) by (apply in_hash_group; auto).
      assert (L2 : In f2 l) by (apply in_hash_group; auto).
      exists (mk_group size l). split; [|auto].
      apply in_flat_map. exists (size, paths). split; [exact Hit|].
      apply in_emitted. split; [exact Hl|]. right. split; [exact NZ|].
      apply in_confirmed. exists h. split; [reflexivity|].
      exact (two_members f1 f2 l L1 L2 Hne).
Qed.

Lemma grouping_correctness_witness :
  In Demo.a Demo.all_files /\ In Demo.copy Demo.all_files /\ Demo.a <> Demo.copy
  /\ exists st,
       detect Demo.os Demo.sha Demo.all_files = Return st
       /\ (together (duplicates st) Demo.a Demo.copy
           <-> same_size_and_digest Demo.os Demo.sha Demo.a Demo.copy).
Proof.
  assert (H1 : In Demo.a Demo.all_files) by (simpl; auto).
  assert (H2 : In Demo.copy Demo.all_files) by (simpl; auto 10).
  assert (H3 : Demo.a <> Demo.copy) by discriminate.
  repeat (split; [assumption|]).
  exact (grouping_correctness Demo.os Demo.sha Demo.all_files Demo.a Demo.copy H1 H2 H3).
Defined.

(** C9 (disjoint groups): the emitted groups are pairwise disjoint, so a path
    occurs in at most one of them. *)
Theorem groups_pairwise_disjoint (os : os_world) (sha : hashlib) (all_files : list path) :
  exists st,
    detect os sha all_files = Return st
    /\ forall i j g1 g2,
         i <> j ->
         nth_error (duplicates st) i = Some g1 ->
         nth_error (duplicates st) j = Some g2 ->
         disjoint_groups g1 g2.
Proof.
  destruct (detect_returns os sha all_files) as (lines & R).
  eexists. split; [exact R|]. cbn [duplicates].
  apply FOP_nth; [exact disjoint_groups_sym | apply duplicates_disjoint].
Qed.

(** C4 (zero-byte shortcut): when at least two enumerated files have size
    zero, they are one size group; the scan emits exactly one group of size
    zero, made of all of them; none of them is handed to the hasher; and the
    loop body counts all of them as processed in one step. *)
Theorem zero_byte_shortcut (os : os_world) (sha : hashlib) (all_files : list path) :
  2 <= len (filter (zero_byte os) all_files) ->
  exists st,
    detect os sha all_files = Return st
    /\ In (0, filter (zero_byte os) all_files) (group_by_size os all_files)
    /\ filter is_zero_group (duplicates st)
       = [mk_group 0 (filter (zero_byte os) all_files)]
    /\ (forall p, In p (filter (zero_byte os) all_files) -> ~ In p (hasher_calls st))
    /\ (forall total_count st0,
          0 <= processed_count st0 ->
          processed_count st0 + len (filter (zero_byte os) all_files) <= total_count ->
          exists line,
            scan_size_group os sha total_count st0 (0, filter (zero_byte os) all_files)
            = Return (mk_state
                        (processed_count st0 + len (filter (zero_byte os) all_files))
                        (duplicates st0 ++ [mk_group 0 (filter (zero_byte os) all_files)])
                        (hasher_calls st0)
                        (stdout st0 ++ [line]))).
Proof.
  intros Hl. set (zs := filter (zero_byte os) all_files) in *.
  destruct (detect_returns os sha all_files) as (lines & R).
  assert (Hin : In (0, zs) (group_by_size os all_files)).
  { apply in_group_by_size. split.
    - apply zero_byte_has_key.
    - intros E. rewrite E in Hl. cbn in Hl. lia. }
  eexists. split; [exact R|]. cbn [duplicates hasher_calls].
  split; [exact Hin|]. split; [|split].
  - apply zero_groups_present; [|exact Hin|lia].
    rewrite group_by_size_eq.
    apply (DefaultDictFacts.NoDup_keys_group _ _ Z.eqb Z.eqb_eq). constructor.
  - intros p Hp Hh. apply hashed_has_size in Hh. destruct Hh as (size & S & NZ).
    apply filter_In in Hp. destruct Hp as [_ Hp]. unfold zero_byte in Hp.
    rewrite S in Hp. apply Z.eqb_eq in Hp. contradiction.
  - intros total_count st0 H0 H1.
    unfold scan_size_group. rewrite (proj2 (Z.ltb_ge (len zs) 2)) by lia.
    cbn [Z.eqb].
    destruct (print_progress_bar_ok (processed_count st0 + len zs) total_count)
      as (b & pct & E); [pose proof (len_nonneg zs); lia|].
    rewrite E. cbn [bind]. eauto.
Qed.

Lemma zero_byte_shortcut_witness :
  2 <= len (filter (zero_byte Demo.os) Demo.all_files)
  /\ exists st,
       detect Demo.os Demo.sha Demo.all_files = Return st
       /\ filter is_zero_group (duplicates st) = [mk_group 0 [Demo.empty1; Demo.empty2]]
       /\ ~ In Demo.empty1 (hasher_calls st)
       /\ exists line,
            scan_size_group Demo.os Demo.sha 8 (mk_state 3 [] [] [])
                            (0, [Demo.empty1; Demo.empty2])
            = Return (mk_state 5 [mk_group 0 [Demo.empty1; Demo.empty2]] [] [line]).
Proof.
  assert (H : 2 <= len (filter (zero_byte Demo.os) Demo.all_files))
    by (vm_compute; discriminate).
  split; [exact H|].
  destruct (zero_byte_shortcut Demo.os Demo.sha Demo.all_files H)
    as (st & R & _ & G & N & L).
  exists st. split; [exact R|]. split; [exact G|]. split.
  - apply N. vm_compute. auto.
  - apply (L 8 (mk_state 3 [] [] [])); vm_compute; discriminate.
Defined.

(** C8 (wasted-space formula): in the report of a scan, each emitted group of
    size S with M members adds (M - 1) * S to the wasted bytes, and the
    reported total is the sum of these contributions over the emitted
    groups. *)
Theorem wasted_space_formula (os : os_world) (sha : hashlib) (all_files : list path) :
  exists st,
    detect os sha all_files = Return st
    /\ reported_groups (report (duplicates st)) = duplicates st
    /\ (forall t g,
          In g (duplicates st) ->
          total_wasted_bytes (report_step t g)
          = total_wasted_bytes t + (len (files g) - 1) * file_size g)
    /\ total_wasted_bytes (reported_totals (report (duplicates st)))
       = wasted_sum (duplicates st).
Proof.
  destruct (detect_returns os sha all_files) as (lines & R).
  pose proof (emitted_groups_members os sha all_files) as F.
  eexists. split; [exact R|]. cbn [duplicates]. split; [reflexivity|]. split.
  - intros t g Hg. rewrite Forall_forall in F. specialize (F g Hg).
    unfold report_step. rewrite (proj2 (Z.eqb_neq (len (files g)) 0)) by lia.
    reflexivity.
  - unfold report. cbn [reported_totals]. now rewrite report_totals.
Qed.

Lemma groups_pairwise_disjoint_witness :
  disjoint_groups (mk_group 1 [Demo.a; Demo.b; Demo.copy])
                  (mk_group 0 [Demo.empty1; Demo.empty2]).
Proof.
  destruct (groups_pairwise_disjoint Demo.os Demo.sha Demo.all_files) as (st & R & D).
  assert (E : duplicates st = [mk_group 1 [Demo.a; Demo.b; Demo.copy];
                               mk_group 0 [Demo.empty1; Demo.empty2]]).
  { assert (C : exists lines,
               detect Demo.os Demo.sha Demo.all_files
               = Return (mk_state 7 [mk_group 1 [Demo.a; Demo.b; Demo.copy];
                                     mk_group 0 [Demo.empty1; Demo.empty2]]
                                  [Demo.a; Demo.b; Demo.c; Demo.locked; Demo.copy] lines))
      by (eexists; vm_compute; reflexivity).
    destruct C as (lines & C). rewrite C in R. inversion R. reflexivity. }
  apply (D 0%nat 1%nat); [discriminate | rewrite E; reflexivity | rewrite E; reflexivity].
Defined.

(** C7 (exit codes), at an input where the code departs from the claim: a
    target that exists, is a directory and cannot be listed.  The traversal
    fails to read it, yet [os.walk] raises nothing, so the handler of line
    103 is not reached: no file is examined and the command ends with
    status 0.  The handler does its work when the traversal raises, as on a
    directory with an entry that cannot be examined. *)
Theorem unlistable_directory_exits_zero :
  resolve Demo.os "sealed"%string = Found LockedDirectory
  /\ os_walk [] LockedDirectory = []
  /\ run_scan Demo.os Demo.sha "sealed"%string = Return (report [])
  /\ exit_status (main Demo.os Demo.sha ["prog"; "scan"; "sealed"]%string) = 0
  /\ exit_status (main Demo.os Demo.sha ["prog"; "scan"; "closed"]%string) = 1.
Proof. repeat split. Qed.

(** C2 (progress accounting), at an input where the code departs from the
    claim: one enumerated file whose size cannot be read.  The scan
    completes with a processed count of 0 for a total of 1 file. *)
Theorem processed_count_misses_unsized_file :
  exists st,
    detect Demo.os Demo.sha [Demo.gone] = Return st
    /\ len [Demo.gone] = 1
    /\ processed_count st = 0.
Proof. eexists. split; [vm_compute; reflexivity|]. split; reflexivity. Qed.

(** C6 (enumeration), at an input where the code departs from the claim: a
    directory that holds one FIFO.  The FIFO is not a regular file and is
    enumerated. *)
Theorem special_file_is_enumerated :
  enumerate (Directory [("pipe"%string, SpecialFile)]) = Return [["pipe"%string]].
Proof. reflexivity. Qed.

(** C10, as stated, fails: with a quotient beyond the range of a double the
    true division raises [OverflowError], so [print_progress_bar] does not
    return for every pair of natural numbers.  Both numbers here have few
    enough digits to be shown. *)
Lemma print_progress_bar_not_total :
  0 <= 2 ^ 1024 < 10 ^ int_max_str_digits /\ 0 <= 1
  /\ print_progress_bar (2 ^ 1024) 1 default_bar_length = Raise OverflowError
  /\ ~ exists line, print_progress_bar (2 ^ 1024) 1 default_bar_length = Return line.
Proof.
  split; [split; [apply Z.lt_le_incl|]; reflexivity|]. split; [lia|].
  split; [vm_compute; reflexivity|].
  intros (line & H). vm_compute in H. discriminate.
Qed.

(** C10, amended: [print_progress_bar] never raises the division error, for
    any pair of integers.  Among the integers that can be shown, those of at
    most [int_max_str_digits] digits: when [total] is 0 the fraction is 1.0,
    no division takes place and the full bar is printed with 100%; and the
    function returns whenever [0 <= current <= total]. *)
Theorem print_progress_bar_division_safe :
  (forall current total bar_length,
      print_progress_bar current total bar_length <> Raise ZeroDivisionError)
  /\ (forall current,
        0 <= current < 10 ^ int_max_str_digits ->
        print_progress_bar current 0 default_bar_length
        = Return (mk_line (str_repeat Filled 30) current 0 100))
  /\ (forall current total,
        0 <= current <= total ->
        total < 10 ^ int_max_str_digits ->
        exists line, print_progress_bar current total default_bar_length = Return line).
Proof.
  split; [exact print_progress_bar_no_zero_division|].
  split; [intros current _; exact (print_progress_bar_total_zero current)|].
  intros current total H _.
  destruct (print_progress_bar_ok current total H) as (b & pct & E). eauto.
Qed.

Lemma print_progress_bar_division_safe_witness :
  print_progress_bar 5 0 default_bar_length
  = Return (mk_line (str_repeat Filled 30) 5 0 100)
  /\ exists line, print_progress_bar 29 100 default_bar_length = Return line.
Proof.
  destruct print_progress_bar_division_safe as (_ & Z0 & P).
  split.
  - apply (Z0 5). split; [lia | reflexivity].
  - apply (P 29 100); [lia | reflexivity].
Defined.

(* ====================================================================== *)
(** * Further properties *)


(** ** Dictionaries in order of first appearance *)

Lemma filter_filter {A : Type} (p q : A -> bool) (l : list A) :
  filter p (filter q l) = filter (fun x => q x && p x) l.
Proof.
  induction l as [|x l IH]; simpl; [reflexivity|].
  destruct (q x); simpl; [destruct (p x)|]; now rewrite IH.
Qed.

Lemma filter_all {A : Type} (p : A -> bool) (l : list A) :
  (forall x, In x l -> p x = true) -> filter p l = l.
Proof.
  induction l as [|x l IH]; intros H; simpl; [reflexivity|].
  rewrite (H x) by (simpl; auto). f_equal. apply IH. intros y Hy. apply H. simpl; auto.
Qed.

Section FirstSeen.
Variables K V : Type.
Variable eqb : K -> K -> bool.
Hypothesis eqb_eq : forall a b, eqb a b = true <-> a = b.
Variable key : V -> option K.

Lemma eqb_same (a : K) : eqb a a = true.
Proof. now apply eqb_eq. Qed.

Lemma existsb_eqb_In (k : K) (ks : list K) : existsb (eqb k) ks = true <-> In k ks.
Proof.
  rewrite existsb_exists. split.
  - intros (x & Hx & E). apply eqb_eq in E. now subst.
  - intros H. exists k. split; [exact H | apply eqb_same].
Qed.

Lemma keys_append (k : K) (v : V) (d : DefaultDict.t K V) :
  DefaultDict.keys (DefaultDict.append eqb k v d)
  = if existsb (eqb k) (DefaultDict.keys d) then DefaultDict.keys d
    else DefaultDict.keys d ++ [k].
Proof.
  unfold DefaultDict.keys. induction d as [|[k' vs] d IH]; simpl; [reflexivity|].
  destruct (eqb k k') eqn:E; simpl; [reflexivity|].
  rewrite IH. now destruct (existsb (eqb k) (map fst d)).
Qed.

(** The keys of a dictionary filled by [group_step]: those it had, then the
    new ones in order of first appearance. *)
Lemma keys_group (xs : list V) :
  forall d : DefaultDict.t K V,
    DefaultDict.keys (fold_left (DefaultDict.group_step eqb key) xs d)
    = DefaultDict.keys d
      ++ filter (fun k => negb (existsb (eqb k) (DefaultDict.keys d)))
                (first_seen eqb (key_list key xs)).
Proof.
  induction xs as [|x xs IH]; intros d; simpl.
  - now rewrite app_nil_r.
  - rewrite IH.
    assert (S : DefaultDict.group_step eqb key d x
                = match key x with Some k => DefaultDict.append eqb k x d | None => d end)
      by reflexivity.
    rewrite S. clear S.
    change (key_list key (x :: xs))
      with ((match key x with Some k => [k] | None => [] end) ++ key_list key xs).
    destruct (key x) as [k|]; [|reflexivity].
    rewrite keys_append. cbn [app first_seen filter].
    destruct (existsb (eqb k) (DefaultDict.keys d)) eqn:E; cbn [negb].
    + f_equal. rewrite filter_filter. apply filter_ext. intros k'.
      destruct (eqb k' k) eqn:E'; cbn [negb andb]; [|reflexivity].
      apply eqb_eq in E'. subst k'. now rewrite E.
    + rewrite <- app_assoc. cbn [app]. f_equal. f_equal.
      rewrite filter_filter. apply filter_ext. intros k'.
      rewrite existsb_app. cbn [existsb]. rewrite orb_false_r, negb_orb.
      apply andb_comm.
Qed.

Lemma entries_of_keys (d : DefaultDict.t K V) :
  NoDup (DefaultDict.keys d) ->
  d = map (fun k => (k, DefaultDict.get eqb k d)) (DefaultDict.keys d).
Proof.
  unfold DefaultDict.keys. induction d as [|[k vs] d IH]; simpl; intros H; [reflexivity|].
  inversion H as [|? ? Hn Hd]; subst. rewrite eqb_same. f_equal.
  rewrite (IH Hd) at 1. apply map_ext_in. intros k' Hk'.
  destruct (eqb k' k) eqn:E; [|reflexivity].
  apply eqb_eq in E. subst k'. contradiction.
Qed.

(** The dictionary built from [xs]: one entry per key, in order of first
    appearance, holding the elements with that key in order. *)
Lemma group_entries (xs : list V) :
  fold_left (DefaultDict.group_step eqb key) xs []
  = map (fun k => (k, filter (DefaultDict.has_key eqb key k) xs))
        (first_seen eqb (key_list key xs)).
Proof.
  assert (N : NoDup (DefaultDict.keys (fold_left (DefaultDict.group_step eqb key) xs [])))
    by (apply (DefaultDictFacts.NoDup_keys_group K V eqb eqb_eq); constructor).
  rewrite (entries_of_keys _ N) at 1.
  rewrite keys_group. cbn [DefaultDict.keys map app existsb negb].
  rewrite filter_all by reflexivity.
  apply map_ext. intros k. f_equal.
  now rewrite (DefaultDictFacts.get_group K V eqb eqb_eq).
Qed.

End FirstSeen.

Lemma flat_map_map {A B C : Type} (f : A -> B) (g : B -> list C) (l : list A) :
  flat_map g (map f l) = flat_map (fun x => g (f x)) l.
Proof. induction l as [|x l IH]; simpl; [reflexivity | now rewrite IH]. Qed.

Lemma flat_map_ext_In {A B : Type} (f g : A -> list B) (l : list A) :
  (forall x, In x l -> f x = g x) -> flat_map f l = flat_map g l.
Proof.
  induction l as [|x l IH]; intros H; simpl; [reflexivity|].
  rewrite (H x) by (simpl; auto). f_equal. apply IH. intros y Hy. apply H. simpl; auto.
Qed.

Lemma flat_map_singletons {A B : Type} (f : A -> B) (p : A -> bool) (l : list A) :
  flat_map (fun x => if p x then [f x] else []) l = map f (filter p l).
Proof.
  induction l as [|x l IH]; simpl; [reflexivity|].
  destruct (p x); simpl; now rewrite IH.
Qed.

Section Declarative.
Variable os : os_world.
Variable sha : hashlib.

Lemma has_key_size (size : Z) (p : path) :
  DefaultDict.has_key Z.eqb (st_size os) size p = size_is os size p.
Proof.
  unfold DefaultDict.has_key, size_is. destruct (st_size os p); [apply Z.eqb_sym | reflexivity].
Qed.

Lemma has_key_digest (h : string) (p : path) :
  h <> ""%string ->
  DefaultDict.has_key String.eqb (hash_key os sha) h p = digest_is os sha h p.
Proof.
  intros Hh. unfold DefaultDict.has_key, hash_key, digest_is.
  destruct (truthy (compute_file_hash os sha p)) eqn:T.
  - apply String.eqb_sym.
  - symmetry. apply String.eqb_neq. intros E. rewrite E in T.
    apply truthy_true in Hh. congruence.
Qed.

Lemma key_list_digests (paths : list path) (h : string) :
  In h (key_list (hash_key os sha) paths) -> h <> ""%string.
Proof.
  unfold key_list. rewrite in_flat_map. intros (p & _ & Hp).
  destruct (hash_key os sha p) as [h'|] eqn:E; [|contradiction].
  destruct Hp as [<- | []]. apply hash_key_some in E. tauto.
Qed.

Lemma first_seen_incl {K : Type} (eqb : K -> K -> bool) (ks : list K) (k : K) :
  In k (first_seen eqb ks) -> In k ks.
Proof.
  revert k. induction ks as [|a ks IH]; simpl; intros k H; [exact H|].
  destruct H as [-> | H]; [auto|]. apply filter_In in H. right. apply IH, H.
Qed.

Lemma confirmed_expected (size : Z) (paths : list path) :
  confirmed os sha size paths = expected_confirmed os sha size paths.
Proof.
  unfold confirmed, expected_confirmed, group_by_hash.
  rewrite emit_groups_values. cbn [app].
  rewrite (group_entries _ _ String.eqb String.eqb_eq).
  unfold DefaultDict.values. rewrite map_map. cbn [snd].
  rewrite <- flat_map_singletons with (f := mk_group size).
  rewrite flat_map_map.
  apply flat_map_ext_In. intros h Hh.
  apply first_seen_incl, key_list_digests in Hh.
  rewrite (filter_ext _ _ (fun p => has_key_digest h p Hh)). reflexivity.
Qed.

Lemma emitted_expected (all_files : list path) :
  flat_map (emitted os sha) (group_by_size os all_files)
  = expected_groups os sha all_files.
Proof.
  unfold expected_groups. rewrite group_by_size_eq.
  rewrite (group_entries _ _ Z.eqb Z.eqb_eq), flat_map_map.
  apply flat_map_ext. intros size. unfold emitted.
  rewrite (filter_ext _ _ (has_key_size size)).
  now rewrite confirmed_expected.
Qed.

End Declarative.

(** ** Files that cannot be hashed *)

(** C5 (skip isolation): a file on which [compute_file_hash] fails changes
    nothing for the others.  Hashing a size group that holds it emits the
    groups that hashing the group without it emits, and these are the
    remaining files grouped by their digests: for each digest, in order of
    first appearance, the remaining files that have it, when there are at
    least two.  The file itself is in none of them, and two of the remaining
    files are together exactly when they were hashed to the same digest; in
    a whole scan, such a file of non-zero size is in no emitted group. *)
Theorem skip_isolation (os : os_world) (sha : hashlib) (u : path) :
  compute_file_hash os sha u = ""%string ->
  (forall total_count size l1 l2 st,
      0 <= processed_count st ->
      processed_count st + len (l1 ++ u :: l2) <= total_count ->
      exists st1 st2,
        hash_pass os sha total_count size (l1 ++ u :: l2) st = Return st1
        /\ hash_pass os sha total_count size (l1 ++ l2) st = Return st2
        /\ duplicates st1 = duplicates st ++ expected_confirmed os sha size (l1 ++ l2)
        /\ duplicates st2 = duplicates st ++ expected_confirmed os sha size (l1 ++ l2)
        /\ (forall g,
              In g (expected_confirmed os sha size (l1 ++ l2)) -> ~ In u (files g))
        /\ (forall f1 f2,
              In f1 (l1 ++ l2) -> In f2 (l1 ++ l2) -> f1 <> f2 ->
              (together (expected_confirmed os sha size (l1 ++ l2)) f1 f2
               <-> compute_file_hash os sha f1 <> ""%string
                   /\ compute_file_hash os sha f1 = compute_file_hash os sha f2)))
  /\ (forall all_files,
        st_size os u <> Some 0 ->
        exists st,
          detect os sha all_files = Return st
          /\ forall g, In g (duplicates st) -> ~ In u (files g)).
Proof.
  intros Hu. split.
  - intros total_count size l1 l2 st H0 H1.
    assert (L : len (l1 ++ u :: l2) = len (l1 ++ l2) + 1)
      by (rewrite !len_app, len_cons; lia).
    destruct (hash_pass_returns os sha total_count size (l1 ++ u :: l2) st H0 H1)
      as (lines1 & R1).
    destruct (hash_pass_returns os sha total_count size (l1 ++ l2) st H0)
      as (lines2 & R2); [lia|].
    do 2 eexists.
    split; [exact R1|]. split; [exact R2|]. cbn [duplicates].
    rewrite <- (confirmed_expected os sha size (l1 ++ l2)).
    split; [|split; [reflexivity|split]].
    + unfold confirmed. now rewrite group_by_hash_skip.
    + intros g Hg. exact (unreadable_not_confirmed os sha size _ u g Hu Hg).
    + intros f1 f2 I1 I2 Hne. split.
      * intros (g & Hg & G1 & G2). apply in_confirmed in Hg.
        destruct Hg as (h & -> & _). cbn [files] in G1, G2.
        apply in_hash_group in G1, G2.
        destruct G1 as (_ & E1 & N), G2 as (_ & E2 & _). split; congruence.
      * intros [N E].
        exists (mk_group size
                  (filter (DefaultDict.has_key String.eqb (hash_key os sha)
                             (compute_file_hash os sha f1)) (l1 ++ l2))).
        assert (G1 : In f1 (filter (DefaultDict.has_key String.eqb (hash_key os sha)
                                      (compute_file_hash os sha f1)) (l1 ++ l2)))
          by (apply in_hash_group; auto).
        assert (G2 : In f2 (filter (DefaultDict.has_key String.eqb (hash_key os sha)
                                      (compute_file_hash os sha f1)) (l1 ++ l2)))
          by (apply in_hash_group; auto).
        split; [|split; assumption].
        apply in_confirmed. exists (compute_file_hash os sha f1).
        split; [reflexivity|]. cbn [files]. exact (two_members f1 f2 _ G1 G2 Hne).
  - intros all_files Hs.
    destruct (detect_returns os sha all_files) as (lines & R).
    eexists. split; [exact R|]. cbn [duplicates]. intros g Hg Hin.
    apply in_flat_map in Hg. destruct Hg as ([size paths] & Hit & Hg).
    apply in_group_by_size in Hit. destruct Hit as [-> _].
    apply in_emitted in Hg. destruct Hg as [_ [[Z0 ->] | [NZ Hg]]].
    + cbn [files] in Hin. apply in_size_group in Hin. destruct Hin as [_ Hin].
      congruence.
    + exact (unreadable_not_confirmed os sha size _ u g Hu Hg Hin).
Qed.

Lemma skip_isolation_witness :
  compute_file_hash Demo.os Demo.sha Demo.locked = ""%string
  /\ (exists st1 st2,
         hash_pass Demo.os Demo.sha 8 1 ([Demo.a] ++ Demo.locked :: [Demo.b; Demo.c])
                   (mk_state 0 [] [] []) = Return st1
         /\ hash_pass Demo.os Demo.sha 8 1 ([Demo.a] ++ [Demo.b; Demo.c])
                      (mk_state 0 [] [] []) = Return st2
         /\ duplicates st1 = [mk_group 1 [Demo.a; Demo.b]]
         /\ duplicates st2 = [mk_group 1 [Demo.a; Demo.b]])
  /\ exists st,
       detect Demo.os Demo.sha Demo.all_files = Return st
       /\ forall g, In g (duplicates st) -> ~ In Demo.locked (files g).
Proof.
  assert (H : compute_file_hash Demo.os Demo.sha Demo.locked = ""%string)
    by reflexivity.
  split; [exact H|].
  destruct (skip_isolation Demo.os Demo.sha Demo.locked H) as [P S].
  split.
  - destruct (P 8 1 [Demo.a] [Demo.b; Demo.c] (mk_state 0 [] [] []))
      as (st1 & st2 & R1 & R2 & D1 & D2 & _); [vm_compute; discriminate..|].
    exists st1, st2. split; [exact R1|]. split; [exact R2|].
    split; [rewrite D1 | rewrite D2]; reflexivity.
  - apply (S Demo.all_files). vm_compute. discriminate.
Defined.


(** ** What the scan reports and what it hashes *)

(** X1. [detect] computes the declarative grouping: sizes in order of first
    appearance, digests in order of first appearance within a size, members
    in enumeration order. *)
Theorem detect_computes_expected_groups (os : os_world) (sha : hashlib)
    (all_files : list path) :
  exists st,
    detect os sha all_files = Return st
    /\ duplicates st = expected_groups os sha all_files.
Proof.
  destruct (detect_returns os sha all_files) as (lines & R).
  eexists. split; [exact R|]. cbn [duplicates]. apply emitted_expected.
Qed.

(** X2. An emitted group leaves no duplicate out: it holds every enumerated file
    of its size (and, for a non-zero size, of its digest), in enumeration
    order. *)
Theorem groups_are_complete (os : os_world) (sha : hashlib) (all_files : list path) :
  exists st,
    detect os sha all_files = Return st
    /\ forall g,
         In g (duplicates st) ->
         (file_size g = 0 /\ files g = filter (size_is os 0) all_files)
         \/ (file_size g <> 0
             /\ exists h,
                  h <> ""%string
                  /\ files g
                     = filter (fun p => size_is os (file_size g) p && digest_is os sha h p)
                              all_files).
Proof.
  destruct (detect_returns os sha all_files) as (lines & R).
  eexists. split; [exact R|]. cbn [duplicates]. intros g Hg.
  apply in_flat_map in Hg. destruct Hg as ([size paths] & Hit & Hg).
  apply in_group_by_size in Hit. destruct Hit as [-> _].
  apply in_emitted in Hg. destruct Hg as [_ [[-> ->] | [NZ Hg]]].
  - left. split; [reflexivity|]. cbn [files].
    apply filter_ext, has_key_size.
  - right. apply in_confirmed in Hg. destruct Hg as (h & -> & Hl). cbn [file_size files] in *.
    split; [exact NZ|].
    assert (Hh : h <> ""%string).
    { destruct (filter (DefaultDict.has_key String.eqb (hash_key os sha) h) _)
        as [|p l] eqn:E; [cbn in Hl; lia|].
      assert (Hp : In p (p :: l)) by (simpl; auto).
      rewrite <- E in Hp. apply in_hash_group in Hp. tauto. }
    exists h. split; [exact Hh|].
    rewrite filter_filter. apply filter_ext. intros p.
    now rewrite has_key_size, (has_key_digest os sha h p Hh).
Qed.

(** X3. Every reported file was enumerated. *)
Theorem reported_files_were_enumerated (os : os_world) (sha : hashlib)
    (all_files : list path) :
  exists st,
    detect os sha all_files = Return st
    /\ forall g p, In g (duplicates st) -> In p (files g) -> In p all_files.
Proof.
  destruct (detect_returns os sha all_files) as (lines & R).
  eexists. split; [exact R|]. cbn [duplicates]. intros g p Hg Hp.
  apply in_flat_map in Hg. destruct Hg as ([size paths] & Hit & Hg).
  apply in_group_by_size in Hit. destruct Hit as [-> _].
  pose proof (emitted_files os sha _ g p Hg Hp) as H. cbn [snd] in H.
  apply in_size_group in H. tauto.
Qed.

Lemma in_hashed_of (item : Z * list path) (p : path) :
  In p (hashed_of item) <-> fst item <> 0 /\ 1 < len (snd item) /\ In p (snd item).
Proof.
  destruct item as [size paths]. unfold hashed_of. cbn [fst snd].
  destruct (len paths <? 2) eqn:E2.
  - apply Z.ltb_lt in E2. simpl. split; [easy | lia].
  - apply Z.ltb_ge in E2. destruct (size =? 0) eqn:E0.
    + apply Z.eqb_eq in E0. simpl. split; [easy | tauto].
    + apply Z.eqb_neq in E0. split; [intros H; repeat split; auto; lia | tauto].
Qed.

(** X4. The hasher is called on exactly the candidates: the enumerated files of
    a non-zero size that at least two enumerated files have.  A file of
    unique size, an empty file and a file whose size cannot be read are
    never hashed. *)
Theorem hashed_exactly_the_candidates (os : os_world) (sha : hashlib)
    (all_files : list path) :
  exists st,
    detect os sha all_files = Return st
    /\ forall p,
         In p (hasher_calls st)
         <-> In p all_files
             /\ exists size,
                  st_size os p = Some size /\ size <> 0
                  /\ 2 <= len (filter (size_is os size) all_files).
Proof.
  destruct (detect_returns os sha all_files) as (lines & R).
  eexists. split; [exact R|]. cbn [hasher_calls]. intros p. split.
  - intros H. apply in_flat_map in H. destruct H as ([size paths] & Hit & Hp).
    apply in_hashed_of in Hp. cbn [fst snd] in Hp. destruct Hp as (NZ & Hl & Hp).
    apply in_group_by_size in Hit. destruct Hit as [-> _].
    rewrite (filter_ext _ _ (has_key_size os size)) in *.
    apply filter_In in Hp. destruct Hp as [Hp S]. split; [exact Hp|].
    exists size. unfold size_is in S. destruct (st_size os p) as [s|]; [|discriminate].
    apply Z.eqb_eq in S. subst s. repeat split; auto. lia.
  - intros (Hp & size & S & NZ & Hl).
    apply in_flat_map. exists (size, filter (size_is os size) all_files).
    assert (Hin : In p (filter (size_is os size) all_files)).
    { apply filter_In. split; [exact Hp|]. unfold size_is. rewrite S. apply Z.eqb_refl. }
    split.
    + apply in_group_by_size. split.
      * symmetry. apply filter_ext, has_key_size.
      * intros E. now rewrite E in Hin.
    + apply in_hashed_of. cbn [fst snd]. repeat split; auto. lia.
Qed.

Lemma NoDup_flat_map {A B : Type} (f : A -> list B) (l : list A) :
  (forall x, In x l -> NoDup (f x)) ->
  ForallOrdPairs (fun x y => forall b, In b (f x) -> In b (f y) -> False) l ->
  NoDup (flat_map f l).
Proof.
  intros H F. induction F as [|x l Hx F IH]; simpl; [constructor|].
  rewrite Forall_forall in Hx.
  assert (N1 : NoDup (f x)) by (apply H; simpl; auto).
  assert (N2 : NoDup (flat_map f l)) by (apply IH; intros y Hy; apply H; simpl; auto).
  clear IH H. induction N1 as [|b bs Hb N1 IH]; simpl; [exact N2|].
  constructor.
  - rewrite in_app_iff. intros [Hin | Hin]; [contradiction|].
    apply in_flat_map in Hin. destruct Hin as (y & Hy & Hin).
    apply (Hx y Hy b); simpl; auto.
  - apply IH. intros y Hy c Hc. apply (Hx y Hy c). simpl; auto.
Qed.

(** X5. Enumerated once, hashed at most once. *)
Theorem no_file_hashed_twice (os : os_world) (sha : hashlib) (all_files : list path) :
  NoDup all_files ->
  exists st,
    detect os sha all_files = Return st /\ NoDup (hasher_calls st).
Proof.
  intros N. destruct (detect_returns os sha all_files) as (lines & R).
  eexists. split; [exact R|]. cbn [hasher_calls].
  apply NoDup_flat_map.
  - intros [size paths] Hit. apply in_group_by_size in Hit. destruct Hit as [-> _].
    unfold hashed_of. destruct (len _ <? 2); [constructor|].
    destruct (size =? 0); [constructor|]. now apply NoDup_filter.
  - apply FOP_impl_In
      with (R := fun a b : Z * list path => forall x, In x (snd a) -> In x (snd b) -> False).
    + intros a b _ _ H p Pa Pb. apply in_hashed_of in Pa, Pb. apply (H p); tauto.
    + rewrite group_by_size_eq. apply grouped_disjoint, Z.eqb_eq.
Qed.

Lemma no_file_hashed_twice_witness :
  NoDup Demo.all_files
  /\ exists st,
       detect Demo.os Demo.sha Demo.all_files = Return st /\ NoDup (hasher_calls st).
Proof.
  assert (N : NoDup Demo.all_files).
  { unfold Demo.all_files.
    repeat (constructor; [simpl; intros H; repeat (destruct H as [H | H]; try discriminate H);
                          exact H|]).
    constructor. }
  split; [exact N|].
  exact (no_file_hashed_twice Demo.os Demo.sha Demo.all_files N).
Defined.

(** X6. The processed count at the end of the scan is the number of enumerated
    files whose size could be read; it is the number of enumerated files when
    every size could be read. *)
Theorem processed_count_is_sized_files (os : os_world) (sha : hashlib)
    (all_files : list path) :
  exists st,
    detect os sha all_files = Return st
    /\ processed_count st = len (filter (has_size os) all_files)
    /\ ((forall p, In p all_files -> has_size os p = true) ->
        processed_count st = len all_files).
Proof.
  destruct (detect_returns os sha all_files) as (lines & R).
  eexists. split; [exact R|]. cbn [processed_count]. split; [reflexivity|].
  intros H. now rewrite filter_all.
Qed.

Lemma processed_count_is_sized_files_witness :
  (forall p, In p [Demo.a; Demo.b; Demo.empty1] -> has_size Demo.os p = true)
  /\ exists st,
       detect Demo.os Demo.sha [Demo.a; Demo.b; Demo.empty1] = Return st
       /\ processed_count st = len [Demo.a; Demo.b; Demo.empty1].
Proof.
  assert (H : forall p, In p [Demo.a; Demo.b; Demo.empty1] -> has_size Demo.os p = true).
  { intros p Hp. simpl in Hp. repeat (destruct Hp as [<- | Hp]; [reflexivity|]). contradiction. }
  split; [exact H|].
  destruct (processed_count_is_sized_files Demo.os Demo.sha [Demo.a; Demo.b; Demo.empty1])
    as (st & R & _ & P).
  exists st. split; [exact R | exact (P H)].
Defined.


(** ** Values of the progress bar *)

Module PyFloatBounds.
Import PyFloat.

Lemma rne_le_int (a b N : Z) : 0 < b -> a <= N * b -> rne a b <= N.
Proof.
  intros Hb H.
  assert (Hq : a / b <= N) by (apply Z.div_le_upper_bound; lia).
  pose proof (PyFloatFacts.rne_bounds a b Hb) as [_ R].
  destruct (Z.eq_dec (a / b) N) as [E | NE]; [|lia].
  pose proof (Z.div_mod a b ltac:(lia)) as D.
  pose proof (Z.mod_pos_bound a b Hb) as M.
  assert (Z0 : a mod b = 0) by nia.
  unfold rne. rewrite Z0. cbn [Z.mul]. rewrite (proj2 (Z.ltb_lt 0 b) Hb). lia.
Qed.

Lemma rne_nonneg (a b : Z) : 0 < b -> 0 <= a -> 0 <= rne a b.
Proof.
  intros Hb Ha. pose proof (PyFloatFacts.rne_bounds a b Hb) as [R _].
  pose proof (Z.div_pos a b Ha Hb). lia.
Qed.

(** A positive fraction that is at most the integer [B], [B < 2^53], rounds
    to a double that is at most [B]. *)
Lemma round_le_int (n d B : Z) :
  0 < n -> 0 < d -> n <= B * d -> 0 < B < 2 ^ 53 ->
  exists m e, round_double n d = Finite m e /\ e <= 0 /\ 0 <= m <= B * 2 ^ (- e).
Proof.
  intros Hn Hd H HB.
  assert (Hb : below n d 53).
  { unfold below, scale. cbn [fst snd]. change (Z.max 0 (- 53)) with 0.
    change (Z.max 0 53) with 53. rewrite Z.pow_0_r. nia. }
  pose proof (PyFloatFacts.floor_log2_lt n d 53 Hn Hd Hb) as Hfl.
  unfold round_double. rewrite (proj2 (Z.eqb_neq n 0)) by lia.
  rewrite (Z.abs_eq n) by lia.
  remember (exponent n d) as e eqn:Ee.
  assert (He : e <= 0) by (subst e; unfold exponent, emin; lia).
  clear Ee. unfold scale. rewrite (Z.max_r 0 (- e)), (Z.max_l 0 e) by lia.
  rewrite Z.pow_0_r, Z.mul_1_r.
  assert (Hp : 0 < 2 ^ (- e)) by (apply Z.pow_pos_nonneg; lia).
  assert (R1 : rne (n * 2 ^ (- e)) d <= B * 2 ^ (- e)) by (apply rne_le_int; nia).
  assert (R0 : 0 <= rne (n * 2 ^ (- e)) d) by (apply rne_nonneg; nia).
  assert (Hov : overflows (rne (n * 2 ^ (- e)) d) e = false).
  { unfold overflows. destruct (0 <=? e) eqn:Z0; [|reflexivity]. cbn [andb].
    apply Z.leb_le in Z0. assert (e = 0) by lia. subst e.
    cbn [Z.opp] in *. rewrite ?Z.pow_0_r, ?Z.mul_1_r in *.
    apply Z.leb_gt. rewrite Z.abs_eq by lia.
    apply Z.le_lt_trans with (2 ^ 53); [lia | reflexivity]. }
  rewrite Hov. exists (rne (n * 2 ^ (- e)) d), e. auto.
Qed.

(** The fraction shown by the bar is a double between 0 and 1. *)
Lemma fraction_in_unit (current total : Z) :
  0 <= current <= total ->
  exists m e,
    (if 0 <? total then true_divide current total else Return one)
    = Return (Finite m e)
    /\ e <= 0 /\ 0 <= m <= 2 ^ (- e).
Proof.
  intros H. destruct (0 <? total) eqn:T.
  - apply Z.ltb_lt in T. unfold true_divide.
    rewrite (proj2 (Z.eqb_neq total 0)), (proj2 (Z.ltb_ge total 0)) by lia.
    destruct (Z.eq_dec current 0) as [-> | NZ].
    + exists 0, 0. cbn. repeat split; lia.
    + destruct (round_le_int current total 1) as (m & e & E & He & Hm); try lia.
      exists m, e. rewrite E. cbn. repeat split; lia.
  - exists 1, 0. cbn. repeat split; lia.
Qed.

(** A double in the unit range times the integer [B] is at most [B]. *)
Lemma mul_int_bound (m e M e' B : Z) :
  e <= 0 -> 0 <= m <= 2 ^ (- e) ->
  e' <= 0 -> M = B * 2 ^ (- e') -> 0 < B < 2 ^ 53 ->
  exists m2 e2,
    mul (Finite m e) (Finite M e') = Finite m2 e2
    /\ e2 <= 0 /\ 0 <= m2 <= B * 2 ^ (- e2).
Proof.
  intros He Hm He' HM HB. unfold mul, scale.
  rewrite Z.opp_involutive, Z.mul_1_l.
  rewrite (Z.max_l 0 (e + e')), (Z.max_r 0 (- (e + e'))) by lia.
  rewrite Z.pow_0_r, Z.mul_1_r.
  assert (P1 : 0 < 2 ^ (- e)) by (apply Z.pow_pos_nonneg; lia).
  assert (P2 : 0 < 2 ^ (- e')) by (apply Z.pow_pos_nonneg; lia).
  assert (P3 : 2 ^ (- (e + e')) = 2 ^ (- e) * 2 ^ (- e'))
    by (rewrite <- Z.pow_add_r by lia; f_equal; lia).
  destruct (Z.eq_dec m 0) as [-> | NZ].
  - cbn. exists 0, 0. cbn. repeat split; lia.
  - apply round_le_int; [subst M; nia | lia | rewrite P3; subst M; nia | lia].
Qed.

Lemma mul_comm (m1 e1 m2 e2 : Z) :
  mul (Finite m1 e1) (Finite m2 e2) = mul (Finite m2 e2) (Finite m1 e1).
Proof. unfold mul. now rewrite (Z.mul_comm m1 m2), (Z.add_comm e1 e2). Qed.

Lemma to_int_bound (m e B : Z) :
  e <= 0 -> 0 <= m <= B * 2 ^ (- e) ->
  exists k, to_int (Finite m e) = Return k /\ 0 <= k <= B.
Proof.
  intros He Hm. unfold to_int.
  rewrite (Z.max_l 0 e), (Z.max_r 0 (- e)) by lia. rewrite Z.pow_0_r, Z.mul_1_r.
  assert (P : 0 < 2 ^ (- e)) by (apply Z.pow_pos_nonneg; lia).
  eexists. split; [reflexivity|].
  rewrite Z.quot_div_nonneg by lia. split.
  - apply Z.div_pos; lia.
  - apply Z.div_le_upper_bound; lia.
Qed.

(** [t / t] is exactly 1.0. *)
Lemma true_divide_same (total : Z) :
  0 < total -> true_divide total total = Return (Finite (2 ^ 52) (- 52)).
Proof.
  intros H. unfold true_divide.
  rewrite (proj2 (Z.eqb_neq total 0)), (proj2 (Z.ltb_ge total 0)) by lia.
  unfold round_double. rewrite (proj2 (Z.eqb_neq total 0)) by lia.
  rewrite (Z.abs_eq total) by lia.
  assert (E : exponent total total = - 52).
  { unfold exponent, floor_log2, scale. rewrite Z.sub_diag. cbn [Z.opp Z.max Z.compare].
    rewrite Z.pow_0_r, Z.mul_1_r, Z.leb_refl. reflexivity. }
  rewrite E. unfold scale. change (Z.max 0 (- - 52)) with 52. change (Z.max 0 (- 52)) with 0.
  rewrite Z.pow_0_r, Z.mul_1_r.
  assert (R : rne (total * 2 ^ 52) total = 2 ^ 52).
  { unfold rne. rewrite (Z.mul_comm total), Z.div_mul, Z.mod_mul by lia.
    cbn [Z.mul]. now rewrite (proj2 (Z.ltb_lt 0 total) H). }
  rewrite R. reflexivity.
Qed.

End PyFloatBounds.

Lemma bind_return {A B : Type} (m : result A) (k : A -> result B) (b : B) :
  bind m k = Return b -> exists a, m = Return a /\ k a = Return b.
Proof. destruct m as [a|e]; simpl; intros H; [exists a; auto | discriminate]. Qed.

(** A progress line shows the counts it was called with. *)
Lemma print_progress_bar_shows (current total bar_length : Z) (line : progress_line) :
  print_progress_bar current total bar_length = Return line ->
  shown_current line = current /\ shown_total line = total.
Proof.
  unfold print_progress_bar. intros H.
  destruct (bind_return _ _ _ H) as (fraction & _ & H1).
  destruct (bind_return _ _ _ H1) as (hundred & _ & H2).
  destruct (bind_return _ _ _ H2) as (pct & _ & H3).
  destruct (bind_return _ _ _ H3) as (bl & _ & H4).
  destruct (bind_return _ _ _ H4) as (filled & _ & H5).
  inversion H5; subst. auto.
Qed.

Lemma print_progress_bar_in_range (current total : Z) :
  0 <= current <= total ->
  exists filled pct,
    print_progress_bar current total default_bar_length
    = Return (mk_line (str_repeat Filled filled ++ str_repeat Unfilled (30 - filled))
                      current total pct)
    /\ 0 <= filled <= 30
    /\ 0 <= pct <= 100
    /\ List.length (str_repeat Filled filled ++ str_repeat Unfilled (30 - filled)) = 30%nat.
Proof.
  intros H. unfold print_progress_bar.
  destruct (PyFloatBounds.fraction_in_unit current total H) as (m & e & F & He & Hm).
  rewrite F, of_int_100, of_int_default_bar_length. cbn [bind].
  destruct (PyFloatBounds.mul_int_bound m e 7036874417766400 (-46) 100)
    as (m1 & e1 & E1 & He1 & Hm1); try lia; try reflexivity.
  destruct (PyFloatBounds.mul_int_bound m e 8444249301319680 (-48) 30)
    as (m2 & e2 & E2 & He2 & Hm2); try lia; try reflexivity.
  rewrite PyFloatBounds.mul_comm in E2.
  destruct (PyFloatBounds.to_int_bound m1 e1 100 He1 Hm1) as (pct & P & Hp).
  destruct (PyFloatBounds.to_int_bound m2 e2 30 He2 Hm2) as (filled & Q & Hf).
  rewrite E1, P. cbn [bind]. rewrite E2, Q. cbn [bind].
  exists filled, pct. split; [reflexivity|]. split; [exact Hf|]. split; [exact Hp|].
  unfold str_repeat. rewrite length_app, !repeat_length. lia.
Qed.

(** X7. For a count between 0 and the total, both of at most
    [int_max_str_digits] digits so that they can be shown, the bar has
    exactly 30 cells, filled ones first, and the percentage is between 0 and
    100. *)
Theorem progress_bar_geometry (current total : Z) :
  0 <= current <= total ->
  total < 10 ^ int_max_str_digits ->
  exists filled pct,
    print_progress_bar current total default_bar_length
    = Return (mk_line (str_repeat Filled filled ++ str_repeat Unfilled (30 - filled))
                      current total pct)
    /\ 0 <= filled <= 30
    /\ 0 <= pct <= 100
    /\ List.length (str_repeat Filled filled ++ str_repeat Unfilled (30 - filled)) = 30%nat.
Proof. intros H _. exact (print_progress_bar_in_range current total H). Qed.

Lemma progress_bar_geometry_witness :
  0 <= 29 <= 100
  /\ 100 < 10 ^ int_max_str_digits
  /\ exists filled pct,
       print_progress_bar 29 100 default_bar_length
       = Return (mk_line (str_repeat Filled filled ++ str_repeat Unfilled (30 - filled))
                         29 100 pct)
       /\ 0 <= filled <= 30 /\ 0 <= pct <= 100.
Proof.
  assert (H : 0 <= 29 <= 100) by lia.
  assert (L : 100 < 10 ^ int_max_str_digits) by reflexivity.
  split; [exact H|]. split; [exact L|].
  destruct (progress_bar_geometry 29 100 H L) as (filled & pct & E & Hf & Hp & _).
  exists filled, pct. auto.
Defined.

Lemma print_progress_bar_full_and_empty (total : Z) :
  0 < total ->
  print_progress_bar total total default_bar_length
  = Return (mk_line (str_repeat Filled 30) total total 100)
  /\ print_progress_bar 0 total default_bar_length
     = Return (mk_line (str_repeat Unfilled 30) 0 total 0).
Proof.
  intros H. unfold print_progress_bar. rewrite (proj2 (Z.ltb_lt 0 total) H). split.
  - rewrite (PyFloatBounds.true_divide_same total H). reflexivity.
  - unfold PyFloat.true_divide.
    rewrite (proj2 (Z.eqb_neq total 0)), (proj2 (Z.ltb_ge total 0)) by lia.
    reflexivity.
Qed.

(** X8. For a total of at most [int_max_str_digits] digits, so that it can be
    shown: at completion the bar is full and shows 100%; before anything is
    processed it is empty and shows 0%. *)
Theorem progress_bar_endpoints (total : Z) :
  0 < total ->
  total < 10 ^ int_max_str_digits ->
  print_progress_bar total total default_bar_length
  = Return (mk_line (str_repeat Filled 30) total total 100)
  /\ print_progress_bar 0 total default_bar_length
     = Return (mk_line (str_repeat Unfilled 30) 0 total 0).
Proof. intros H _. exact (print_progress_bar_full_and_empty total H). Qed.

Lemma progress_bar_endpoints_witness :
  0 < 8
  /\ 8 < 10 ^ int_max_str_digits
  /\ print_progress_bar 8 8 default_bar_length
     = Return (mk_line (str_repeat Filled 30) 8 8 100)
  /\ print_progress_bar 0 8 default_bar_length
     = Return (mk_line (str_repeat Unfilled 30) 0 8 0).
Proof.
  assert (H : 0 < 8) by lia.
  assert (L : 8 < 10 ^ int_max_str_digits) by reflexivity.
  split; [exact H|]. split; [exact L|]. exact (progress_bar_endpoints 8 H L).
Defined.


(** ** The progress lines of a scan *)

Lemma sorted_last_is_max (l : list Z) (x : Z) :
  StronglySorted Z.lt (l ++ [x]) -> forall a, In a (l ++ [x]) -> a <= x.
Proof.
  induction l as [|b l IH]; simpl; intros S a Ha.
  - destruct Ha as [<- | []]. lia.
  - apply StronglySorted_inv in S. destruct S as [S F].
    destruct Ha as [<- | Ha]; [|now apply IH].
    rewrite Forall_forall in F. assert (b < x) by (apply F, in_or_app; simpl; auto). lia.
Qed.

Lemma sorted_snoc (l : list Z) (c : Z) :
  StronglySorted Z.lt l -> (forall a, In a l -> a < c) -> StronglySorted Z.lt (l ++ [c]).
Proof.
  induction 1 as [|b l S IH F]; intros H; simpl.
  - repeat constructor.
  - constructor.
    + apply IH. intros a Ha. apply H. simpl; auto.
    + apply Forall_app. split; [exact F|]. constructor; [|constructor]. apply H. simpl; auto.
Qed.

Lemma trace_nonneg (total : Z) (st : scan_state) :
  progress_trace_ok total st -> 0 <= processed_count st.
Proof.
  intros (_ & F & pre & line & E & L). rewrite E in F.
  apply Forall_app in F. destruct F as [_ F]. inversion F; subst. lia.
Qed.

(** Writing one more line, for a larger count, keeps the trace in order. *)
Lemma trace_extend (total : Z) (st : scan_state) (c : Z) (line : progress_line)
    (dups : list group) (calls : list path) :
  progress_trace_ok total st ->
  processed_count st < c ->
  print_progress_bar c total default_bar_length = Return line ->
  progress_trace_ok total (mk_state c dups calls (stdout st ++ [line])).
Proof.
  intros T Hc P. pose proof (trace_nonneg total st T) as H0.
  destruct T as (S & F & pre & last & E & L).
  destruct (print_progress_bar_shows _ _ _ _ P) as [C _].
  unfold progress_trace_ok. cbn [stdout processed_count]. split; [|split].
  - rewrite map_app. cbn [map]. rewrite C. apply sorted_snoc; [exact S|].
    intros a Ha. rewrite E, map_app in S, Ha. cbn [map] in S, Ha.
    pose proof (sorted_last_is_max _ _ S a Ha). lia.
  - apply Forall_app. split; [exact F|]. constructor; [|constructor].
    unfold rendered. rewrite C. split; [lia | exact P].
  - exists (stdout st), line. auto.
Qed.

Section TraceFacts.
Variable os : os_world.
Variable sha : hashlib.
Variable total : Z.

Lemma trace_same_stdout (st st' : scan_state) :
  progress_trace_ok total st ->
  stdout st' = stdout st -> processed_count st' = processed_count st ->
  progress_trace_ok total st'.
Proof. unfold progress_trace_ok. intros T -> ->. exact T. Qed.

Lemma hash_loop_trace (paths : list path) :
  forall fbh st fbh' st',
    for_each (hash_step os sha total) paths (fbh, st) = Return (fbh', st') ->
    progress_trace_ok total st -> progress_trace_ok total st'.
Proof.
  induction paths as [|p paths IH]; intros fbh st fbh' st' H T; cbn [for_each] in H.
  - inversion H; subst. exact T.
  - destruct (bind_return _ _ _ H) as ([fbh1 st1] & H1 & H2).
    apply (IH _ _ _ _ H2). clear H2 H IH.
    unfold hash_step in H1.
    destruct (bind_return _ _ _ H1) as (line & P & R). inversion R; subst.
    apply trace_extend; [exact T | lia | exact P].
Qed.

Lemma scan_size_group_trace (st st' : scan_state) (item : Z * list path) :
  scan_size_group os sha total st item = Return st' ->
  progress_trace_ok total st -> progress_trace_ok total st'.
Proof.
  destruct item as [size paths]. unfold scan_size_group. intros H T.
  destruct (len paths <? 2) eqn:E2.
  - inversion H; subst. exact T.
  - apply Z.ltb_ge in E2. destruct (size =? 0).
    + destruct (bind_return _ _ _ H) as (line & P & R). inversion R; subst.
      apply trace_extend; [exact T | lia | exact P].
    + unfold hash_pass in H.
      destruct (bind_return _ _ _ H) as ([fbh st1] & H1 & R). inversion R; subst.
      apply trace_same_stdout with (st := st1); [|reflexivity|reflexivity].
      exact (hash_loop_trace paths _ _ _ _ H1 T).
Qed.

Lemma scan_loop_trace (items : list (Z * list path)) :
  forall st st',
    for_each (scan_size_group os sha total) items st = Return st' ->
    progress_trace_ok total st -> progress_trace_ok total st'.
Proof.
  induction items as [|it items IH]; intros st st' H T; cbn [for_each] in H.
  - inversion H; subst. exact T.
  - destruct (bind_return _ _ _ H) as (st1 & H1 & H2).
    apply (IH _ _ H2). exact (scan_size_group_trace _ _ _ H1 T).
Qed.

End TraceFacts.

Lemma detect_trace (os : os_world) (sha : hashlib) (all_files : list path)
    (st : scan_state) :
  detect os sha all_files = Return st ->
  all_files <> [] ->
  progress_trace_ok (len all_files) st.
Proof.
  unfold detect. intros H NE.
  destruct (len all_files =? 0) eqn:E.
  - apply Z.eqb_eq in E. destruct all_files as [|x l]; [congruence|].
    rewrite len_cons in E. pose proof (len_nonneg l). lia.
  - destruct (bind_return _ _ _ H) as (line & P & L).
    apply (scan_loop_trace os sha _ _ _ _ L).
    destruct (print_progress_bar_shows _ _ _ _ P) as [C _].
    unfold progress_trace_ok. cbn [stdout processed_count map]. split; [|split].
    + repeat constructor.
    + constructor; [|constructor]. unfold rendered. rewrite C.
      split; [unfold unique_sized_files_count; apply len_nonneg | exact P].
    + exists [], line. auto.
Qed.

(** X9. Progress never goes backwards and never passes the total: the counts
    shown by the successive progress lines increase strictly, every line
    shows the number of enumerated files as its total and a count between 0
    and the final processed count, its bar has 30 cells and its percentage is
    between 0 and 100; the last line shows the final processed count. *)
Theorem progress_is_monotone (os : os_world) (sha : hashlib) (all_files : list path) :
  exists st,
    detect os sha all_files = Return st
    /\ StronglySorted Z.lt (map shown_current (stdout st))
    /\ processed_count st <= len all_files
    /\ Forall (fun line =>
                 shown_total line = len all_files
                 /\ 0 <= shown_current line <= processed_count st
                 /\ List.length (bar line) = 30%nat
                 /\ 0 <= percentage line <= 100)
              (stdout st)
    /\ (all_files <> [] ->
        exists pre line,
          stdout st = pre ++ [line] /\ shown_current line = processed_count st).
Proof.
  destruct (detect_returns os sha all_files) as (lines & R).
  eexists. split; [exact R|].
  destruct all_files as [|x l] eqn:EA.
  - cbn in R. inversion R; subst. cbn. repeat split; try constructor; try lia. congruence.
  - rewrite <- EA in *.
    assert (NE : all_files <> []) by (rewrite EA; discriminate).
    pose proof (detect_trace os sha all_files _ R NE) as (S & F & pre & line & E & L).
    cbn [stdout processed_count] in *.
    assert (B : len (filter (has_size os) all_files) <= len all_files)
      by (unfold len; apply inj_le, filter_length_le).
    split; [exact S|]. split; [exact B|]. split; [|intros _; exists pre, line; auto].
    apply Forall_forall. intros l0 Hl0.
    rewrite Forall_forall in F. destruct (F l0 Hl0) as [H0 Rd].
    assert (Hmax : shown_current l0 <= len (filter (has_size os) all_files)).
    { rewrite E, map_app in S. cbn [map] in S. rewrite <- L.
      apply (sorted_last_is_max _ _ S). rewrite E in Hl0.
      apply in_app_or in Hl0. apply in_or_app.
      destruct Hl0 as [Hl0 | [<- | []]]; [left; now apply in_map | right; simpl; auto]. }
    unfold rendered in Rd.
    destruct (print_progress_bar_shows _ _ _ _ Rd) as [_ Ht].
    destruct (print_progress_bar_in_range (shown_current l0) (len all_files))
      as (filled & pct & G & Hf & Hp & Hlen); [lia|].
    rewrite G in Rd. inversion Rd as [Eq]. rewrite <- Eq in *. cbn [bar percentage] in *.
    repeat split; try lia; try assumption.
Qed.

(** X10. When the size of every enumerated file can be read, the scan ends on a
    full bar: the last progress line reads total/total, 100%. *)
Theorem final_progress_line_is_complete (os : os_world) (sha : hashlib)
    (all_files : list path) :
  all_files <> [] ->
  (forall p, In p all_files -> has_size os p = true) ->
  exists st pre,
    detect os sha all_files = Return st
    /\ stdout st
       = pre ++ [mk_line (str_repeat Filled 30) (len all_files) (len all_files) 100].
Proof.
  intros NE H. destruct (detect_returns os sha all_files) as (lines & R).
  pose proof (detect_trace os sha all_files _ R NE) as (_ & F & pre & line & E & L).
  cbn [stdout processed_count] in *.
  rewrite filter_all in L by exact H.
  eexists. exists pre. split; [exact R|]. cbn [stdout]. rewrite E. f_equal. f_equal.
  rewrite E in F. apply Forall_app in F. destruct F as [_ F]. inversion F as [|? ? [_ Rd] _]; subst.
  unfold rendered in Rd. rewrite L in Rd.
  assert (T : 0 < len all_files).
  { destruct all_files as [|x l]; [congruence|]. rewrite len_cons. pose proof (len_nonneg l). lia. }
  rewrite (proj1 (print_progress_bar_full_and_empty (len all_files) T)) in Rd. now inversion Rd.
Qed.

Lemma final_progress_line_is_complete_witness :
  [Demo.a; Demo.b; Demo.empty1] <> []
  /\ (forall p, In p [Demo.a; Demo.b; Demo.empty1] -> has_size Demo.os p = true)
  /\ exists st pre,
       detect Demo.os Demo.sha [Demo.a; Demo.b; Demo.empty1] = Return st
       /\ stdout st = pre ++ [mk_line (str_repeat Filled 30) 3 3 100].
Proof.
  assert (NE : [Demo.a; Demo.b; Demo.empty1] <> []) by discriminate.
  assert (H : forall p, In p [Demo.a; Demo.b; Demo.empty1] -> has_size Demo.os p = true).
  { intros p Hp. simpl in Hp. repeat (destruct Hp as [<- | Hp]; [reflexivity|]). contradiction. }
  split; [exact NE|]. split; [exact H|].
  exact (final_progress_line_is_complete Demo.os Demo.sha _ NE H).
Defined.


(** ** Enumeration, completely *)

Lemma os_walk_below (e x : entry) (rel : path) :
  entry_at e rel x ->
  forall top children,
    x = Directory children ->
    In (top ++ rel, walk_files children) (os_walk top e).
Proof.
  induction 1 as [ch name c Hin | ch name d rest c Hin H IH]; intros top children E.
  - subst c. cbn [os_walk]. right. apply in_flat_map.
    exists (name, Directory children). split; [exact Hin|]. cbn [fst snd os_walk]. now left.
  - cbn [os_walk]. right. apply in_flat_map.
    exists (name, d). split; [exact Hin|]. cbn [fst snd].
    specialize (IH (top ++ [name]) children E).
    rewrite <- app_assoc in IH. exact IH.
Qed.

Lemma entry_at_parent (root c : entry) (p : path) :
  entry_at root p c ->
  exists rel name children,
    p = rel ++ [name] /\ In (name, c) children
    /\ (rel = [] /\ root = Directory children
        \/ entry_at root rel (Directory children)).
Proof.
  induction 1 as [ch name c Hin | ch name d rest c Hin H IH].
  - exists [], name, ch. auto.
  - destruct IH as (rel & n & children & -> & Hc & [[-> ->] | Hat]).
    + exists [name], n, children. repeat split; auto. right. now apply at_child.
    + exists (name :: rel), n, children. repeat split; auto. right.
      now apply at_below with (d := d).
Qed.

Lemma collect_step_all (root : path) (fs : list (string * entry)) :
  forall acc all_files,
    for_each (collect_step root) fs acc = Return all_files ->
    all_files = acc ++ collected (root, fs).
Proof.
  unfold collected. cbn [fst snd].
  induction fs as [|[name c] fs IH]; intros acc all_files H; cbn [for_each] in H.
  - inversion H; subst. cbn. now rewrite app_nil_r.
  - destruct (bind_return _ _ _ H) as (acc1 & H1 & H2).
    rewrite (IH _ _ H2). unfold collect_step in H1. cbn [fst snd] in H1.
    cbn [filter snd]. destruct (is_symlink c) as [[|]|]; cbn in H1; inversion H1; subst.
    + reflexivity.
    + cbn [map fst]. now rewrite <- app_assoc.
Qed.

Lemma collect_dir_all (walk : list (path * list (string * entry))) :
  forall acc all_files,
    for_each collect_dir walk acc = Return all_files ->
    all_files = acc ++ flat_map collected walk.
Proof.
  induction walk as [|[root fs] walk IH]; intros acc all_files H; cbn [for_each] in H.
  - inversion H; subst. cbn. now rewrite app_nil_r.
  - destruct (bind_return _ _ _ H) as (acc1 & H1 & H2).
    rewrite (IH _ _ H2). unfold collect_dir in H1. cbn [fst snd] in H1.
    rewrite (collect_step_all _ _ _ _ H1). cbn [flat_map]. now rewrite <- app_assoc.
Qed.

Lemma enumerate_returns_traversal (target_dir : entry) (all_files : list path) :
  enumerate target_dir = Return all_files -> traversal target_dir = Return all_files.
Proof.
  unfold enumerate. destruct (traversal target_dir) as [fs|e] eqn:T; cbn.
  - auto.
  - rewrite (traversal_raises_OSError target_dir e T). discriminate.
Qed.

Lemma enumerate_all (target_dir : entry) (all_files : list path) :
  enumerate target_dir = Return all_files ->
  all_files = flat_map collected (os_walk [] target_dir).
Proof.
  intros H. apply enumerate_returns_traversal in H.
  exact (collect_dir_all _ _ _ H).
Qed.

Lemma in_collected (root : path) (fs : list (string * entry)) (p : path) :
  In p (collected (root, fs))
  <-> exists name c, In (name, c) fs /\ p = root ++ [name] /\ is_symlink c = Return false.
Proof.
  unfold collected. cbn [fst snd]. rewrite in_map_iff. split.
  - intros ([name c] & <- & Hf). apply filter_In in Hf. destruct Hf as [Hf S]. cbn [snd fst] in *.
    exists name, c. destruct (is_symlink c) as [[|]|]; try discriminate. auto.
  - intros (name & c & Hf & -> & S). exists (name, c). split; [reflexivity|].
    apply filter_In. cbn [snd]. now rewrite S.
Qed.




Lemma for_each_raise_at {A S : Type} (body : S -> A -> result S) (xs : list A) :
  forall st e,
    for_each body xs st = Raise e ->
    exists x st', In x xs /\ body st' x = Raise e.
Proof.
  induction xs as [|x xs IH]; intros st e; cbn [for_each]; [discriminate|].
  destruct (body st x) as [st1|e1] eqn:B; cbn [bind].
  - intros H. destruct (IH _ _ H) as (y & st' & Hy & R). exists y, st'. simpl; auto.
  - inversion 1; subst. exists x, st. simpl; auto.
Qed.

Lemma for_each_return_at {A S : Type} (body : S -> A -> result S) (xs : list A) :
  forall st st',
    for_each body xs st = Return st' ->
    forall x, In x xs -> exists s s', body s x = Return s'.
Proof.
  induction xs as [|x xs IH]; intros st st' H y Hy; [contradiction|].
  cbn [for_each] in H. destruct (bind_return _ _ _ H) as (st1 & H1 & H2).
  destruct Hy as [<- | Hy]; [eauto | exact (IH _ _ H2 y Hy)].
Qed.

Lemma traversal_raises_iff (target_dir : entry) :
  (exists e, traversal target_dir = Raise e)
  <-> exists p, entry_at target_dir p Unreadable.
Proof.
  unfold traversal. split.
  - intros (e & H).
    destruct (for_each_raise_at _ _ _ _ H) as ([root fs] & acc & Hw & R).
    unfold collect_dir in R. cbn [fst snd] in R.
    destruct (for_each_raise_at _ _ _ _ R) as ([name c] & acc' & Hf & R').
    unfold collect_step in R'. cbn [fst snd] in R'.
    assert (c = Unreadable) by (destruct c; cbn in R'; try discriminate; reflexivity).
    subst c.
    destruct (os_walk_visits target_dir _ _ _ Hw) as (rel & ch & -> & Hat & ->).
    unfold walk_files in Hf. apply filter_In in Hf. destruct Hf as [Hf _].
    exists (rel ++ [name]). cbn [app] in *.
    destruct Hat as [[-> ->] | Hat].
    + now apply at_child.
    + apply entry_at_app with (d := Directory ch); [exact Hat | now apply at_child].
  - intros (p & Hat).
    destruct (entry_at_parent _ _ _ Hat) as (rel & name & children & -> & Hc & Hp).
    assert (Hw : In (rel, walk_files children) (os_walk [] target_dir)).
    { destruct Hp as [[-> ->] | Hp]; [now left|].
      exact (os_walk_below _ _ _ Hp [] children eq_refl). }
    assert (Hf : In (name, Unreadable) (walk_files children))
      by (unfold walk_files; apply filter_In; auto).
    destruct (for_each collect_dir (os_walk [] target_dir) []) as [all|e] eqn:T; [|eauto].
    exfalso.
    destruct (for_each_return_at _ _ _ _ T _ Hw) as (s & s' & R).
    unfold collect_dir in R. cbn [fst snd] in R.
    destruct (for_each_return_at _ _ _ _ R _ Hf) as (s1 & s1' & R').
    discriminate.
Qed.

Lemma enumerate_outcome (target_dir : entry) :
  (enumerate target_dir = Raise (SystemExit 1)
   <-> exists p, entry_at target_dir p Unreadable)
  /\ ((forall p, ~ entry_at target_dir p Unreadable) ->
      exists all_files, enumerate target_dir = Return all_files).
Proof.
  split; [split|].
  - intros H. apply traversal_raises_iff. unfold enumerate in H.
    destruct (traversal target_dir) as [fs|e]; [discriminate | eauto].
  - intros H. apply traversal_raises_iff in H. destruct H as (e & H).
    exact (enumerate_exits target_dir e H).
  - intros H. unfold enumerate.
    destruct (traversal target_dir) as [fs|e] eqn:T; [cbn; eauto|].
    exfalso. assert (X : exists e, traversal target_dir = Raise e) by eauto.
    apply traversal_raises_iff in X. destruct X as (p & X). exact (H p X).
Qed.

(** X12. For a tree within the recursion limit of [os.walk], the enumeration
    fails, with exit code 1, exactly when some entry that is not a directory
    cannot be examined; otherwise it returns. *)
Theorem enumerate_fails_iff_unreadable (target_dir : entry) :
  within_recursion_limit target_dir ->
  (enumerate target_dir = Raise (SystemExit 1)
   <-> exists p, entry_at target_dir p Unreadable)
  /\ ((forall p, ~ entry_at target_dir p Unreadable) ->
      exists all_files, enumerate target_dir = Return all_files).
Proof. intros _. exact (enumerate_outcome target_dir). Qed.

Lemma enumerate_fails_iff_unreadable_witness :
  within_recursion_limit
    (Directory [("a.txt"%string, RegularFile);
                ("sub"%string, Directory [("x"%string, Unreadable)])])
  /\ enumerate (Directory [("a.txt"%string, RegularFile);
                           ("sub"%string, Directory [("x"%string, Unreadable)])])
     = Raise (SystemExit 1)
  /\ within_recursion_limit Demo.tree
  /\ exists all_files, enumerate Demo.tree = Return all_files.
Proof.
  assert (L1 : within_recursion_limit
                 (Directory [("a.txt"%string, RegularFile);
                             ("sub"%string, Directory [("x"%string, Unreadable)])]))
    by (unfold within_recursion_limit; cbn; lia).
  assert (L2 : within_recursion_limit Demo.tree)
    by (unfold within_recursion_limit; cbn; lia).
  split; [exact L1|]. split; [|split; [exact L2|]].
  - apply (enumerate_fails_iff_unreadable _ L1).
    exists ["sub"%string; "x"%string].
    apply at_below with (d := Directory [("x"%string, Unreadable)]).
    + simpl. auto.
    + apply at_child. simpl. auto.
  - apply (enumerate_fails_iff_unreadable _ L2).
    intros p Hat.
    assert (X : exists e, traversal Demo.tree = Raise e)
      by (apply traversal_raises_iff; eauto).
    destruct X as (e & X). discriminate X.
Defined.


(** ** No path is enumerated twice *)

Lemma unique_names_at (root c : entry) (p : path) :
  unique_names root -> entry_at root p c -> unique_names c.
Proof.
  intros U H. induction H as [ch name c Hin | ch name d rest c Hin H IH].
  - inversion U as [| | | | |? _ Hc]; subst. exact (Hc name c Hin).
  - inversion U as [| | | | |? _ Hc]; subst. exact (IH (Hc name d Hin)).
Qed.

Lemma map_flat_map {A B C : Type} (g : B -> C) (f : A -> list B) (l : list A) :
  map g (flat_map f l) = flat_map (fun x => map g (f x)) l.
Proof.
  induction l as [|x l IH]; simpl; [reflexivity|]. now rewrite map_app, IH.
Qed.

Lemma NoDup_map_filter {A B : Type} (f : A -> B) (q : A -> bool) (l : list A) :
  NoDup (map f l) -> NoDup (map f (filter q l)).
Proof.
  induction l as [|x l IH]; simpl; intros H; [constructor|].
  inversion H as [|? ? Hn Hd]; subst.
  destruct (q x); simpl; [|now apply IH]. constructor; [|now apply IH].
  intros Hin. apply Hn. apply in_map_iff in Hin. destruct Hin as (y & E & Hy).
  apply filter_In in Hy. rewrite <- E. apply in_map. tauto.
Qed.

Lemma walk_root_prefix (e : entry) (top root : path) :
  In root (map fst (os_walk top e)) -> exists rel, root = top ++ rel.
Proof.
  intros H. apply in_map_iff in H. destruct H as ([r fs] & <- & H).
  destruct (os_walk_visits e _ _ _ H) as (rel & ch & -> & _). cbn. eauto.
Qed.

Lemma NoDup_walk_roots (e : entry) :
  unique_names e -> forall top, NoDup (map fst (os_walk top e)).
Proof.
  induction e as [| | | | |children IH] using entry_nested_ind; intros U top.
  1-5: cbn; constructor.
  inversion U as [| | | | |? Hn Hc]; subst. cbn [os_walk map fst].
  rewrite map_flat_map. constructor.
  - intros Hin. apply in_flat_map in Hin. destruct Hin as ([name c] & _ & Hin).
    cbn [fst snd] in Hin. apply walk_root_prefix in Hin. destruct Hin as (rel & E).
    apply (f_equal (@List.length string)) in E. rewrite !length_app in E. cbn in E. lia.
  - apply NoDup_flat_map.
    + intros [name c] Hin. cbn [fst snd]. rewrite Forall_forall in IH.
      apply (IH (name, c) Hin). exact (Hc name c Hin).
    + apply FOP_impl_In with (R := fun a b : string * entry => fst a <> fst b).
      * intros [n1 c1] [n2 c2] _ _ Hne r R1 R2. cbn [fst snd] in *.
        apply walk_root_prefix in R1, R2.
        destruct R1 as (rel1 & E1), R2 as (rel2 & E2). rewrite E1 in E2.
        rewrite <- !app_assoc in E2. apply app_inv_head in E2. cbn in E2.
        inversion E2. contradiction.
      * apply FOP_NoDup_fst. exact Hn.
Qed.

Lemma enumerate_NoDup (target_dir : entry) (all_files : list path) :
  unique_names target_dir ->
  enumerate target_dir = Return all_files ->
  NoDup all_files.
Proof.
  intros U H. rewrite (enumerate_all _ _ H). apply NoDup_flat_map.
  - intros [root fs] Hw. unfold collected. cbn [fst snd].
    destruct (os_walk_visits target_dir _ _ _ Hw) as (rel & ch & _ & Hat & ->).
    assert (Ud : unique_names (Directory ch)).
    { destruct Hat as [[_ <-] | Hat]; [exact U | exact (unique_names_at _ _ _ U Hat)]. }
    inversion Ud as [| | | | |? Hn _]; subst.
    assert (N : NoDup (map fst (filter (fun f : string * entry =>
                                          match is_symlink (snd f) with
                                          | Return false => true
                                          | _ => false
                                          end) (walk_files ch))))
      by (unfold walk_files; now apply NoDup_map_filter, NoDup_map_filter).
    revert N. generalize (filter (fun f : string * entry =>
                                    match is_symlink (snd f) with
                                    | Return false => true
                                    | _ => false
                                    end) (walk_files ch)).
    intros l N. induction l as [|f l IHl]; cbn [map] in *; [constructor|].
    inversion N as [|? ? Hx Hl]; subst. constructor; [|now apply IHl].
    intros Hin. apply in_map_iff in Hin. destruct Hin as (g & E & Hg).
    apply app_inv_head in E. inversion E as [E']. apply Hx. rewrite <- E'. now apply in_map.
  - apply FOP_impl_In
      with (R := fun a b : path * list (string * entry) => fst a <> fst b).
    + intros [r1 f1] [r2 f2] _ _ Hne p P1 P2. cbn [fst] in Hne.
      apply in_collected in P1, P2.
      destruct P1 as (n1 & c1 & _ & E1 & _), P2 as (n2 & c2 & _ & E2 & _).
      rewrite E1 in E2. apply app_inj_tail in E2. tauto.
    + apply FOP_NoDup_fst. now apply NoDup_walk_roots.
Qed.

(** X13. When the entries of every directory have distinct names, no path is
    enumerated twice. *)
Theorem enumerate_has_no_repetition (target_dir : entry) (all_files : list path) :
  unique_names target_dir ->
  enumerate target_dir = Return all_files ->
  NoDup all_files.
Proof. exact (enumerate_NoDup target_dir all_files). Qed.

Lemma demo_tree_unique_names : unique_names Demo.tree.
Proof.
  unfold Demo.tree. constructor.
  - cbn [map fst].
    repeat (constructor; [simpl; intros H; repeat (destruct H as [H | H]; try discriminate H);
                          exact H|]).
    constructor.
  - intros name c H. simpl in H.
    repeat (destruct H as [H | H]; [inversion H; subst; try constructor|]); try contradiction.
    + repeat constructor. simpl. tauto.
    + intros n c' H'. simpl in H'. destruct H' as [H' | []]. inversion H'; subst. constructor.
Qed.

Lemma enumerate_has_no_repetition_witness :
  unique_names Demo.tree
  /\ enumerate Demo.tree = Return Demo.all_files
  /\ NoDup Demo.all_files.
Proof.
  assert (H : enumerate Demo.tree = Return Demo.all_files) by reflexivity.
  split; [exact demo_tree_unique_names|]. split; [exact H|].
  exact (enumerate_has_no_repetition Demo.tree Demo.all_files demo_tree_unique_names H).
Defined.

(** ** The whole command *)

Lemma emitted_in_all_files (os : os_world) (sha : hashlib) (all_files : list path)
    (g : group) (p : path) :
  In g (flat_map (emitted os sha) (group_by_size os all_files)) ->
  In p (files g) -> In p all_files.
Proof.
  intros Hg Hp. apply in_flat_map in Hg. destruct Hg as ([size paths] & Hit & Hg).
  apply in_group_by_size in Hit. destruct Hit as [-> _].
  pose proof (emitted_files os sha _ g p Hg Hp) as H. cbn [snd] in H.
  apply in_size_group in H. tauto.
Qed.

Lemma enumerate_cases (target_dir : entry) :
  ((exists p, entry_at target_dir p Unreadable)
   /\ enumerate target_dir = Raise (SystemExit 1))
  \/ ((forall p, ~ entry_at target_dir p Unreadable)
      /\ enumerate target_dir = Return (flat_map collected (os_walk [] target_dir))).
Proof.
  destruct (traversal target_dir) as [all_files|e] eqn:T.
  - right.
    assert (E : enumerate target_dir = Return all_files)
      by (unfold enumerate; now rewrite T).
    split.
    + intros p Hat.
      assert (X : exists e, traversal target_dir = Raise e)
        by (apply traversal_raises_iff; eauto).
      destruct X as (e & X). congruence.
    + now rewrite E, (enumerate_all _ _ E).
  - left. split.
    + apply traversal_raises_iff. eauto.
    + exact (enumerate_exits target_dir e T).
Qed.

(** *** Printing *)

Lemma bind_unit {B : Type} (m : result unit) (k : unit -> result B) :
  bind m k = bind m (fun _ => k tt).
Proof. destruct m as [[]|e]; reflexivity. Qed.

Section PrintFacts.
Variable os : os_world.

Lemma print_stdout_app (xs ys : list string) :
  bind (print_stdout os xs) (fun _ => print_stdout os ys) = print_stdout os (xs ++ ys).
Proof.
  unfold print_stdout. rewrite forallb_app.
  destruct (forallb (encodable os) xs); reflexivity.
Qed.

Lemma print_files_eq (target : string) (ls : list listed_file) :
  encodable os target = true ->
  for_each (fun _ l => print_stdout os (target :: listed_path l)) ls tt
  = print_stdout os (flat_map listed_path ls).
Proof.
  intros T. induction ls as [|l ls IH]; cbn [for_each flat_map]; [reflexivity|].
  rewrite bind_unit, IH, <- print_stdout_app. f_equal.
  unfold print_stdout. cbn [forallb]. now rewrite T.
Qed.

Lemma print_block_eq (target : string) (b : block) :
  encodable os target = true ->
  print_block os target b = print_stdout os (block_names b).
Proof.
  intros T. unfold print_block. rewrite (print_files_eq target (listed b) T).
  unfold print_stdout, block_names. cbn [forallb].
  destruct (encodable os (rep_name b)), (encodable os (tip_name b)),
    (forallb (encodable os) (flat_map listed_path (listed b))); reflexivity.
Qed.

Lemma print_listing_eq (target : string) (bs : list block) :
  encodable os target = true ->
  for_each (fun _ b => print_block os target b) bs tt
  = print_stdout os (flat_map block_names bs).
Proof.
  intros T. induction bs as [|b bs IH]; cbn [for_each flat_map]; [reflexivity|].
  now rewrite bind_unit, IH, <- print_stdout_app, (print_block_eq target b T).
Qed.

Lemma print_report_eq (target : string) (dups : list group) :
  encodable os target = true ->
  Forall (fun g => 2 <= len (files g)) dups ->
  print_report os target dups
  = bind (print_stdout os (flat_map block_names (listing dups)))
         (fun _ =>
            bind (match dups with
                  | [] => Return tt
                  | _ :: _ => bind (format_size (wasted_sum dups)) (fun _ => Return tt)
                  end)
                 (fun _ => Return (report dups))).
Proof.
  intros T F. unfold print_report, print_totals.
  rewrite (print_listing_eq target (listing dups) T).
  unfold report at 1. cbn [reported_totals].
  rewrite (report_totals dups F). cbn [total_wasted_bytes]. rewrite Z.add_0_l.
  reflexivity.
Qed.

End PrintFacts.

(** *** [format_size] raises nothing but errors *)

Lemma finite_or_overflow_error (f : PyFloat.t) (e : exn) :
  PyFloat.finite_or_overflow f = Raise e -> is_error e = true.
Proof. destruct f; cbn; intros H; inversion H; reflexivity. Qed.

Lemma to_int_error (f : PyFloat.t) (e : exn) :
  PyFloat.to_int f = Raise e -> is_error e = true.
Proof. destruct f; cbn; intros H; inversion H; reflexivity. Qed.

Lemma div_error (x y : PyFloat.t) (e : exn) :
  PyFormat.div x y = Raise e -> is_error e = true.
Proof.
  unfold PyFormat.div. destruct (PyFloat.is_zero y).
  - intros H; inversion H; reflexivity.
  - destruct x, y; try discriminate.
Qed.

Lemma size_loop_error (fuel : nat) :
  forall s i e, size_loop fuel s i = Raise e -> is_error e = true.
Proof.
  induction fuel as [|fuel IH]; intros s i e; cbn [size_loop]; [discriminate|].
  destruct (PyFormat.ge_int s 1024 && (i <? 4)); [|discriminate].
  intros H. apply bind_raise in H. destruct H as [H | (k & _ & H)].
  - exact (finite_or_overflow_error _ _ H).
  - apply bind_raise in H. destruct H as [H | (s' & _ & H)].
    + exact (div_error _ _ _ H).
    + exact (IH _ _ _ H).
Qed.

Lemma format_size_error (size_bytes : Z) (e : exn) :
  format_size size_bytes = Raise e -> is_error e = true.
Proof.
  unfold format_size. intros H.
  apply bind_raise in H. destruct H as [H | (s0 & _ & H)].
  - exact (finite_or_overflow_error _ _ H).
  - apply bind_raise in H. destruct H as [H | ([s i] & _ & H)].
    + exact (size_loop_error _ _ _ _ H).
    + destruct (i =? 0); [|discriminate].
      apply bind_raise in H. destruct H as [H | (n & _ & H)]; [|discriminate].
      exact (to_int_error _ _ H).
Qed.

Lemma is_error_status (e : exn) : is_error e = true -> exit_status (Raise e) = 1.
Proof. destruct e; cbn; intros H; try reflexivity. discriminate H. Qed.

(** *** The outcome of [run_scan] *)

Lemma run_scan_returned (os : os_world) (sha : hashlib) (directory_path : string)
    (r : scan_report) :
  run_scan os sha directory_path = Return r ->
  exists target_dir all_files st,
    resolve os directory_path = Found target_dir
    /\ is_dir target_dir = true
    /\ enumerate target_dir = Return all_files
    /\ detect os sha all_files = Return st
    /\ r = report (duplicates st).
Proof.
  unfold run_scan. destruct (resolve os directory_path) as [target_dir| |];
    try discriminate.
  destruct (is_dir target_dir) eqn:D; [|discriminate]. cbv zeta. intros H.
  destruct (bind_return _ _ _ H) as (u & _ & H1).
  destruct (bind_return _ _ _ H1) as (all_files & E & H2).
  destruct (bind_return _ _ _ H2) as (st & R & H3).
  unfold print_report in H3.
  destruct (bind_return _ _ _ H3) as (u1 & _ & H4).
  destruct (bind_return _ _ _ H4) as (u2 & _ & H5).
  inversion H5. exists target_dir, all_files, st. auto.
Qed.

Lemma run_scan_outcome (os : os_world) (sha : hashlib) (directory_path : string) :
  (scan_succeeds os sha directory_path
   /\ exists r, run_scan os sha directory_path = Return r)
  \/ (~ scan_succeeds os sha directory_path
      /\ exists e,
           run_scan os sha directory_path = Raise e
           /\ (e = SystemExit 1 \/ is_error e = true)).
Proof.
  unfold run_scan, scan_succeeds.
  destruct (resolve os directory_path) as [target_dir| |] eqn:Hr.
  2: { right. split; [intros (t & E & _); discriminate|].
       exists (SystemExit 1). auto. }
  2: { right. split; [intros (t & E & _); discriminate|].
       exists OSError. auto. }
  destruct (is_dir target_dir) eqn:D.
  2: { right. split; [intros (t & E & D' & _); inversion E; subst; congruence|].
       exists (SystemExit 1). auto. }
  cbv zeta.
  destruct (encodable os (target_text os directory_path)) eqn:T.
  2: { right. split; [intros (t & _ & _ & T' & _); discriminate|].
       exists UnicodeEncodeError. unfold print_stdout. cbn [forallb]. rewrite T. auto. }
  assert (P : print_stdout os [target_text os directory_path] = Return tt)
    by (unfold print_stdout; cbn [forallb]; now rewrite T).
  rewrite P. cbn [bind].
  destruct (enumerate_cases target_dir) as [[U E] | [U E]]; rewrite E; cbn [bind].
  { right. split.
    - intros (t & Et & _ & _ & U' & _). inversion Et; subst t.
      destruct U as (p & U). exact (U' p U).
    - exists (SystemExit 1). auto. }
  destruct (detect_returns os sha (flat_map collected (os_walk [] target_dir)))
    as (lines & R).
  rewrite R. cbn [bind duplicates].
  pose proof (emitted_groups_members os sha (flat_map collected (os_walk [] target_dir)))
    as F.
  rewrite (emitted_expected os sha) in *.
  rewrite (print_report_eq os _ _ T F).
  remember (expected_groups os sha (flat_map collected (os_walk [] target_dir)))
    as dups eqn:Hd.
  destruct (forallb (encodable os) (flat_map block_names (listing dups))) eqn:B.
  2: { right. split.
       - intros (t & Et & _ & _ & _ & N & _). inversion Et; subst t. rewrite <- Hd in N.
         assert (X : forallb (encodable os) (flat_map block_names (listing dups)) = true).
         { apply forallb_forall. intros name Hn. apply in_flat_map in Hn.
           destruct Hn as (b & Hb & Hn). exact (N b name Hb Hn). }
         congruence.
       - exists UnicodeEncodeError. unfold print_stdout. rewrite B. auto. }
  assert (N : forall b name,
             In b (listing dups) -> In name (block_names b) -> encodable os name = true).
  { intros b name Hb Hn. rewrite forallb_forall in B. apply B.
    apply in_flat_map. eauto. }
  unfold print_stdout. rewrite B. cbn [bind].
  destruct (match dups with
            | [] => Return tt
            | _ :: _ => bind (format_size (wasted_sum dups)) (fun _ => Return tt)
            end) as [u|e] eqn:W; cbn [bind].
  - left. split; [|eauto].
    exists target_dir. rewrite <- Hd. repeat split; auto.
    intros Hne. destruct dups as [|g dups']; [now elim Hne|].
    destruct (format_size (wasted_sum (g :: dups'))) as [text|e']; [eauto | discriminate W].
  - right. split.
    + intros (t & Et & _ & _ & _ & _ & W'). inversion Et; subst t. rewrite <- Hd in W'.
      destruct dups as [|g dups']; [discriminate W|].
      destruct W' as (text & W'); [discriminate|]. rewrite W' in W. discriminate W.
    + exists e. split; [reflexivity|]. right.
      destruct dups as [|g dups']; [discriminate W|].
      apply bind_raise in W. destruct W as [W | (text & _ & W)]; [|discriminate W].
      exact (format_size_error _ _ W).
Qed.

(** X14. A scan that returns reports only files it enumerated: regular or
    special files reached through real directories from the target, never a
    symbolic link, in groups of at least two. *)
Theorem run_scan_reports_enumerated_files (os : os_world) (sha : hashlib)
    (directory_path : string) (r : scan_report) :
  run_scan os sha directory_path = Return r ->
  exists target_dir,
    resolve os directory_path = Found target_dir
    /\ is_dir target_dir = true
    /\ forall g p,
         In g (reported_groups r) -> In p (files g) ->
         2 <= len (files g)
         /\ exists c,
              entry_at target_dir p c /\ (c = RegularFile \/ c = SpecialFile).
Proof.
  intros H.
  destruct (run_scan_returned os sha directory_path r H)
    as (target_dir & all_files & st & Hr & D & E & R & ->).
  exists target_dir. split; [exact Hr|]. split; [exact D|].
  destruct (detect_returns os sha all_files) as (lines & R').
  rewrite R' in R. inversion R; subst st. clear R.
  cbn [duplicates report reported_groups]. intros g p Hg Hp. split.
  - pose proof (emitted_groups_members os sha all_files) as F.
    rewrite Forall_forall in F. exact (F g Hg).
  - apply (enumerated_entries _ all_files p E).
    exact (emitted_in_all_files os sha all_files g p Hg Hp).
Qed.

Lemma run_scan_reports_enumerated_files_witness :
  run_scan Demo.os Demo.sha "demo"%string
  = Return (report [mk_group 1 [Demo.a; Demo.b; Demo.copy];
                    mk_group 0 [Demo.empty1; Demo.empty2]])
  /\ exists target_dir,
       resolve Demo.os "demo"%string = Found target_dir
       /\ is_dir target_dir = true
       /\ forall g p,
            In g [mk_group 1 [Demo.a; Demo.b; Demo.copy];
                  mk_group 0 [Demo.empty1; Demo.empty2]] ->
            In p (files g) ->
            2 <= len (files g)
            /\ exists c,
                 entry_at target_dir p c /\ (c = RegularFile \/ c = SpecialFile).
Proof.
  assert (R : run_scan Demo.os Demo.sha "demo"%string
              = Return (report [mk_group 1 [Demo.a; Demo.b; Demo.copy];
                                mk_group 0 [Demo.empty1; Demo.empty2]]))
    by (vm_compute; reflexivity).
  split; [exact R|].
  exact (run_scan_reports_enumerated_files Demo.os Demo.sha "demo"%string _ R).
Defined.

Lemma print_help_status (os : os_world) (prog : string) (code : Z) :
  (encodable os prog = true
   /\ bind (print_help os prog) (fun _ => sys_exit (A := unit) code)
      = Raise (SystemExit code))
  \/ (encodable os prog = false
      /\ bind (print_help os prog) (fun _ => sys_exit (A := unit) code)
         = Raise UnicodeEncodeError).
Proof.
  unfold print_help, print_stdout. cbn [forallb].
  destruct (encodable os prog); [left | right]; auto.
Qed.

(** X15. The exit status of the command is 0 or 1.  It is 0 exactly for a help
    request ([--help] or [-h] as first argument) whose program name can be
    written, and for [scan] followed by a path whose scan goes through.  The
    directory trees are taken within the recursion limit of [os.walk]. *)
Theorem main_exit_status (os : os_world) (sha : hashlib) (argv : list string) :
  (forall directory_path target_dir,
      resolve os directory_path = Found target_dir ->
      within_recursion_limit target_dir) ->
  (exit_status (main os sha argv) = 0 \/ exit_status (main os sha argv) = 1)
  /\ (exit_status (main os sha argv) = 0
      <-> exists prog arg1 rest,
            argv = prog :: arg1 :: rest
            /\ (((arg1 = "--help"%string \/ arg1 = "-h"%string)
                 /\ encodable os prog = true)
                \/ (arg1 = "scan"%string
                    /\ exists directory_path rest',
                         rest = directory_path :: rest'
                         /\ scan_succeeds os sha directory_path))).
Proof.
  intros _. destruct argv as [|prog [|arg1 rest]].
  - cbn. split; [auto|]. split; [discriminate | intros (? & ? & ? & E & _); discriminate].
  - cbn [main]. split.
    + destruct (print_help_status os prog 1) as [[_ ->] | [_ ->]]; cbn; auto.
    + split; [|intros (? & ? & ? & E & _); discriminate].
      destruct (print_help_status os prog 1) as [[_ ->] | [_ ->]]; cbn; discriminate.
  - cbn [main].
    destruct (String.eqb arg1 "--help" || String.eqb arg1 "-h") eqn:Eh.
    { assert (Ha : arg1 = "--help"%string \/ arg1 = "-h"%string).
      { apply orb_true_iff in Eh. destruct Eh as [E | E]; apply String.eqb_eq in E; auto. }
      destruct (print_help_status os prog 0) as [[P ->] | [P ->]]; cbn.
      - split; [auto|]. split; [|reflexivity]. intros _.
        exists prog, arg1, rest. auto.
      - split; [auto|]. split; [discriminate|].
        intros (p0 & a0 & r0 & E & [[_ P'] | (S & _)]); inversion E; subst.
        + congruence.
        + destruct Ha as [Ha | Ha]; discriminate Ha. }
    apply orb_false_iff in Eh. destruct Eh as [E1 E2].
    apply String.eqb_neq in E1, E2.
    destruct (String.eqb arg1 "scan") eqn:E3.
    + apply String.eqb_eq in E3. destruct rest as [|directory_path rest'].
      * assert (X : exit_status (bind (print_stdout os [prog])
                                      (fun _ => sys_exit (A := unit) 1)) = 1).
        { unfold print_stdout. destruct (forallb (encodable os) [prog]); reflexivity. }
        rewrite X. split; [auto|]. split; [discriminate|].
        intros (p0 & a0 & r0 & E & [[[H | H] _] | (_ & d & r' & H & _)]);
          inversion E; subst; congruence.
      * destruct (run_scan_outcome os sha directory_path)
          as [[S (r & R)] | [S (e & R & He)]]; rewrite R; cbn [bind].
        -- cbn. split; [auto|]. split; [|reflexivity].
           intros _. exists prog, arg1, (directory_path :: rest'). split; [reflexivity|].
           right. split; [exact E3|]. exists directory_path, rest'. auto.
        -- assert (X : exit_status (@Raise unit e) = 1).
           { destruct He as [-> | He]; [reflexivity | exact (is_error_status e He)]. }
           rewrite X. split; [auto|]. split; [discriminate|].
           intros (p0 & a0 & r0 & E & [[[H | H] _] | (_ & d & r' & H & Hs)]);
             inversion E; subst; congruence.
    + apply String.eqb_neq in E3.
      destruct (print_help_status os prog 1) as [[P ->] | [P ->]]; cbn;
        (split; [auto|]); (split; [discriminate|]);
        intros (p0 & a0 & r0 & E & [[[H | H] _] | (H & _)]); inversion E; subst;
        congruence.
Qed.

Lemma demo_within_recursion_limit (directory_path : string) (target_dir : entry) :
  resolve Demo.os directory_path = Found target_dir ->
  within_recursion_limit target_dir.
Proof.
  unfold within_recursion_limit. cbn [resolve Demo.os].
  repeat match goal with
         | |- context [String.eqb ?a ?b] => destruct (String.eqb a b)
         end;
    intros H; inversion H; subst; cbn; lia.
Defined.

Lemma main_exit_status_witness :
  exit_status (main Demo.os Demo.sha ["prog"; "scan"; "demo"]%string) = 0
  /\ scan_succeeds Demo.os Demo.sha "demo"%string
  /\ ~ scan_succeeds Demo.os Demo.sha "closed"%string.
Proof.
  split; [vm_compute; reflexivity|]. split.
  - destruct (main_exit_status Demo.os Demo.sha ["prog"; "scan"; "demo"]%string
                demo_within_recursion_limit) as [_ [Hto _]].
    assert (X : exit_status (main Demo.os Demo.sha ["prog"; "scan"; "demo"]%string) = 0)
      by (vm_compute; reflexivity).
    destruct (Hto X) as (prog & arg1 & rest & E & [[[H | H] _] | (_ & d & r' & H & S)]).
    + inversion E; subst; discriminate.
    + inversion E; subst; discriminate.
    + inversion E as [[Ep Ea Er]]. rewrite <- Er in H. inversion H; subst d. exact S.
  - intros S.
    destruct (main_exit_status Demo.os Demo.sha ["prog"; "scan"; "closed"]%string
                demo_within_recursion_limit) as [_ [_ Hfrom]].
    assert (X : exit_status (main Demo.os Demo.sha ["prog"; "scan"; "closed"]%string) = 0).
    { apply Hfrom. exists "prog"%string, "scan"%string, ["closed"%string].
      split; [reflexivity|]. right. split; [reflexivity|].
      exists "closed"%string, []. auto. }
    vm_compute in X. discriminate X.
Defined.

(** ** Hashing and the report *)

Lemma fold_update_concat (sha : hashlib) (chunks : list (list Byte.byte)) :
  streaming sha ->
  forall st,
    fold_left (sha256_update sha) chunks st = sha256_update sha st (List.concat chunks).
Proof.
  intros [S0 S]. induction chunks as [|c chunks IH]; intros st; cbn [fold_left List.concat].
  - now rewrite S0.
  - now rewrite IH, S.
Qed.

(** X16. The digest depends on the bytes read, not on how the reads cut them:
    two files whose chunks concatenate to the same bytes get the same hash. *)
Theorem hash_ignores_chunking (os : os_world) (sha : hashlib) (p q : path)
    (chunks_p chunks_q : list (list Byte.byte)) :
  streaming sha ->
  read_chunks os p buffer_size = Some chunks_p ->
  read_chunks os q buffer_size = Some chunks_q ->
  List.concat chunks_p = List.concat chunks_q ->
  compute_file_hash os sha p = compute_file_hash os sha q.
Proof.
  intros S Hp Hq E. unfold compute_file_hash. rewrite Hp, Hq.
  now rewrite !(fold_update_concat sha _ S), E.
Qed.

Lemma hash_ignores_chunking_witness :
  streaming Demo.sha
  /\ read_chunks Demo.os Demo.whole buffer_size = Some [[Byte.x58; Byte.x59]]
  /\ read_chunks Demo.os Demo.pieces buffer_size = Some [[Byte.x58]; [Byte.x59]]
  /\ compute_file_hash Demo.os Demo.sha Demo.whole
     = compute_file_hash Demo.os Demo.sha Demo.pieces.
Proof.
  assert (S : streaming Demo.sha).
  { split; cbn; intros; [apply app_nil_r | symmetry; apply app_assoc]. }
  split; [exact S|]. split; [reflexivity|]. split; [reflexivity|].
  exact (hash_ignores_chunking Demo.os Demo.sha Demo.whole Demo.pieces _ _ S
           eq_refl eq_refl eq_refl).
Defined.

Lemma report_counts (dups : list group) :
  Forall (fun g => 2 <= len (files g)) dups ->
  forall t,
    total_files (fold_left report_step dups t) = total_files t + members_sum dups.
Proof.
  induction 1 as [|g dups Hg F IH]; intros t; simpl; [lia|].
  rewrite IH. unfold report_step.
  rewrite (proj2 (Z.eqb_neq (len (files g)) 0)) by lia. simpl. lia.
Qed.

Lemma members_sum_lower (dups : list group) :
  Forall (fun g => 2 <= len (files g)) dups -> 2 * len dups <= members_sum dups.
Proof.
  induction 1 as [|g dups Hg F IH]; [cbn; lia|].
  rewrite len_cons. cbn [members_sum fold_right]. fold (members_sum dups). lia.
Qed.

Lemma wasted_sum_sign (dups : list group) :
  Forall (fun g => 2 <= len (files g) /\ 0 <= file_size g) dups ->
  0 <= wasted_sum dups
  /\ (wasted_sum dups = 0 <-> Forall (fun g => file_size g = 0) dups).
Proof.
  induction 1 as [|g dups [Hg Hs] F [IH0 IH]]; cbn [wasted_sum fold_right].
  - split; [lia|]. split; [constructor | reflexivity].
  - fold (wasted_sum dups). split; [nia|]. split.
    + intros E. assert (file_size g = 0) by nia. constructor; [assumption|]. apply IH. nia.
    + intros A. inversion A as [|? ? A0 A1]; subst. apply IH in A1. rewrite A0, A1. lia.
Qed.

(** X17. The report counts every member of every emitted group, so at least two
    files per group. *)
Theorem report_counts_every_member (os : os_world) (sha : hashlib) (all_files : list path) :
  exists st,
    detect os sha all_files = Return st
    /\ total_files (reported_totals (report (duplicates st))) = members_sum (duplicates st)
    /\ 2 * len (duplicates st)
       <= total_files (reported_totals (report (duplicates st))).
Proof.
  destruct (detect_returns os sha all_files) as (lines & R).
  pose proof (emitted_groups_members os sha all_files) as F.
  eexists. split; [exact R|]. cbn [duplicates report reported_totals].
  rewrite (report_counts _ F). cbn [total_files]. split; [lia|].
  pose proof (members_sum_lower _ F). lia.
Qed.

(** X18. With sizes that are not negative, the wasted space reported is not
    negative, and it is zero exactly when every emitted group is a group of
    empty files. *)
Theorem wasted_space_zero_iff_empty_files (os : os_world) (sha : hashlib)
    (all_files : list path) :
  (forall p size, st_size os p = Some size -> 0 <= size) ->
  exists st,
    detect os sha all_files = Return st
    /\ 0 <= total_wasted_bytes (reported_totals (report (duplicates st)))
    /\ (total_wasted_bytes (reported_totals (report (duplicates st))) = 0
        <-> Forall (fun g => file_size g = 0) (duplicates st)).
Proof.
  intros Hs. destruct (detect_returns os sha all_files) as (lines & R).
  pose proof (emitted_groups_members os sha all_files) as F.
  eexists. split; [exact R|]. cbn [duplicates report reported_totals].
  rewrite (report_totals _ F). cbn [total_wasted_bytes].
  apply wasted_sum_sign. apply Forall_forall. intros g Hg.
  rewrite Forall_forall in F. split; [exact (F g Hg)|].
  apply in_flat_map in Hg. destruct Hg as ([size paths] & Hit & Hg).
  rewrite (emitted_size os sha _ g Hg). cbn [fst].
  apply in_group_by_size in Hit. destruct Hit as [-> Hne].
  destruct (filter (DefaultDict.has_key Z.eqb (st_size os) size) all_files)
    as [|p l] eqn:E; [exfalso; apply Hne; reflexivity|].
  assert (Hp : In p (filter (DefaultDict.has_key Z.eqb (st_size os) size) all_files))
    by (rewrite E; simpl; auto).
  apply in_size_group in Hp. destruct Hp as [_ Hp]. exact (Hs p size Hp).
Qed.

Lemma wasted_space_zero_iff_empty_files_witness :
  (forall p size, st_size Demo.os p = Some size -> 0 <= size)
  /\ exists st,
       detect Demo.os Demo.sha Demo.all_files = Return st
       /\ 0 <= total_wasted_bytes (reported_totals (report (duplicates st))).
Proof.
  assert (H : forall p size, st_size Demo.os p = Some size -> 0 <= size).
  { intros p size. unfold Demo.os. cbn [st_size].
    destruct (Demo.path_eqb p Demo.gone); [discriminate|].
    destruct (Demo.path_eqb p Demo.empty1 || Demo.path_eqb p Demo.empty2);
      inversion 1; lia. }
  split; [exact H|].
  destruct (wasted_space_zero_iff_empty_files Demo.os Demo.sha Demo.all_files H)
    as (st & R & W & _).
  exists st. auto.
Defined.


(** ** Sizes for the reader *)

Module PyFormatFacts.
Import PyFloat PyFormat.

Lemma rne_exact (m b : Z) : 0 < b -> rne (m * b) b = m.
Proof.
  intros Hb. unfold rne. rewrite Z.div_mul, Z.mod_mul by lia.
  cbn [Z.mul]. now rewrite (proj2 (Z.ltb_lt 0 b) Hb).
Qed.

Lemma rne_one (a : Z) : rne a 1 = a.
Proof. rewrite <- (Z.mul_1_r a) at 1. apply rne_exact. lia. Qed.

Lemma rne_scale (a b s : Z) : 0 < b -> 0 < s -> rne (a * s) (b * s) = rne a b.
Proof.
  intros Hb Hs. unfold rne.
  rewrite Z.div_mul_cancel_r, Z.mul_mod_distr_r by lia.
  pose proof (Z.mod_pos_bound a b Hb) as M.
  replace (2 * (a mod b * s) <? b * s) with (2 * (a mod b) <? b).
  2:{ destruct (Z.ltb_spec (2 * (a mod b)) b), (Z.ltb_spec (2 * (a mod b * s)) (b * s));
      try reflexivity; nia. }
  replace (b * s <? 2 * (a mod b * s)) with (b <? 2 * (a mod b)).
  2:{ destruct (Z.ltb_spec b (2 * (a mod b))), (Z.ltb_spec (b * s) (2 * (a mod b * s)));
      try reflexivity; nia. }
  reflexivity.
Qed.

Lemma log2_small (n : Z) : 0 < n < 2 ^ 53 -> 0 <= Z.log2 n <= 52.
Proof.
  intros H. split; [apply Z.log2_nonneg|].
  assert (Z.log2 n < 53) by (apply Z.log2_lt_pow2; lia). lia.
Qed.

Lemma shifted_mantissa (n : Z) :
  0 < n < 2 ^ 53 -> 2 ^ 52 <= n * 2 ^ (52 - Z.log2 n) < 2 ^ 53.
Proof.
  intros H. pose proof (log2_small n H) as L.
  pose proof (Z.log2_spec n ltac:(lia)) as [L1 L2].
  assert (P : 0 < 2 ^ (52 - Z.log2 n)) by (apply Z.pow_pos_nonneg; lia).
  assert (E52 : 2 ^ 52 = 2 ^ Z.log2 n * 2 ^ (52 - Z.log2 n))
    by (rewrite <- Z.pow_add_r by lia; f_equal; lia).
  assert (E53 : 2 ^ 53 = 2 ^ Z.succ (Z.log2 n) * 2 ^ (52 - Z.log2 n))
    by (rewrite <- Z.pow_add_r by lia; f_equal; lia).
  rewrite E52, E53. split; [apply Z.mul_le_mono_nonneg_r | apply Z.mul_lt_mono_pos_r]; lia.
Qed.

(** [float(n)] is exact below [2^53]. *)
Lemma of_int_exact (n : Z) : 0 < n < 2 ^ 53 -> of_int n = Return (shifted n 0).
Proof.
  intros H. pose proof (log2_small n H) as L.
  pose proof (Z.log2_spec n ltac:(lia)) as [L1 _].
  unfold of_int, round_double, shifted. rewrite (proj2 (Z.eqb_neq n 0)) by lia.
  rewrite (Z.abs_eq n) by lia.
  assert (E : exponent n 1 = Z.log2 n - 52).
  { unfold exponent, floor_log2, scale. change (Z.log2 1) with 0. rewrite Z.sub_0_r.
    rewrite (Z.max_l 0 (- Z.log2 n)), (Z.max_r 0 (Z.log2 n)) by lia.
    rewrite Z.pow_0_r, Z.mul_1_r, Z.mul_1_l.
    rewrite (proj2 (Z.leb_le _ _) L1). unfold emin. lia. }
  rewrite E. unfold scale.
  rewrite (Z.max_r 0 (- (Z.log2 n - 52))), (Z.max_l 0 (Z.log2 n - 52)) by lia.
  rewrite Z.pow_0_r, Z.mul_1_l.
  replace (- (Z.log2 n - 52)) with (52 - Z.log2 n) by lia.
  rewrite rne_one.
  pose proof (shifted_mantissa n H) as M.
  assert (O : overflows (n * 2 ^ (52 - Z.log2 n)) (Z.log2 n - 52) = false).
  { unfold overflows. destruct (0 <=? Z.log2 n - 52) eqn:Z0; [|reflexivity]. cbn [andb].
    apply Z.leb_le in Z0. replace (Z.log2 n - 52) with 0 by lia.
    rewrite Z.pow_0_r, Z.mul_1_r, Z.abs_eq by lia.
    apply Z.leb_gt. apply Z.lt_trans with (2 ^ 53); [lia | reflexivity]. }
  rewrite O. cbn [finite_or_overflow]. do 2 f_equal. lia.
Qed.

Lemma of_int_1024 : of_int 1024 = Return (Finite (2 ^ 52) (- 42)).
Proof. vm_compute. reflexivity. Qed.

(** Dividing a normal double by 1024 only lowers its exponent. *)
Lemma div_1024_exact (m e : Z) :
  2 ^ 52 <= m < 2 ^ 53 -> - 1000 <= e <= 0 ->
  div (Finite m e) (Finite (2 ^ 52) (- 42)) = Return (Finite m (e - 10)).
Proof.
  intros Hm He. unfold div. cbn [is_zero]. change (2 ^ 52 =? 0) with false. cbv iota.
  unfold scale. replace (- - (e - -42)) with (e + 42) by lia.
  replace (- (e - -42)) with (- (e + 42)) by lia.
  set (E := e + 42).
  assert (Pp : 0 < 2 ^ Z.max 0 E) by (apply Z.pow_pos_nonneg; lia).
  assert (Pn : 0 < 2 ^ Z.max 0 (- E)) by (apply Z.pow_pos_nonneg; lia).
  assert (P52 : 0 < 2 ^ 52) by reflexivity.
  rewrite (proj2 (Z.ltb_ge (2 ^ 52 * 2 ^ Z.max 0 (- E)) 0)) by nia.
  set (n := m * 2 ^ Z.max 0 E). set (d := 2 ^ 52 * 2 ^ Z.max 0 (- E)).
  assert (Hn : 0 < n) by (unfold n; nia). assert (Hd : 0 < d) by (unfold d; nia).
  assert (A : at_least n d E).
  { unfold at_least, scale, n, d. cbn [fst snd]. nia. }
  assert (B : below n d (E + 1)).
  { unfold below, scale, n, d. cbn [fst snd].
    destruct (Z_lt_le_dec E 0) as [Neg | Pos].
    - rewrite (Z.max_l 0 E), (Z.max_r 0 (- E)), (Z.max_l 0 (E + 1)),
        (Z.max_r 0 (- (E + 1))) by lia.
      replace (- E) with (Z.succ (- (E + 1))) by lia. rewrite Z.pow_succ_r by lia.
      assert (0 < 2 ^ (- (E + 1))) by (apply Z.pow_pos_nonneg; lia).
      rewrite Z.pow_0_r. nia.
    - rewrite (Z.max_r 0 E), (Z.max_l 0 (- E)), (Z.max_r 0 (E + 1)),
        (Z.max_l 0 (- (E + 1))) by lia.
      replace (E + 1) with (Z.succ E) by lia. rewrite Z.pow_succ_r by lia.
      assert (0 < 2 ^ E) by (apply Z.pow_pos_nonneg; lia).
      rewrite Z.pow_0_r. nia. }
  assert (Fl : floor_log2 n d = E).
  { pose proof (PyFloatFacts.floor_log2_lt n d (E + 1) Hn Hd B).
    pose proof (PyFloatFacts.floor_log2_below n d Hn Hd) as B'.
    destruct (Z_lt_le_dec (floor_log2 n d) E) as [Lt | Ge]; [exfalso | lia].
    apply (proj1 (PyFloatFacts.at_least_iff_not_below n d E) A).
    apply (PyFloatFacts.below_mono n d (floor_log2 n d + 1) E); [exact Hd | lia | exact B']. }
  unfold round_double. rewrite (proj2 (Z.eqb_neq n 0)) by lia.
  rewrite (Z.abs_eq n) by lia.
  assert (Ex : exponent n d = e - 10) by (unfold exponent, emin; rewrite Fl; unfold E; lia).
  rewrite Ex. unfold scale.
  rewrite (Z.max_r 0 (- (e - 10))), (Z.max_l 0 (e - 10)) by lia.
  rewrite Z.pow_0_r, Z.mul_1_r.
  assert (P10 : 0 < 2 ^ (- (e - 10))) by (apply Z.pow_pos_nonneg; lia).
  assert (Eq : n * 2 ^ (- (e - 10)) = m * d).
  { unfold n, d. destruct (Z_lt_le_dec E 0) as [Neg | Pos].
    - rewrite (Z.max_l 0 E), (Z.max_r 0 (- E)) by lia. rewrite Z.pow_0_r, Z.mul_1_r.
      replace (- (e - 10)) with (52 + - E) by (unfold E; lia).
      rewrite Z.pow_add_r by lia. ring.
    - rewrite (Z.max_r 0 E), (Z.max_l 0 (- E)) by lia. rewrite Z.pow_0_r, Z.mul_1_r.
      assert (X : 2 ^ E * 2 ^ (- (e - 10)) = 2 ^ 52)
        by (rewrite <- Z.pow_add_r by (unfold E; lia); f_equal; unfold E; lia).
      rewrite <- Z.mul_assoc, X. reflexivity. }
  rewrite Eq, rne_exact by exact Hd.
  unfold overflows. rewrite (proj2 (Z.leb_gt 0 (e - 10))) by lia. reflexivity.
Qed.

Lemma shifted_div (n j : Z) :
  0 < n < 2 ^ 53 -> 0 <= j <= 3 ->
  div (shifted n j) (Finite (2 ^ 52) (- 42)) = Return (shifted n (j + 1)).
Proof.
  intros H Hj. pose proof (log2_small n H). unfold shifted.
  rewrite div_1024_exact; [do 2 f_equal; lia | now apply shifted_mantissa | lia].
Qed.

Lemma shifted_ge (n j : Z) :
  0 < n < 2 ^ 53 -> 0 <= j ->
  ge_int (shifted n j) 1024 = (1024 * 2 ^ (10 * j) <=? n).
Proof.
  intros H Hj. pose proof (log2_small n H). unfold shifted, ge_int.
  rewrite (Z.max_l 0 (- (52 - Z.log2 n + 10 * j))) by lia.
  rewrite Z.opp_involutive, (Z.max_r 0 (52 - Z.log2 n + 10 * j)) by lia.
  rewrite Z.pow_0_r, Z.mul_1_r, Z.pow_add_r by lia.
  assert (0 < 2 ^ (52 - Z.log2 n)) by (apply Z.pow_pos_nonneg; lia).
  assert (0 < 2 ^ (10 * j)) by (apply Z.pow_pos_nonneg; lia).
  destruct (Z.leb_spec (1024 * (2 ^ (52 - Z.log2 n) * 2 ^ (10 * j))) (n * 2 ^ (52 - Z.log2 n))),
    (Z.leb_spec (1024 * 2 ^ (10 * j)) n); try reflexivity; nia.
Qed.

Lemma shifted_to_int (n : Z) : 0 < n < 2 ^ 53 -> to_int (shifted n 0) = Return n.
Proof.
  intros H. pose proof (log2_small n H). unfold shifted, to_int.
  rewrite Z.add_0_r, Z.opp_involutive.
  rewrite (Z.max_l 0 (- (52 - Z.log2 n))), (Z.max_r 0 (52 - Z.log2 n)) by lia.
  rewrite Z.pow_0_r, Z.mul_1_r, Z.quot_mul; [reflexivity|].
  apply Z.pow_nonzero; lia.
Qed.

Lemma shifted_format (n j : Z) :
  0 < n < 2 ^ 53 -> 0 <= j ->
  format_2f (shifted n j) = two_decimals (rne (n * 100) (2 ^ (10 * j))).
Proof.
  intros H Hj. pose proof (log2_small n H). unfold shifted, format_2f.
  assert (P : 0 < 2 ^ (52 - Z.log2 n)) by (apply Z.pow_pos_nonneg; lia).
  assert (Q : 0 < 2 ^ (10 * j)) by (apply Z.pow_pos_nonneg; lia).
  rewrite (proj2 (Z.ltb_ge (n * 2 ^ (52 - Z.log2 n)) 0)) by nia.
  rewrite Z.abs_eq by nia.
  rewrite (Z.max_l 0 (- (52 - Z.log2 n + 10 * j))) by lia.
  rewrite Z.opp_involutive, (Z.max_r 0 (52 - Z.log2 n + 10 * j)) by lia.
  rewrite Z.pow_0_r, Z.mul_1_r, Z.pow_add_r by lia.
  replace (n * 2 ^ (52 - Z.log2 n) * 100) with (n * 100 * 2 ^ (52 - Z.log2 n)) by ring.
  rewrite (Z.mul_comm (2 ^ (52 - Z.log2 n)) (2 ^ (10 * j))).
  rewrite rne_scale by lia. reflexivity.
Qed.

Lemma size_loop_continue (fuel : nat) (n j : Z) :
  0 < n < 2 ^ 53 -> 0 <= j <= 3 -> 1024 * 2 ^ (10 * j) <= n ->
  size_loop (S fuel) (shifted n j) j = size_loop fuel (shifted n (j + 1)) (j + 1).
Proof.
  intros H Hj Hn. cbn [size_loop]. rewrite shifted_ge by lia.
  rewrite (proj2 (Z.leb_le _ _) Hn), (proj2 (Z.ltb_lt j 4)) by lia. cbn [andb].
  rewrite of_int_1024. cbn [bind]. rewrite shifted_div by lia. reflexivity.
Qed.

Lemma size_loop_stop (fuel : nat) (n j : Z) :
  0 < n < 2 ^ 53 -> 0 <= j -> n < 1024 * 2 ^ (10 * j) ->
  size_loop (S fuel) (shifted n j) j = Return (shifted n j, j).
Proof.
  intros H Hj Hn. cbn [size_loop]. rewrite shifted_ge by lia.
  now rewrite (proj2 (Z.leb_gt _ _) Hn).
Qed.

End PyFormatFacts.

(** The fuel never cuts the loop short: started with four iterations allowed
    and [i = 0], [size_loop] stops where the test of the [while] fails. *)
Lemma size_loop_exit (fuel : nat) :
  forall s i s' i',
    4 - i <= Z.of_nat fuel ->
    size_loop fuel s i = Return (s', i') ->
    PyFormat.ge_int s' 1024 && (i' <? 4) = false.
Proof.
  induction fuel as [|fuel IH]; intros s i s' i' Hf H.
  - cbn in H. inversion H; subst. rewrite (proj2 (Z.ltb_ge i' 4)) by lia.
    apply andb_false_r.
  - cbn [size_loop] in H.
    destruct (PyFormat.ge_int s 1024 && (i <? 4)) eqn:T.
    + destruct (bind_return _ _ _ H) as (k & _ & H1).
      destruct (bind_return _ _ _ H1) as (s1 & _ & H2).
      apply (IH s1 (i + 1) s' i'); [lia | exact H2].
    + inversion H; subst. exact T.
Qed.

(** X19. Sizes below 1024 are shown exactly, in bytes. *)
Theorem format_size_bytes (size_bytes : Z) :
  0 <= size_bytes < 1024 ->
  format_size size_bytes = Return (String.append (PyFormat.str size_bytes) " B").
Proof.
  intros H. destruct (Z.eq_dec size_bytes 0) as [-> | NZ]; [reflexivity|].
  assert (R : 0 < size_bytes < 2 ^ 53)
    by (split; [lia | apply Z.lt_trans with 1024; [lia | reflexivity]]).
  unfold format_size. rewrite PyFormatFacts.of_int_exact by exact R. cbn [bind].
  rewrite PyFormatFacts.size_loop_stop by (cbn; lia). cbn [bind Z.eqb].
  rewrite PyFormatFacts.shifted_to_int by exact R. reflexivity.
Qed.

Lemma format_size_bytes_witness :
  0 <= 1023 < 1024 /\ format_size 1023 = Return "1023 B"%string.
Proof.
  assert (H : 0 <= 1023 < 1024) by lia.
  split; [exact H | exact (format_size_bytes 1023 H)].
Defined.

(** X20. From 1024 bytes up to [2^53], the size is shown in the largest unit it
    reaches (KB, MB, GB, then TB for everything larger) as the exact
    quotient by the unit rounded to two decimals, ties to even. *)
Theorem format_size_scaled (size_bytes : Z) :
  1024 <= size_bytes < 2 ^ 53 ->
  1 <= unit_index size_bytes <= 4
  /\ format_size size_bytes
     = Return (String.append
                 (PyFormat.two_decimals
                    (PyFloat.rne (size_bytes * 100) (1024 ^ unit_index size_bytes)))
                 (String.append " " (nth (Z.to_nat (unit_index size_bytes)) units ""%string))).
Proof.
  intros H. assert (R : 0 < size_bytes < 2 ^ 53) by lia.
  unfold format_size. rewrite PyFormatFacts.of_int_exact by exact R. cbn [bind].
  rewrite (PyFormatFacts.size_loop_continue 3 size_bytes 0) by (cbn; lia).
  cbn [Z.add Pos.add Pos.succ].
  unfold unit_index. rewrite (proj2 (Z.ltb_ge size_bytes 1024)) by lia.
  destruct (size_bytes <? 1024 ^ 2) eqn:T2.
  { apply Z.ltb_lt in T2. split; [lia|].
    rewrite PyFormatFacts.size_loop_stop by (cbn in *; lia). cbn [bind].
    cbn [Z.add Z.eqb]. rewrite PyFormatFacts.shifted_format by lia. reflexivity. }
  apply Z.ltb_ge in T2.
  rewrite (PyFormatFacts.size_loop_continue 2 size_bytes 1) by (cbn in *; lia).
  cbn [Z.add Pos.add Pos.succ].
  destruct (size_bytes <? 1024 ^ 3) eqn:T3.
  { apply Z.ltb_lt in T3. split; [lia|].
    rewrite PyFormatFacts.size_loop_stop by (cbn in *; lia). cbn [bind].
    cbn [Z.add Z.eqb Pos.add Pos.succ]. rewrite PyFormatFacts.shifted_format by lia.
    reflexivity. }
  apply Z.ltb_ge in T3.
  rewrite (PyFormatFacts.size_loop_continue 1 size_bytes 2) by (cbn in *; lia).
  cbn [Z.add Pos.add Pos.succ].
  destruct (size_bytes <? 1024 ^ 4) eqn:T4.
  { apply Z.ltb_lt in T4. split; [lia|].
    rewrite PyFormatFacts.size_loop_stop by (cbn in *; lia). cbn [bind].
    cbn [Z.add Z.eqb Pos.add Pos.succ]. rewrite PyFormatFacts.shifted_format by lia.
    reflexivity. }
  apply Z.ltb_ge in T4. split; [lia|].
  rewrite (PyFormatFacts.size_loop_continue 0 size_bytes 3) by (cbn in *; lia).
  cbn [Z.add Pos.add Pos.succ].
  cbn [size_loop bind]. cbn [Z.add Z.eqb Pos.add Pos.succ].
  rewrite PyFormatFacts.shifted_format by lia. reflexivity.
Qed.

Lemma format_size_scaled_witness :
  1024 <= 4404019 < 2 ^ 53 /\ format_size 4404019 = Return "4.20 MB"%string.
Proof.
  assert (H : 1024 <= 4404019 < 2 ^ 53) by (split; [lia | reflexivity]).
  split; [exact H|].
  destruct (format_size_scaled 4404019 H) as [_ E]. rewrite E. reflexivity.
Defined.


(** ** The listing *)

Lemma enumerate_from_red (fs : list path) :
  forall start count,
    0 < start ->
    map (fun l => (file_color l, listed_path l))
        (map (fun ix : Z * path =>
                let '(i, fpath) := ix in
                mk_listed (i =? count - 1) (if i =? 0 then GREEN else RED) fpath)
             (enumerate_from start fs))
    = map (pair RED) fs.
Proof.
  induction fs as [|f fs IH]; intros start count H; cbn [enumerate_from map]; [reflexivity|].
  rewrite IH by lia. cbn [file_color listed_path].
  now rewrite (proj2 (Z.eqb_neq start 0)) by lia.
Qed.

Lemma list_files_colors (first : path) (rest : list path) :
  map (fun l => (file_color l, listed_path l)) (list_files (first :: rest))
  = (GREEN, first) :: map (pair RED) rest.
Proof.
  unfold list_files. cbn [enumerate_from map file_color listed_path Z.eqb].
  f_equal. apply enumerate_from_red. lia.
Qed.

Lemma red_of_colors (ls : list listed_file) (keep : path) (rest : list path) :
  map (fun l => (file_color l, listed_path l)) ls = (GREEN, keep) :: map (pair RED) rest ->
  map listed_path
      (filter (fun l => match file_color l with RED => true | GREEN => false end) ls)
  = rest.
Proof.
  destruct ls as [|l0 ls]; cbn [map]; [discriminate|].
  intros H. injection H as C0 P0 T. cbn [filter]. rewrite C0. clear C0 P0.
  revert rest T. induction ls as [|l ls IH]; intros rest T; destruct rest as [|r rest];
    cbn [map] in T; try discriminate T.
  - reflexivity.
  - injection T as C P T'. cbn [filter]. rewrite C. cbn [map].
    f_equal; [exact P | exact (IH rest T')].
Qed.

Lemma sizes_in_group (os : os_world) (sha : hashlib) (all_files : list path) (g : group)
    (p : path) :
  In g (flat_map (emitted os sha) (group_by_size os all_files)) ->
  In p (files g) -> size_of os p = file_size g.
Proof.
  intros Hg Hp. apply in_flat_map in Hg. destruct Hg as ([size paths] & Hit & Hg).
  apply in_group_by_size in Hit. destruct Hit as [-> _].
  rewrite (emitted_size os sha _ g Hg). cbn [fst].
  pose proof (emitted_files os sha _ g p Hg Hp) as H. cbn [snd] in H.
  apply in_size_group in H. unfold size_of. now rewrite (proj2 H).
Qed.

Lemma sum_sizes_const (os : os_world) (ps : list path) (s : Z) :
  (forall p, In p ps -> size_of os p = s) -> sum_sizes os ps = len ps * s.
Proof.
  induction ps as [|p ps IH]; intros H; [reflexivity|].
  cbn [sum_sizes fold_right]. fold (sum_sizes os ps).
  rewrite len_cons, (H p) by (simpl; auto).
  rewrite IH; [lia|]. intros q Hq. apply H. simpl; auto.
Qed.

Lemma sum_sizes_app (os : os_world) (ps qs : list path) :
  sum_sizes os (ps ++ qs) = sum_sizes os ps + sum_sizes os qs.
Proof.
  induction ps as [|p ps IH]; cbn [app sum_sizes fold_right]; [reflexivity|].
  fold (sum_sizes os (ps ++ qs)) (sum_sizes os ps). rewrite IH. lia.
Qed.

(** X21. In the listing of a scan each group has its block, in the order of the
    groups: the block lists the files of the group, the first one in green,
    which the header and the tip name, all others in red, and its header
    shows their number; and the wasted space reported is the total size of
    the files printed in red. *)
Theorem listing_marks_wasted_space (os : os_world) (sha : hashlib)
    (all_files : list path) :
  exists st,
    detect os sha all_files = Return st
    /\ Forall2 (fun g b =>
                  exists keep rest,
                    files g = keep :: rest
                    /\ map (fun l => (file_color l, listed_path l)) (listed b)
                       = (GREEN, keep) :: map (pair RED) rest
                    /\ rep_name b = path_name keep
                    /\ tip_name b = path_name keep
                    /\ shown_count b = len (files g))
               (duplicates st) (listing (duplicates st))
    /\ total_wasted_bytes (reported_totals (report (duplicates st)))
       = sum_sizes os (flat_map red_paths (listing (duplicates st))).
Proof.
  destruct (detect_returns os sha all_files) as (lines & R).
  pose proof (emitted_groups_members os sha all_files) as F.
  eexists. split; [exact R|]. cbn [duplicates report reported_totals].
  rewrite (report_totals _ F). cbn [total_wasted_bytes]. rewrite Z.add_0_l.
  pose proof (sizes_in_group os sha all_files) as Sz.
  revert F Sz. generalize (flat_map (emitted os sha) (group_by_size os all_files)).
  intros dups F Sz.
  assert (G : forall g, In g dups ->
                exists keep rest,
                  files g = keep :: rest /\ file_size g = size_of os keep
                  /\ print_group g
                     = [mk_block (path_name keep) (len (files g))
                                 (list_files (keep :: rest)) (path_name keep)]).
  { intros g Hg. rewrite Forall_forall in F. pose proof (F g Hg) as Hl.
    destruct (files g) as [|keep rest] eqn:E; [cbn in Hl; lia|].
    exists keep, rest. split; [reflexivity|]. split.
    - symmetry. apply (Sz g keep Hg). rewrite E. simpl; auto.
    - unfold print_group. rewrite E, len_cons.
      now rewrite (proj2 (Z.eqb_neq (len rest + 1) 0))
        by (pose proof (len_nonneg rest); lia). }
  clear F. split.
  - induction dups as [|g dups IH]; [constructor|].
    destruct (G g ltac:(simpl; auto)) as (keep & rest & E & _ & P).
    cbn [listing flat_map]. rewrite P. cbn [app]. constructor.
    + exists keep, rest. cbn [listed rep_name tip_name shown_count].
      split; [exact E|]. split; [apply list_files_colors|]. auto.
    + apply IH; intros; [apply Sz | apply G]; simpl; auto.
  - induction dups as [|g dups IH]; [reflexivity|].
    destruct (G g ltac:(simpl; auto)) as (keep & rest & E & S & P).
    cbn [listing flat_map wasted_sum fold_right]. fold (wasted_sum dups) (listing dups).
    rewrite P. cbn [app flat_map]. rewrite sum_sizes_app.
    rewrite IH by (intros; first [apply Sz; simpl; now auto | apply G; simpl; now auto]).
    f_equal.
    unfold red_paths. cbn [listed].
    rewrite (red_of_colors _ keep rest (list_files_colors keep rest)).
    rewrite (sum_sizes_const os rest (file_size g)).
    + rewrite E, len_cons. lia.
    + intros p Hp. apply (Sz g p); [simpl; auto | rewrite E; simpl; auto].
Qed.

(** ** Files without a size, and the three parts of the count *)

Lemma group_skips_unkeyed {K V : Type} (eqb : K -> K -> bool) (key : V -> option K)
    (xs : list V) :
  forall d,
    fold_left (DefaultDict.group_step eqb key) xs d
    = fold_left (DefaultDict.group_step eqb key) (filter (DefaultDict.keyed key) xs) d.
Proof.
  induction xs as [|x xs IH]; intros d; cbn [fold_left filter]; [reflexivity|].
  destruct (key x) as [k|] eqn:E.
  - assert (Kx : DefaultDict.keyed key x = true)
      by (unfold DefaultDict.keyed; now rewrite E).
    rewrite Kx. cbn [fold_left]. apply IH.
  - assert (Kx : DefaultDict.keyed key x = false)
      by (unfold DefaultDict.keyed; now rewrite E).
    assert (Sx : DefaultDict.group_step eqb key d x = d)
      by (unfold DefaultDict.group_step; now rewrite E).
    rewrite Kx, Sx. apply IH.
Qed.

(** X22. Files whose size cannot be read change nothing but the total: the scan
    of the files that have a size emits the same groups and hashes the same
    files. *)
Theorem unsized_files_change_nothing (os : os_world) (sha : hashlib)
    (all_files : list path) :
  exists st st',
    detect os sha all_files = Return st
    /\ detect os sha (filter (has_size os) all_files) = Return st'
    /\ duplicates st = duplicates st'
    /\ hasher_calls st = hasher_calls st'
    /\ processed_count st = processed_count st'.
Proof.
  destruct (detect_returns os sha all_files) as (lines & R).
  destruct (detect_returns os sha (filter (has_size os) all_files)) as (lines' & R').
  do 2 eexists. split; [exact R|]. split; [exact R'|].
  cbn [duplicates hasher_calls processed_count].
  assert (E : group_by_size os (filter (has_size os) all_files) = group_by_size os all_files).
  { rewrite !group_by_size_eq. symmetry. apply group_skips_unkeyed. }
  rewrite E. repeat split.
  rewrite filter_filter. f_equal. apply filter_ext. intros p. now destruct (has_size os p).
Qed.

Lemma cost_parts (os : os_world) (sha : hashlib) (item : Z * list path) :
  cost item
  = members_sum (filter is_zero_group (emitted os sha item)) + len (hashed_of item).
Proof.
  destruct item as [size paths]. unfold cost, hashed_of. cbn [snd].
  destruct (len paths <? 2) eqn:E2.
  { unfold emitted. rewrite E2. reflexivity. }
  destruct (size =? 0) eqn:E.
  - unfold emitted. rewrite E2, E.
    cbn [filter is_zero_group file_size Z.eqb members_sum fold_right files].
    unfold len. cbn [List.length Z.of_nat]. lia.
  - apply Z.eqb_neq in E.
    rewrite (zero_groups_of_other_size os sha (size, paths)) by exact E.
    cbn [members_sum fold_right]. lia.
Qed.

Lemma members_sum_app (a b : list group) :
  members_sum (a ++ b) = members_sum a + members_sum b.
Proof.
  induction a as [|g a IH]; cbn [app members_sum fold_right]; [reflexivity|].
  fold (members_sum (a ++ b)) (members_sum a). rewrite IH. lia.
Qed.

Lemma loop_cost_parts (os : os_world) (sha : hashlib) (items : list (Z * list path)) :
  loop_cost items
  = members_sum (filter is_zero_group (flat_map (emitted os sha) items))
    + len (flat_map hashed_of items).
Proof.
  induction items as [|it items IH]; [reflexivity|].
  cbn [loop_cost fold_right flat_map]. fold (loop_cost items).
  rewrite IH, (cost_parts os sha it), filter_app, members_sum_app, len_app. lia.
Qed.

(** X23. The processed count is the sum of its three parts: the files of unique
    size, the empty files reported as a group, and the files hashed. *)
Theorem processed_count_three_parts (os : os_world) (sha : hashlib)
    (all_files : list path) :
  exists st,
    detect os sha all_files = Return st
    /\ processed_count st
       = unique_sized_files_count (group_by_size os all_files)
         + members_sum (filter is_zero_group (duplicates st))
         + len (hasher_calls st).
Proof.
  destruct (detect_returns os sha all_files) as (lines & R).
  eexists. split; [exact R|]. cbn [processed_count duplicates hasher_calls].
  assert (F : Forall (fun l => l <> [])
                (DefaultDict.values (group_by_size os all_files))).
  { rewrite group_by_size_eq. apply DefaultDictFacts.nonempty_group. constructor. }
  pose proof (accounting _ F) as A. rewrite size_of_groups in A.
  fold (len (filter (has_size os) all_files)) in A.
  rewrite <- A, (loop_cost_parts os sha). lia.
Qed.


(** ** How often progress is shown *)

Section BalanceFacts.
Variable os : os_world.
Variable sha : hashlib.
Variable total : Z.

Lemma hash_loop_balance (paths : list path) :
  forall fbh st fbh' st',
    for_each (hash_step os sha total) paths (fbh, st) = Return (fbh', st') ->
    line_balance st' = line_balance st /\ duplicates st' = duplicates st.
Proof.
  induction paths as [|p paths IH]; intros fbh st fbh' st' H; cbn [for_each] in H.
  - inversion H; subst. auto.
  - destruct (bind_return _ _ _ H) as ([fbh1 st1] & H1 & H2).
    destruct (IH _ _ _ _ H2) as [B D]. rewrite B, D. clear H2 H IH B D.
    unfold hash_step in H1.
    destruct (bind_return _ _ _ H1) as (line & _ & R). inversion R; subst.
    unfold line_balance. cbn [stdout hasher_calls duplicates].
    rewrite !len_app. cbn. split; [lia | reflexivity].
Qed.

Lemma scan_size_group_balance (st st' : scan_state) (item : Z * list path) :
  scan_size_group os sha total st item = Return st' ->
  line_balance st' = line_balance st.
Proof.
  destruct item as [size paths]. unfold scan_size_group. intros H.
  destruct (len paths <? 2).
  - now inversion H.
  - destruct (size =? 0) eqn:E0.
    + destruct (bind_return _ _ _ H) as (line & _ & R). inversion R; subst.
      unfold line_balance. cbn [stdout hasher_calls duplicates].
      rewrite filter_app, !len_app. cbn. lia.
    + apply Z.eqb_neq in E0. unfold hash_pass in H.
      destruct (bind_return _ _ _ H) as ([fbh st1] & H1 & R). inversion R; subst.
      destruct (hash_loop_balance paths _ _ _ _ H1) as [B D]. rewrite <- B.
      unfold line_balance. cbn [stdout hasher_calls duplicates].
      rewrite emit_groups_values, filter_app.
      rewrite (filter_none is_zero_group (map (mk_group size) _)); [now rewrite app_nil_r|].
      intros g Hg. apply in_map_iff in Hg. destruct Hg as (l & <- & _).
      unfold is_zero_group. cbn [file_size]. now apply Z.eqb_neq.
Qed.

Lemma scan_loop_balance (items : list (Z * list path)) :
  forall st st',
    for_each (scan_size_group os sha total) items st = Return st' ->
    line_balance st' = line_balance st.
Proof.
  induction items as [|it items IH]; intros st st' H; cbn [for_each] in H.
  - now inversion H.
  - destruct (bind_return _ _ _ H) as (st1 & H1 & H2).
    rewrite (IH _ _ H2). exact (scan_size_group_balance _ _ _ H1).
Qed.

End BalanceFacts.

(** X24. A scan of at least one file writes one progress line at the start, one
    for each file it hashes and one when it reports the group of empty
    files; a scan of no file writes none. *)
Theorem progress_lines_are_counted (os : os_world) (sha : hashlib)
    (all_files : list path) :
  exists st,
    detect os sha all_files = Return st
    /\ (all_files = [] -> stdout st = [])
    /\ (all_files <> [] ->
        len (stdout st)
        = 1 + len (hasher_calls st) + len (filter is_zero_group (duplicates st))).
Proof.
  destruct (detect_returns os sha all_files) as (lines & R).
  eexists. split; [exact R|]. split.
  - intros ->. cbn in R. now inversion R.
  - intros NE. pose proof R as R0. unfold detect in R0.
    destruct (len all_files =? 0) eqn:E.
    { apply Z.eqb_eq in E. destruct all_files as [|x l]; [congruence|].
      rewrite len_cons in E. pose proof (len_nonneg l). lia. }
    destruct (bind_return _ _ _ R0) as (line & _ & L).
    pose proof (scan_loop_balance os sha _ _ _ _ L) as B.
    unfold line_balance in B. cbn [stdout hasher_calls duplicates] in B.
    cbn [stdout hasher_calls duplicates]. cbn in B. lia.
Qed.
